(** * Reliable data transport over a datagram socket

    A shallow embedding of [ReliableSocket.cpp] / [ReliableSocket.h]:
    the stop-and-wait transport built on one UDP socket.

    Conventions of the embedding.
    - [uint32_t] values are [Z] with the wrap-around modulo [2^32] written
      out where the source converts to or computes in [uint32_t].
    - [int] values are [Z]; signed overflow is undefined in C++, so the
      embedding computes in [Z] and is faithful on the executions that stay
      inside the [int] range.
    - The [double] arithmetic of the estimator only multiplies [int]s by
      the dyadic constants 0.875, 0.125, 0.75 and 0.25 and adds [int]s to
      the products; every such value is exactly representable in binary64,
      so the intermediate [double]s are modelled as rationals [Q] and the
      conversion back to [int] as truncation toward zero.
    - Buffers are lists of bytes (each a [Z] in [0, 255]).  The header
      fields are stored through [htonl], so in memory they are big-endian
      whatever the host is; the embedding works on those bytes.
    - The socket is the outside world: every [recv] consumes the next
      entry of an [inbox] that lists, in order, what each [recv] call will
      observe and how long it blocks.  What the program does to the world
      ([send], [setsockopt], diagnostics, [close]) is appended to a trace.
      [socket], [bind], [connect], [setsockopt] and [send] are taken to
      succeed; their failure branches only print or exit. *)

From Stdlib Require Import String QArith ZArith Bool Lia List.
Import ListNotations.
Open Scope Z_scope.

(** ** Constants and types of ReliableSocket.h *)

(** [enum RDTMessageType : uint8_t] *)
Definition RDT_SYN    : Z := 0.
Definition RDT_SYNACK : Z := 1.
Definition RDT_ACK    : Z := 2.
Definition RDT_DATA   : Z := 3.
Definition RDT_CLOSE  : Z := 4.

(** [sizeof(RDTHeader)]: two [uint32_t], one [uint8_t], padded to the
    alignment of [uint32_t]. *)
Definition sizeof_RDTHeader : Z := 12.

Definition MAX_SEG_SIZE  : Z := 1400.
Definition WAIT_TIME     : Z := 4000.
Definition MAX_DATA_SIZE : Z := MAX_SEG_SIZE - sizeof_RDTHeader.

Inductive connection_status := INIT | ESTABLISHED | FIN | CLOSED.

Definition connection_status_eqb (a b : connection_status) : bool :=
  match a, b with
  | INIT, INIT | ESTABLISHED, ESTABLISHED | FIN, FIN | CLOSED, CLOSED => true
  | _, _ => false
  end.

(** The private fields of [class ReliableSocket] ([sock_fd] is the one
    socket of the world below). *)
Record ReliableSocket := mkSocket {
  sequence_number          : Z;   (* uint32_t *)
  expected_sequence_number : Z;   (* uint32_t *)
  estimated_rtt            : Z;   (* int *)
  dev_rtt                  : Z;   (* int *)
  current_rtt              : Z;   (* int *)
  state                    : connection_status
}.

(** ** The world around the object *)

Inductive errno_t := ENONE | EAGAIN | EOTHER.

Definition errno_eqb (a b : errno_t) : bool :=
  match a, b with
  | ENONE, ENONE | EAGAIN, EAGAIN | EOTHER, EOTHER => true
  | _, _ => false
  end.

(** What one call of [recv] observes. *)
Inductive recv_result :=
| RecvTimeout                    (* returns -1, errno = EAGAIN *)
| RecvError                      (* returns -1, another errno  *)
| RecvDgram (dgram : list Z).    (* a datagram, possibly empty *)

(** One inbox entry: the milliseconds the call blocks, and its result. *)
Definition event : Type := Z * recv_result.

(** What the program does to the outside. *)
Inductive effect :=
| Sent (dgram : list Z)                 (* send(sock_fd, buf, n, 0)      *)
| RecvCall (deadline : Z)               (* recv entered under SO_RCVTIMEO *)
| SetTimeout (ms : Z)                   (* set_timeout_length: log + setsockopt *)
| CerrTimeout (ms : Z)                  (* the log line alone, setsockopt refusing *)
| Cerr (msg : string)                   (* cerr << fixed text            *)
| CerrSegment (seq ack ty : Z)          (* "INFO: Received segment. ..." *)
| CerrType (ty : Z)                     (* cerr << hdr->type             *)
| Perror (msg : string)
| CloseFd.                              (* close(sock_fd)                *)

(** The object together with the process and socket state it acts on.
    [trace] is newest first. *)
Record world := mkWorld {
  sock     : ReliableSocket;
  rcvtimeo : Z;            (* SO_RCVTIMEO in ms, 0 = wait for ever *)
  errno    : errno_t;
  clock    : Z;            (* ms *)
  trace    : list effect
}.

(** How a call ends. *)
Inductive outcome (A : Type) :=
| Ret (a : A) (inbox : list event) (w : world)  (* returned to the caller *)
| Exited (w : world)                            (* exit(EXIT_FAILURE)     *)
| Fault (w : world)         (* memcpy outside the bounds of a buffer      *)
| Blocked (w : world).      (* blocked in recv: the inbox has run out     *)
Arguments Ret {A} a inbox w.
Arguments Exited {A} w.
Arguments Fault {A} w.
Arguments Blocked {A} w.

(** ** Field updates *)

Definition with_sock (f : ReliableSocket -> ReliableSocket) (w : world) : world :=
  mkWorld (f (sock w)) (rcvtimeo w) (errno w) (clock w) (trace w).

Definition set_state (st : connection_status) (s : ReliableSocket) : ReliableSocket :=
  mkSocket (sequence_number s) (expected_sequence_number s)
           (estimated_rtt s) (dev_rtt s) (current_rtt s) st.

Definition set_sequence_number (n : Z) (s : ReliableSocket) : ReliableSocket :=
  mkSocket n (expected_sequence_number s)
           (estimated_rtt s) (dev_rtt s) (current_rtt s) (state s).

Definition set_current_rtt (r : Z) (s : ReliableSocket) : ReliableSocket :=
  mkSocket (sequence_number s) (expected_sequence_number s)
           (estimated_rtt s) (dev_rtt s) r (state s).

Definition set_rtt (est dev : Z) (s : ReliableSocket) : ReliableSocket :=
  mkSocket (sequence_number s) (expected_sequence_number s)
           est dev (current_rtt s) (state s).

Definition emit (e : effect) (w : world) : world :=
  mkWorld (sock w) (rcvtimeo w) (errno w) (clock w) (e :: trace w).

Definition set_errno (e : errno_t) (w : world) : world :=
  mkWorld (sock w) (rcvtimeo w) e (clock w) (trace w).

Definition advance (dt : Z) (w : world) : world :=
  mkWorld (sock w) (rcvtimeo w) (errno w) (clock w + dt) (trace w).

(** ** Integer conversions *)

Definition to_uint32 (z : Z) : Z := z mod 2 ^ 32.

(** Conversion of a [double] to [int]: the fractional part is discarded. *)
Definition double_to_int (q : Q) : Z := Z.quot (Qnum q) (Z.pos (Qden q)).

(** ** The constructor *)

Definition new_socket : ReliableSocket :=
  mkSocket 0 0 100 10 0 INIT.

Definition new_world : world :=
  mkWorld new_socket 0 ENONE 0 [].

(** ** set_timeout_length *)

(** The call as it goes when [setsockopt] takes the deadline: the line
    printed and the option set are one entry of the trace, and the
    deadline in force from then on is the argument, a [uint32_t] number
    of milliseconds.

    Modelled from the spec: [msec_to_timeval] of rdt_time.h, which is
    not among the sources; the spec has every deadline in milliseconds
    and the channel with a configurable receive deadline, so the
    conversion is taken to keep the number of milliseconds.

    The other branch, a failing [setsockopt] (a [perror], then [exit]),
    is in [set_timeout_length_checked] below; what is stated about
    deadlines of [2^31] ms and more is stated over that one. *)
Definition set_timeout_length (timeout_length_ms : Z) (w : world) : world :=
  let ms := to_uint32 timeout_length_ms in
  emit (SetTimeout ms)
       (mkWorld (sock w) ms (errno w) (clock w) (trace w)).

(** The argument every caller passes for the RTT-derived deadline:
    [this->estimated_rtt + (4 * this->dev_rtt)]. *)
Definition rtt_timeout (s : ReliableSocket) : Z :=
  estimated_rtt s + 4 * dev_rtt s.

(** ** get_estimated_rtt, set_estimated_rtt *)

Definition get_estimated_rtt (w : world) : Z :=
  to_uint32 (estimated_rtt (sock w)).

Definition set_estimated_rtt (w : world) : world :=
  let s := sock w in
  (* this->estimated_rtt *= (1 - 0.125); *)
  let est1 := double_to_int (inject_Z (estimated_rtt s) * (1 - 0.125)) in
  (* this->estimated_rtt += this->current_rtt * 0.125; *)
  let est2 := double_to_int (inject_Z est1 + inject_Z (current_rtt s) * 0.125) in
  (* this->dev_rtt = this->dev_rtt * (1-.25); *)
  let dev1 := double_to_int (inject_Z (dev_rtt s) * (1 - 0.25)) in
  (* int deviation = this->current_rtt - this->estimated_rtt; *)
  let deviation := current_rtt s - est2 in
  let deviation := if deviation <? 0 then deviation * -1 else deviation in
  (* this->dev_rtt = dev_rtt + (deviation *.25); *)
  let dev2 := double_to_int (inject_Z dev1 + inject_Z deviation * 0.25) in
  let w' := with_sock (set_rtt est2 dev2) w in
  set_timeout_length (rtt_timeout (sock w')) w'.

(** ** Buffers and the header layout *)

Definition zeros (n : Z) : list Z := repeat 0 (Z.to_nat n).

(** Overwrite [buf] from offset [off] with [bytes] (which fit). *)
Definition store (off : nat) (bytes buf : list Z) : list Z :=
  firstn off buf ++ bytes ++ skipn (off + length bytes) buf.

(** The four bytes [htonl x] leaves in memory. *)
Definition htonl_bytes (x : Z) : list Z :=
  [ (x / 2 ^ 24) mod 256; (x / 2 ^ 16) mod 256; (x / 2 ^ 8) mod 256; x mod 256 ].

(** [ntohl] of the four bytes at offset [off]. *)
Definition ntohl_at (off : nat) (buf : list Z) : Z :=
  nth off buf 0 * 2 ^ 24 + nth (off + 1) buf 0 * 2 ^ 16
  + nth (off + 2) buf 0 * 2 ^ 8 + nth (off + 3) buf 0.

(** The raw four bytes of a [uint32_t] field. *)
Definition raw_at (off : nat) (buf : list Z) : list Z :=
  [ nth off buf 0; nth (off + 1) buf 0; nth (off + 2) buf 0; nth (off + 3) buf 0 ].

(** hdr->sequence_number = htonl(x); hdr->ack_number = htonl(x);
    hdr->type = t; *)
Definition put_sequence_number (x : Z) (buf : list Z) : list Z :=
  store 0 (htonl_bytes x) buf.
Definition put_ack_number (x : Z) (buf : list Z) : list Z :=
  store 4 (htonl_bytes x) buf.
Definition put_type (t : Z) (buf : list Z) : list Z :=
  store 8 [t] buf.

(** ntohl(hdr->sequence_number), ntohl(hdr->ack_number), hdr->type *)
Definition hdr_sequence_number (buf : list Z) : Z := ntohl_at 0 buf.
Definition hdr_ack_number (buf : list Z) : Z := ntohl_at 4 buf.
Definition hdr_type (buf : list Z) : Z := nth 8 buf 0.

(** A header-only segment as the handshake and teardown build it:
    a zeroed buffer of [size] bytes with the three fields filled in. *)
Definition control_segment (size : Z) (ty : Z) : list Z :=
  put_type ty (put_sequence_number 0 (put_ack_number 0 (zeros size))).

(** [memcpy(dst + off, src + src_off, n)], [n] being the [int] the
    source passes: [Some] of the new [dst] when the copy stays inside both
    arrays, [None] when it runs past the end of either.  A negative [n]
    converts to a [size_t] larger than any array, so it is out of bounds. *)
Definition memcpy (dst : list Z) (off : Z) (src : list Z) (src_off n : Z)
  : option (list Z) :=
  if (0 <=? n) && (off + n <=? Z.of_nat (length dst))
     && (src_off + n <=? Z.of_nat (length src))
  then Some (store (Z.to_nat off)
                   (firstn (Z.to_nat n) (skipn (Z.to_nat src_off) src)) dst)
  else None.

(** ** Socket calls *)

(** send(sock_fd, buf, n, 0) *)
Definition send (buf : list Z) (n : Z) (w : world) : world :=
  emit (Sent (firstn (Z.to_nat n) buf)) w.

(** recv(sock_fd, buf, MAX_SEG_SIZE, 0): the return value, the buffer
    and the world afterwards.  The trace records the deadline the call
    waits under.  A datagram longer than the buffer is cut; a failing
    call sets [errno], a successful one leaves it alone.  The call does
    not choose what it observes: the inbox does, and an inbox that
    stands for a run of the program lists an expiry only for a call
    entered under a deadline other than 0 ([ReliableSocket.h] has 0
    wait for ever), after a wait as long as that deadline. *)
Definition recv (ev : event) (buf : list Z) (w : world) : Z * list Z * world :=
  let w1 := advance (fst ev) (emit (RecvCall (rcvtimeo w)) w) in
  match snd ev with
  | RecvTimeout => (-1, buf, set_errno EAGAIN w1)
  | RecvError   => (-1, buf, set_errno EOTHER w1)
  | RecvDgram d =>
      let d' := firstn (Z.to_nat MAX_SEG_SIZE) d in
      (Z.of_nat (length d'), store 0 d' buf, w1)
  end.

(** Modelled from the spec: [current_msec] of rdt_time.h, which is not
    among the sources; it reads a millisecond clock. *)
Definition current_msec (w : world) : Z := clock w.

(** Sequencing of calls that may exit, fault or block. *)
Definition bind {A B : Type} (o : outcome A)
  (k : A -> list event -> world -> outcome B) : outcome B :=
  match o with
  | Ret a inbox w => k a inbox w
  | Exited w => Exited w
  | Fault w => Fault w
  | Blocked w => Blocked w
  end.

(** ** send_seg_reliable *)

Fixpoint send_seg_reliable_loop (sendSegment : list Z) (senderSize : Z)
  (lastTimeout : bool) (curTimeout : Z) (inbox : list event) (w : world)
  : outcome (list Z) :=
  let airTime := current_msec w in
  let w := send sendSegment senderSize w in
  let recvSegment := zeros MAX_SEG_SIZE in
  match inbox with
  | [] => Blocked w
  | ev :: inbox =>
      let '(numBytes, recvSegment, w) := recv ev recvSegment w in
      if numBytes <? 0 then
        if errno_eqb (errno w) EAGAIN then
          let w := emit (Cerr "TIMEOUT. DOUBLING THE LENGTH OF TIMEOUT") w in
          let curTimeout :=
            if lastTimeout then to_uint32 (2 * curTimeout)
            else to_uint32 (rtt_timeout (sock w) * 2) in
          let w := set_timeout_length curTimeout w in
          send_seg_reliable_loop sendSegment senderSize true curTimeout inbox w
        else Exited (emit (Perror "No ACK recv") w)
      else
        let w := with_sock (set_current_rtt (current_msec w - airTime)) w in
        Ret recvSegment inbox (set_estimated_rtt w)
  end.

(** [curTimeout] is not initialised in the source; it is read only once
    [lastTimeout] is true, by when it has been assigned. *)
Definition send_seg_reliable (sendSegment : list Z) (senderSize : Z)
  (inbox : list event) (w : world) : outcome (list Z) :=
  let w := set_timeout_length (rtt_timeout (sock w)) w in
  send_seg_reliable_loop sendSegment senderSize false 0 inbox w.

(** ** send_timeout *)

Fixpoint send_timeout (sendSegment : list Z) (inbox : list event) (w : world)
  : outcome unit :=
  let w := send sendSegment sizeof_RDTHeader w in
  let recvSegment := zeros MAX_SEG_SIZE in
  let w := set_timeout_length (rtt_timeout (sock w)) w in
  match inbox with
  | [] => Blocked w
  | ev :: inbox =>
      let '(n, recvSegment, w) := recv ev recvSegment w in
      if n <? 0 then
        if errno_eqb (errno w) EAGAIN then Ret tt inbox w
        else Exited (emit (Perror "send_timeout recieve error") w)
      else send_timeout sendSegment inbox w
  end.

(** ** Loops around send_seg_reliable

    [while(1) { body; if (done) break; }] where every pass of [body]
    ends in a [recv].  The recursion is on [fuel]; each pass uses up at
    least one entry of the inbox, so [S (length inbox)] passes are never
    exhausted before the inbox is (see [until_reply_fuel]). *)
Fixpoint until_reply (fuel : nat)
  (body : list event -> world -> outcome (list Z))
  (done : list Z -> world -> bool)
  (inbox : list event) (w : world) : outcome (list Z) :=
  match fuel with
  | O => Blocked w
  | S fuel =>
      bind (body inbox w) (fun recvSegment inbox w =>
        if done recvSegment w then Ret recvSegment inbox w
        else until_reply fuel body done inbox w)
  end.

(** ** accept_connection *)

Definition accept_connection (inbox : list event) (w : world) : outcome unit :=
  if negb (connection_status_eqb (state (sock w)) INIT) then
    Exited (emit (Cerr "Cannot call accept on used socket") w)
  else
    let segment := zeros MAX_SEG_SIZE in
    match inbox with
    | [] => Blocked w
    | ev :: inbox =>
        let '(recv_count, segment, w) := recv ev segment w in
        if recv_count <? 0 then Exited (emit (Perror "accept recvfrom") w)
        else
          let w := emit (CerrType (hdr_type segment)) w in
          let w := emit (CerrType RDT_SYN) w in
          if negb (hdr_type segment =? RDT_SYN) then
            Exited (emit (Cerr "ERROR: Didn't get the expected RDT_SYN type.") w)
          else
            let sendSegment := control_segment MAX_SEG_SIZE RDT_SYNACK in
            bind (until_reply (S (length inbox))
                    (fun inbox w =>
                       send_seg_reliable sendSegment sizeof_RDTHeader inbox
                         (set_timeout_length (rtt_timeout (sock w)) w))
                    (fun recvSegment _ =>
                       (hdr_type recvSegment =? RDT_ACK)
                       || (hdr_type recvSegment =? RDT_DATA))
                    inbox w)
                 (fun _ inbox w =>
                    let w := with_sock (set_state ESTABLISHED) w in
                    Ret tt inbox (emit (Cerr "INFO: Connection ESTABLISHED") w))
    end.

(** ** connect_to_remote *)

Definition connect_to_remote (inbox : list event) (w : world) : outcome unit :=
  if negb (connection_status_eqb (state (sock w)) INIT) then
    Ret tt inbox (emit (Cerr "Cannot call connect_to_remote on used socket") w)
  else
    let sendSegment := control_segment MAX_SEG_SIZE RDT_SYN in
    let w := set_timeout_length (rtt_timeout (sock w)) w in
    bind (send_seg_reliable sendSegment sizeof_RDTHeader inbox w)
         (fun recvSegment inbox w =>
            let w := if negb (hdr_type recvSegment =? RDT_SYNACK)
                     then emit (Perror "Not a SYNACK") w else w in
            let sendSegment := control_segment MAX_SEG_SIZE RDT_ACK in
            bind (send_timeout sendSegment inbox w) (fun _ inbox w =>
              let w := with_sock (set_state ESTABLISHED) w in
              Ret tt inbox (emit (Cerr "INFO: Connection ESTABLISHED") w))).

(** ** send_data *)

(** The segment [send_data] builds: the header, then [memcpy(hdr+1, data,
    length)]; [None] when the copy leaves [sendSegment]. *)
Definition data_segment (seq : Z) (data : list Z) (len : Z) : option (list Z) :=
  let sendSegment := zeros MAX_SEG_SIZE in
  let sendSegment := put_sequence_number seq sendSegment in
  let sendSegment := put_ack_number 0 sendSegment in
  let sendSegment := put_type RDT_DATA sendSegment in
  memcpy sendSegment sizeof_RDTHeader data 0 len.

Definition send_data (data : list Z) (len : Z) (inbox : list event) (w : world)
  : outcome unit :=
  if negb (connection_status_eqb (state (sock w)) ESTABLISHED) then
    Ret tt inbox (emit (Cerr "INFO: Cannot send: Connection not established.") w)
  else
    match data_segment (sequence_number (sock w)) data len with
    | None => Fault w
    | Some sendSegment =>
        bind (until_reply (S (length inbox))
                (send_seg_reliable sendSegment (sizeof_RDTHeader + len))
                (fun recvSegment w =>
                   (hdr_type recvSegment =? RDT_ACK)
                   && (sequence_number (sock w) =? hdr_ack_number recvSegment))
                inbox w)
             (fun _ inbox w =>
                (* sequence_number++ *)
                Ret tt inbox
                    (with_sock (fun s => set_sequence_number
                                  (to_uint32 (sequence_number s + 1)) s) w))
    end.

(** ** receive_data *)

Fixpoint receive_data_loop (buffer : list Z) (inbox : list event) (w : world)
  : outcome (Z * list Z) :=
  let sendSegment := zeros sizeof_RDTHeader in
  let recvSegment := zeros MAX_SEG_SIZE in
  match inbox with
  | [] => Blocked w
  | ev :: inbox =>
      let '(recv_count, recvSegment, w) := recv ev recvSegment w in
      if recv_count <? 0 then Exited (emit (Perror "receive_data recv") w)
      else
        let w := emit (CerrSegment (hdr_sequence_number recvSegment)
                                   (hdr_ack_number recvSegment)
                                   (hdr_type recvSegment)) w in
        (* uint32_t sequence_num = hdr->sequence_number; *)
        let sequence_num := raw_at 0 recvSegment in
        if hdr_type recvSegment =? RDT_ACK then
          receive_data_loop buffer inbox w
        else if hdr_type recvSegment =? RDT_CLOSE then
          let sendSegment :=
            put_type RDT_ACK
              (put_ack_number 0 (put_sequence_number 0 sendSegment)) in
          bind (send_timeout sendSegment inbox w) (fun _ inbox w =>
            Ret (0, buffer) inbox (with_sock (set_state FIN) w))
        else
          let sendSegment :=
            put_type RDT_ACK
              (store 4 sequence_num (store 0 sequence_num sendSegment)) in
          let w := send sendSegment sizeof_RDTHeader w in
          if ntohl_at 0 sequence_num =? sequence_number (sock w) then
            (* this->sequence_number += 1; *)
            let w := with_sock (fun s => set_sequence_number
                                  (to_uint32 (sequence_number s + 1)) s) w in
            let recv_data_size := recv_count - sizeof_RDTHeader in
            match memcpy buffer 0 recvSegment sizeof_RDTHeader recv_data_size with
            | None => Fault w
            | Some buffer => Ret (recv_data_size, buffer) inbox w
            end
          else receive_data_loop buffer inbox w
  end.

Definition receive_data (buffer : list Z) (inbox : list event) (w : world)
  : outcome (Z * list Z) :=
  if negb (connection_status_eqb (state (sock w)) ESTABLISHED) then
    Ret (0, buffer) inbox
        (emit (Cerr "INFO: Cannot receive: Connection not established.") w)
  else
    receive_data_loop buffer inbox (set_timeout_length 0 w).

(** ** send_close, recv_close, close_connection *)

(** Second loop of [send_close]: wait for the peer's CLOSE. *)
Fixpoint send_close_await (inbox : list event) (w : world) : outcome unit :=
  let recvSegment := zeros MAX_SEG_SIZE in
  match inbox with
  | [] => Blocked w
  | ev :: inbox =>
      let '(received_bytes, recvSegment, w) := recv ev recvSegment w in
      if (received_bytes <? 0) && negb (errno_eqb (errno w) EAGAIN) then
        Exited (emit (Perror "send_close recv error") w)
      else if received_bytes <? 0 then
        send_close_await inbox w
      else if hdr_type recvSegment =? RDT_CLOSE then
        Ret tt inbox w
      else send_close_await inbox w
  end.

(** Third loop of [send_close]: the final wait. *)
Fixpoint send_close_wait (sendSegment : list Z) (inbox : list event) (w : world)
  : outcome unit :=
  let w := send sendSegment sizeof_RDTHeader w in
  let recvSegment := zeros MAX_SEG_SIZE in
  let w := set_timeout_length WAIT_TIME w in
  match inbox with
  | [] => Blocked w
  | ev :: inbox =>
      let '(n, recvSegment, w) := recv ev recvSegment w in
      if 0 <? n then
        if hdr_type recvSegment =? RDT_CLOSE then
          send_close_wait sendSegment inbox w
        else send_close_wait sendSegment inbox w
      else if errno_eqb (errno w) EAGAIN then Ret tt inbox w
      else Exited (emit (Perror "send_close recv error") w)
  end.

Definition send_close (inbox : list event) (w : world) : outcome unit :=
  let sendSegment :=
    put_type RDT_CLOSE
      (put_ack_number 0 (put_sequence_number 0 (zeros MAX_SEG_SIZE))) in
  bind (until_reply (S (length inbox))
          (send_seg_reliable sendSegment sizeof_RDTHeader)
          (fun recvSegment _ =>
             (hdr_type recvSegment =? RDT_ACK)
             || (hdr_type recvSegment =? RDT_CLOSE))
          inbox w)
       (fun _ inbox w =>
          bind (send_close_await inbox w) (fun _ inbox w =>
            let sendSegment := put_type RDT_ACK sendSegment in
            send_close_wait sendSegment inbox w)).

Definition recv_close (inbox : list event) (w : world) : outcome unit :=
  let sendSegment :=
    put_type RDT_CLOSE
      (put_ack_number 0 (put_sequence_number 0 (zeros MAX_SEG_SIZE))) in
  let w := set_timeout_length (rtt_timeout (sock w)) w in
  bind (until_reply (S (length inbox))
          (send_seg_reliable sendSegment sizeof_RDTHeader)
          (fun recvSegment _ => hdr_type recvSegment =? RDT_ACK)
          inbox w)
       (fun _ inbox w => Ret tt inbox w).

Definition close_connection (inbox : list event) (w : world) : outcome unit :=
  bind (if negb (connection_status_eqb (state (sock w)) FIN)
        then send_close inbox w else recv_close inbox w)
       (fun _ inbox w =>
          let w := with_sock (set_state CLOSED) w in
          let w := emit CloseFd w in
          Ret tt inbox (emit (Cerr "Connection Closed as Expected") w)).

(** ** Reference quantities for the statements below *)

(** The smoothing formula for the estimate in exact arithmetic. *)
Definition exact_estimated_rtt (est r : Z) : Q :=
  inject_Z est * (1 - 0.125) + inject_Z r * 0.125.

(** What [set_estimated_rtt] stores, in integer arithmetic: each of the
    four assignments to an [int] field drops the fraction. *)
Definition next_estimated_rtt (est r : Z) : Z :=
  Z.quot (8 * Z.quot (7 * est) 8 + r) 8.

Definition next_dev_rtt (dev r est' : Z) : Z :=
  Z.quot (4 * Z.quot (3 * dev) 4 + Z.abs (r - est')) 4.

(** Deadline expiries in a row, each after the given wait. *)
Definition timeouts (dts : list Z) : list event :=
  map (fun dt => (dt, RecvTimeout)) dts.

(** The deadlines the [recv] calls of a trace waited under, oldest first. *)
Fixpoint waits (t : list effect) : list Z :=
  match t with
  | [] => []
  | RecvCall d :: t => waits t ++ [d]
  | _ :: t => waits t
  end.

(** The datagrams of a trace, oldest first. *)
Fixpoint sent (t : list effect) : list (list Z) :=
  match t with
  | [] => []
  | Sent d :: t => sent t ++ [d]
  | _ :: t => sent t
  end.

(** The deadline of the [n]th transmission of one reliable send whose
    RTT-derived timeout is [t0]: the first waits under [t0], the first
    retry under twice [t0], every later one under twice the one before,
    all in [uint32_t]. *)
Fixpoint backoff (t0 : Z) (n : nat) : Z :=
  match n with
  | O => to_uint32 t0
  | S m =>
      match m with
      | O => to_uint32 (t0 * 2)
      | S _ => to_uint32 (2 * backoff t0 m)
      end
  end.

(** The timeout branch of [send_seg_reliable]'s loop: the next value of
    [curTimeout], and the world once it is in force. *)
Definition next_curTimeout (lastTimeout : bool) (curTimeout : Z) (w : world) : Z :=
  if lastTimeout then to_uint32 (2 * curTimeout)
  else to_uint32 (rtt_timeout (sock w) * 2).

Definition after_expiry (sendSegment : list Z) (senderSize : Z)
  (lastTimeout : bool) (curTimeout : Z) (dt : Z) (w : world) : world :=
  let w1 := send sendSegment senderSize w in
  let w2 := set_errno EAGAIN (advance dt (emit (RecvCall (rcvtimeo w1)) w1)) in
  let w3 := emit (Cerr "TIMEOUT. DOUBLING THE LENGTH OF TIMEOUT") w2 in
  set_timeout_length (next_curTimeout lastTimeout curTimeout w3) w3.

(** [lastTimeout], [curTimeout] and the world after a run of expiries. *)
Fixpoint after_expiries (sendSegment : list Z) (senderSize : Z)
  (lastTimeout : bool) (curTimeout : Z) (dts : list Z) (w : world)
  : bool * Z * world :=
  match dts with
  | [] => (lastTimeout, curTimeout, w)
  | dt :: dts =>
      let w' := after_expiry sendSegment senderSize lastTimeout curTimeout dt w in
      after_expiries sendSegment senderSize true
        (next_curTimeout lastTimeout curTimeout w) dts w'
  end.

(** The receive buffer after a datagram arrived in it. *)
Definition received (d : list Z) : list Z :=
  store 0 (firstn (Z.to_nat MAX_SEG_SIZE) d) (zeros MAX_SEG_SIZE).

(** The loop state [n] transmissions into a call that started with the
    RTT-derived timeout [t0]. *)
Definition in_backoff (t0 : Z) (n : nat) (lt : bool) (c : Z) (w : world) : Prop :=
  rtt_timeout (sock w) = t0 /\ rcvtimeo w = backoff t0 n
  /\ lt = negb (Nat.eqb n 0) /\ (lt = true -> c = backoff t0 n).

(** The acknowledgement [receive_data] builds for a datagram: its raw
    sequence field copied into both number fields, type [RDT_ACK]. *)
Definition ack_of (d : list Z) : list Z :=
  raw_at 0 d ++ raw_at 0 d ++ [RDT_ACK; 0; 0; 0].

(** The twelve header bytes of a DATA segment with sequence number [seq]. *)
Definition data_header (seq : Z) : list Z :=
  htonl_bytes seq ++ [0; 0; 0; 0] ++ [RDT_DATA; 0; 0; 0].

(** The world once a [recv] entered under the current deadline has
    returned after [dt] ms (before [errno] is touched). *)
Definition after_recv (dt : Z) (w : world) : world :=
  advance dt (emit (RecvCall (rcvtimeo w)) w).

(** The "INFO: Received segment." line of [receive_data]. *)
Definition logged (d : list Z) (w : world) : world :=
  emit (CerrSegment (hdr_sequence_number d) (hdr_ack_number d) (hdr_type d)) w.

(** The bytes of a datagram after the header, as far as [recv] keeps them. *)
Definition payload (d : list Z) : list Z :=
  skipn (Z.to_nat sizeof_RDTHeader) (firstn (Z.to_nat MAX_SEG_SIZE) d).

(** The fields a reliable send never writes. *)
Definition same_ids (s1 s2 : ReliableSocket) : Prop :=
  sequence_number s1 = sequence_number s2
  /\ expected_sequence_number s1 = expected_sequence_number s2
  /\ state s1 = state s2.

(** The socket after the estimator has taken the sample [r]. *)
Definition sampled (r : Z) (s : ReliableSocket) : ReliableSocket :=
  let est' := next_estimated_rtt (estimated_rtt s) r in
  mkSocket (sequence_number s) (expected_sequence_number s)
           est' (next_dev_rtt (dev_rtt s) r est') r (state s).

(** A loop body that, when it returns, has used up part of the inbox,
    sent [dgram] one or more times and nothing else, and kept the
    fields a reliable send never writes. *)
Definition round_of (dgram : list Z)
  (body : list event -> world -> outcome (list Z)) : Prop :=
  forall inbox w r rest w',
    body inbox w = Ret r rest w' ->
    same_ids (sock w) (sock w')
    /\ (length rest < length inbox)%nat
    /\ exists k, sent (trace w') = sent (trace w) ++ repeat dgram (S k).

(** The datagram a successful [send_data] transmits. *)
Definition data_datagram (seq : Z) (data : list Z) (len : Z) : list Z :=
  data_header seq ++ firstn (Z.to_nat len) data.

(** One exchange as the inbox shows it: some expiries, then a datagram
    that arrives [dt] ms after the last transmission. *)
Record exchange := mkExchange {
  expiries : list Z;
  delay    : Z;
  reply    : list Z
}.

Definition exchange_events (x : exchange) : list event :=
  timeouts (expiries x) ++ [(delay x, RecvDgram (reply x))].

(** The socket after the estimator has sampled each exchange in turn. *)
Definition sampled_all (xs : list exchange) (s : ReliableSocket) : ReliableSocket :=
  fold_left (fun s x => sampled (delay x) s) xs s.

(** Transmissions the exchanges cost: one per expiry and one per reply. *)
Definition transmissions (xs : list exchange) : nat :=
  fold_right (fun x n => (S (length (expiries x)) + n)%nat) 0%nat xs.

(** A loop body that answers every exchange by returning the reply,
    having sent [dgram] once per expiry and once more and sampled the
    delay. *)
Definition answers (dgram : list Z)
  (body : list event -> world -> outcome (list Z)) : Prop :=
  forall x rest w, exists w',
    body (exchange_events x ++ rest) w = Ret (received (reply x)) rest w'
    /\ sock w' = sampled (delay x) (sock w)
    /\ sent (trace w')
       = sent (trace w) ++ repeat dgram (S (length (expiries x))).

(** The test of [send_data] on a reply: an ACK whose ack number is the
    sequence number just sent. *)
Definition acknowledges (seq : Z) (d : list Z) : bool :=
  (hdr_type d =? RDT_ACK) && (seq =? hdr_ack_number d).

(** sequence_number++ *)
Definition bump (s : ReliableSocket) : ReliableSocket :=
  set_sequence_number (to_uint32 (sequence_number s + 1)) s.

(** The bare ACK [receive_data] answers a CLOSE with. *)
Definition close_ack : list Z :=
  put_type RDT_ACK
    (put_ack_number 0 (put_sequence_number 0 (zeros sizeof_RDTHeader))).

(** What [receive_data] does with a datagram it takes as in-order data:
    the size it computes and the copy into the caller's buffer. *)
Definition deliver (buffer d : list Z) (inbox : list event) (w : world)
  : outcome (Z * list Z) :=
  let recv_count := Z.of_nat (length (firstn (Z.to_nat MAX_SEG_SIZE) d)) in
  let recv_data_size := recv_count - sizeof_RDTHeader in
  match memcpy buffer 0 (received d) sizeof_RDTHeader recv_data_size with
  | None => Fault w
  | Some buffer => Ret (recv_data_size, buffer) inbox w
  end.

(** Datagrams arriving one after the other, each after the given wait. *)
Definition arrivals (ds : list (Z * list Z)) : list event :=
  map (fun p => (fst p, RecvDgram (snd p))) ds.

(** A header-only datagram as it goes on the wire. *)
Definition control_datagram (ty : Z) : list Z :=
  [0; 0; 0; 0; 0; 0; 0; 0; ty; 0; 0; 0].

(** ** Sessions: calls an application makes one after the other *)

Inductive call :=
| CallSend (data : list Z) (len : Z)
| CallReceive (buffer : list Z).

(** What a call that returned has achieved. *)
Inductive progress :=
| Acked (seq : Z)    (* send_data: the sequence number its segment carried *)
| Accepted (n : Z) (ty : Z)
                     (* receive_data: [n] bytes of an in-order segment
                        whose type tag was logged as [ty] *)
| SawClose           (* receive_data: the peer's CLOSE *)
| Refused.           (* the connection was not ESTABLISHED *)

(** The newest datagram of a trace. *)
Definition last_sent (t : list effect) : list Z := last (sent t) [].

(** The type tag in the newest "INFO: Received segment." line of a
    trace (the trace has the newest entry first). *)
Fixpoint last_logged_type (t : list effect) : Z :=
  match t with
  | [] => 0
  | CerrSegment _ _ ty :: _ => ty
  | _ :: t => last_logged_type t
  end.

Fixpoint run_calls (calls : list call) (inbox : list event) (w : world)
  : outcome (list progress) :=
  match calls with
  | [] => Ret [] inbox w
  | CallSend data len :: calls =>
      bind (send_data data len inbox w) (fun _ inbox w' =>
        let p := if connection_status_eqb (state (sock w)) ESTABLISHED
                 then Acked (hdr_sequence_number (last_sent (trace w')))
                 else Refused in
        bind (run_calls calls inbox w') (fun ps inbox w'' =>
          Ret (p :: ps) inbox w''))
  | CallReceive buffer :: calls =>
      bind (receive_data buffer inbox w) (fun r inbox w' =>
        let p := if connection_status_eqb (state (sock w)) ESTABLISHED
                 then if connection_status_eqb (state (sock w')) FIN
                      then SawClose
                      else Accepted (fst r) (last_logged_type (trace w'))
                 else Refused in
        bind (run_calls calls inbox w') (fun ps inbox w'' =>
          Ret (p :: ps) inbox w''))
  end.

(** The number of times the calls moved the counter. *)
Fixpoint increments (ps : list progress) : Z :=
  match ps with
  | [] => 0
  | Acked _ :: ps | Accepted _ _ :: ps => 1 + increments ps
  | _ :: ps => increments ps
  end.

(** The sequence numbers the acknowledged sends carried, in order. *)
Fixpoint acked (ps : list progress) : list Z :=
  match ps with
  | [] => []
  | Acked s :: ps => s :: acked ps
  | _ :: ps => acked ps
  end.

Definition is_send (c : call) : Prop :=
  match c with CallSend _ _ => True | CallReceive _ => False end.

(** The DATA segments among those the calls accepted. *)
Fixpoint data_accepted (ps : list progress) : Z :=
  match ps with
  | [] => 0
  | Accepted _ ty :: ps =>
      (if ty =? RDT_DATA then 1 else 0) + data_accepted ps
  | _ :: ps => data_accepted ps
  end.

(** No call accepted a segment of another type than DATA. *)
Definition data_only (p : progress) : Prop :=
  match p with Accepted _ ty => ty = RDT_DATA | _ => True end.

(** Two outcomes of the same kind, with the same value and the same
    inbox left, whose connections are related by [R]. *)
Definition same_result {A : Type} (R : ReliableSocket -> ReliableSocket -> Prop)
  (o1 o2 : outcome A) : Prop :=
  match o1, o2 with
  | Ret a1 i1 w1, Ret a2 i2 w2 => a1 = a2 /\ i1 = i2 /\ R (sock w1) (sock w2)
  | Exited w1, Exited w2 => R (sock w1) (sock w2)
  | Fault w1, Fault w2 => R (sock w1) (sock w2)
  | Blocked w1, Blocked w2 => R (sock w1) (sock w2)
  | _, _ => False
  end.

(** A datagram [receive_data] discards while its counter is [seq]: a
    stray ACK, or a segment (neither ACK nor CLOSE) with another
    sequence number. *)
Definition discarded (seq : Z) (d : list Z) : Prop :=
  hdr_type d = RDT_ACK
  \/ (hdr_type d <> RDT_ACK /\ hdr_type d <> RDT_CLOSE
      /\ hdr_sequence_number d <> seq).

(** The loop body of [accept_connection]. *)
Definition synack_round (sendSegment : list Z) (inbox : list event) (w : world)
  : outcome (list Z) :=
  send_seg_reliable sendSegment sizeof_RDTHeader inbox
    (set_timeout_length (rtt_timeout (sock w)) w).

(** The estimator fed the sample [r], as at the end of
    [send_seg_reliable]: [current_rtt] is assigned, then
    [set_estimated_rtt] runs. *)
Definition take_sample (r : Z) (w : world) : world :=
  set_estimated_rtt (with_sock (set_current_rtt r) w).

(** The test that ends the loop of [accept_connection]. *)
Definition ends_handshake (d : list Z) : bool :=
  (hdr_type d =? RDT_ACK) || (hdr_type d =? RDT_DATA).

(** The test that ends the first loop of [send_close]. *)
Definition ends_close (d : list Z) : bool :=
  (hdr_type d =? RDT_ACK) || (hdr_type d =? RDT_CLOSE).

(** What the second loop of [send_close] passes over: an expiry, or a
    datagram that is not a CLOSE. *)
Definition passed_over (ev : event) : Prop :=
  match snd ev with
  | RecvTimeout => True
  | RecvError => False
  | RecvDgram d => hdr_type d <> RDT_CLOSE
  end.

(** The CLOSE segment of [send_close] and [recv_close]. *)
Definition close_segment : list Z :=
  put_type RDT_CLOSE
    (put_ack_number 0 (put_sequence_number 0 (zeros MAX_SEG_SIZE))).

(** The messages a trace passed to [perror], oldest first. *)
Fixpoint perrors (t : list effect) : list string :=
  match t with
  | [] => []
  | Perror msg :: t => perrors t ++ [msg]
  | _ :: t => perrors t
  end.

(** ** send_seg_reliable with the failure branch of set_timeout_length

    [set_timeout_length] ends the process when [setsockopt] refuses the
    deadline (a [perror], then [exit]).  Which deadlines are refused
    depends on [msec_to_timeval] of rdt_time.h, which is not among the
    sources, and on the system, so it is a parameter here: [accepts ms]
    says whether a deadline of [ms] milliseconds is taken. *)
Definition set_timeout_length_checked (accepts : Z -> bool)
  (timeout_length_ms : Z) (w : world) : world + world :=
  let ms := to_uint32 timeout_length_ms in
  if accepts ms then inl (set_timeout_length timeout_length_ms w)
  else inr (emit (Perror "setsockopt") (emit (CerrTimeout ms) w)).

Definition set_estimated_rtt_checked (accepts : Z -> bool) (w : world)
  : world + world :=
  let s := sock w in
  let est1 := double_to_int (inject_Z (estimated_rtt s) * (1 - 0.125)) in
  let est2 := double_to_int (inject_Z est1 + inject_Z (current_rtt s) * 0.125) in
  let dev1 := double_to_int (inject_Z (dev_rtt s) * (1 - 0.25)) in
  let deviation := current_rtt s - est2 in
  let deviation := if deviation <? 0 then deviation * -1 else deviation in
  let dev2 := double_to_int (inject_Z dev1 + inject_Z deviation * 0.25) in
  let w' := with_sock (set_rtt est2 dev2) w in
  set_timeout_length_checked accepts (rtt_timeout (sock w')) w'.

Fixpoint send_seg_reliable_loop_checked (accepts : Z -> bool)
  (sendSegment : list Z) (senderSize : Z)
  (lastTimeout : bool) (curTimeout : Z) (inbox : list event) (w : world)
  : outcome (list Z) :=
  let airTime := current_msec w in
  let w := send sendSegment senderSize w in
  let recvSegment := zeros MAX_SEG_SIZE in
  match inbox with
  | [] => Blocked w
  | ev :: inbox =>
      let '(numBytes, recvSegment, w) := recv ev recvSegment w in
      if numBytes <? 0 then
        if errno_eqb (errno w) EAGAIN then
          let w := emit (Cerr "TIMEOUT. DOUBLING THE LENGTH OF TIMEOUT") w in
          let curTimeout :=
            if lastTimeout then to_uint32 (2 * curTimeout)
            else to_uint32 (rtt_timeout (sock w) * 2) in
          match set_timeout_length_checked accepts curTimeout w with
          | inl w =>
              send_seg_reliable_loop_checked accepts sendSegment senderSize
                true curTimeout inbox w
          | inr w => Exited w
          end
        else Exited (emit (Perror "No ACK recv") w)
      else
        let w := with_sock (set_current_rtt (current_msec w - airTime)) w in
        match set_estimated_rtt_checked accepts w with
        | inl w => Ret recvSegment inbox w
        | inr w => Exited w
        end
  end.

Definition send_seg_reliable_checked (accepts : Z -> bool)
  (sendSegment : list Z) (senderSize : Z) (inbox : list event) (w : world)
  : outcome (list Z) :=
  match set_timeout_length_checked accepts (rtt_timeout (sock w)) w with
  | inl w =>
      send_seg_reliable_loop_checked accepts sendSegment senderSize
        false 0 inbox w
  | inr w => Exited w
  end.

(** The expiries of a call that starts from the deadline [t0], each
    after a wait as long as the deadline it ran out under. *)
Definition expiries_from (t0 : Z) (n : nat) : list event :=
  timeouts (map (backoff t0) (seq 0 n)).

(** * Properties *)

(** ** Arithmetic of the conversions *)

Lemma double_to_int_frac (q : Q) (a : Z) (b : positive) :
  q == a # b -> double_to_int q = Z.quot a (Z.pos b).
Proof.
  destruct q as [n d]. unfold Qeq, double_to_int. simpl. intros H.
  rewrite <- (Z.quot_mul_cancel_r n (Z.pos d) (Z.pos b)) by lia.
  rewrite <- (Z.quot_mul_cancel_r a (Z.pos b) (Z.pos d)) by lia.
  rewrite H. f_equal. lia.
Qed.

Lemma scale_875 (a : Z) :
  double_to_int (inject_Z a * (1 - 0.125)) = Z.quot (7 * a) 8.
Proof.
  apply (double_to_int_frac _ (7 * a) 8).
  unfold Qeq, Qmult, Qminus, Qplus, Qopp, inject_Z; cbn [Qnum Qden]; lia.
Qed.

Lemma scale_75 (a : Z) :
  double_to_int (inject_Z a * (1 - 0.25)) = Z.quot (3 * a) 4.
Proof.
  apply (double_to_int_frac _ (3 * a) 4).
  unfold Qeq, Qmult, Qminus, Qplus, Qopp, inject_Z; cbn [Qnum Qden]; lia.
Qed.

Lemma add_125 (a r : Z) :
  double_to_int (inject_Z a + inject_Z r * 0.125) = Z.quot (8 * a + r) 8.
Proof.
  apply (double_to_int_frac _ (8 * a + r) 8).
  unfold Qeq, Qmult, Qminus, Qplus, Qopp, inject_Z; cbn [Qnum Qden]; lia.
Qed.

Lemma add_25 (a r : Z) :
  double_to_int (inject_Z a + inject_Z r * 0.25) = Z.quot (4 * a + r) 4.
Proof.
  apply (double_to_int_frac _ (4 * a + r) 4).
  unfold Qeq, Qmult, Qminus, Qplus, Qopp, inject_Z; cbn [Qnum Qden]; lia.
Qed.

(** ** The RTT estimator *)

Lemma abs_by_sign (d : Z) : (if d <? 0 then d * -1 else d) = Z.abs d.
Proof. destruct (Z.ltb_spec d 0); lia. Qed.

(** The four assignments and the call of [set_timeout_length], as one
    equation on the world. *)
Lemma set_estimated_rtt_eq (w : world) :
  let s := sock w in
  let est' := next_estimated_rtt (estimated_rtt s) (current_rtt s) in
  let dev' := next_dev_rtt (dev_rtt s) (current_rtt s) est' in
  let deadline := to_uint32 (est' + 4 * dev') in
  set_estimated_rtt w =
  mkWorld (mkSocket (sequence_number s) (expected_sequence_number s)
                    est' dev' (current_rtt s) (state s))
          deadline (errno w) (clock w) (SetTimeout deadline :: trace w).
Proof.
  destruct w as [[sn esn est dev r st] to e c t].
  unfold set_estimated_rtt, set_timeout_length, rtt_timeout, with_sock,
    set_rtt, emit, next_estimated_rtt, next_dev_rtt.
  cbn [sock rcvtimeo errno clock trace sequence_number
       expected_sequence_number estimated_rtt dev_rtt current_rtt state].
  rewrite abs_by_sign, scale_875, scale_75, add_125, add_25.
  reflexivity.
Qed.

(** C1 (as amended): on every sample [R = current_rtt] the estimator
    stores [estimated_rtt*(1-0.125)], truncated to whole milliseconds,
    plus [R*0.125], truncated again; it stores [dev_rtt*(1-0.25)],
    truncated, plus a quarter of [|R - estimated_rtt|] taken against the
    estimate just updated, truncated again; and it then sets the receive
    deadline to [estimated_rtt + 4*dev_rtt] of the new values (as a
    [uint32_t]).  No other field changes. *)
Theorem set_estimated_rtt_truncates (w : world) :
  let s := sock w in
  let est' := next_estimated_rtt (estimated_rtt s) (current_rtt s) in
  let dev' := next_dev_rtt (dev_rtt s) (current_rtt s) est' in
  let deadline := to_uint32 (est' + 4 * dev') in
  set_estimated_rtt w =
  mkWorld (mkSocket (sequence_number s) (expected_sequence_number s)
                    est' dev' (current_rtt s) (state s))
          deadline (errno w) (clock w) (SetTimeout deadline :: trace w).
Proof. exact (set_estimated_rtt_eq w). Qed.

(** C1 (as stated) fails: from the initial estimate of 100 ms a sample
    of 4 ms gives 100*0.875 + 4*0.125 = 88 exactly, but the field holds 87
    (87.5 is cut to 87 before the sample's share is added). *)
Lemma set_estimated_rtt_not_exact :
  let w := with_sock (set_current_rtt 4) new_world in
  exact_estimated_rtt (estimated_rtt (sock w)) (current_rtt (sock w)) == 88
  /\ estimated_rtt (sock (set_estimated_rtt w)) = 87
  /\ ~ inject_Z (estimated_rtt (sock (set_estimated_rtt w)))
       == exact_estimated_rtt (estimated_rtt (sock w)) (current_rtt (sock w)).
Proof.
  split; [reflexivity | split; [reflexivity | ]].
  vm_compute. discriminate.
Qed.

(** The truncations lose less than two milliseconds on non-negative
    inputs, and nothing when both values are multiples of 8. *)
Lemma next_estimated_rtt_bounds (est r : Z) :
  0 <= est -> 0 <= r ->
  7 * est + r - 16 < 8 * next_estimated_rtt est r <= 7 * est + r.
Proof.
  intros He Hr. unfold next_estimated_rtt.
  rewrite (Z.quot_div_nonneg (7 * est) 8) by lia.
  assert (0 <= 7 * est / 8) by (apply Z.div_pos; lia).
  rewrite Z.quot_div_nonneg by lia.
  pose proof (Z.div_mod (7 * est) 8 ltac:(lia)) as H1.
  pose proof (Z.mod_pos_bound (7 * est) 8 ltac:(lia)) as H2.
  pose proof (Z.div_mod (8 * (7 * est / 8) + r) 8 ltac:(lia)) as H3.
  pose proof (Z.mod_pos_bound (8 * (7 * est / 8) + r) 8 ltac:(lia)) as H4.
  lia.
Qed.

Lemma next_estimated_rtt_exact (a b : Z) :
  next_estimated_rtt (8 * a) (8 * b) = 7 * a + b.
Proof.
  unfold next_estimated_rtt.
  replace (7 * (8 * a)) with ((7 * a) * 8) by lia.
  rewrite Z.quot_mul by lia.
  replace (8 * (7 * a) + 8 * b) with ((7 * a + b) * 8) by lia.
  apply Z.quot_mul. lia.
Qed.

(** ** The reliable send primitive *)

Lemma send_seg_reliable_loop_expiry seg size lt c dt inbox w :
  send_seg_reliable_loop seg size lt c ((dt, RecvTimeout) :: inbox) w
  = send_seg_reliable_loop seg size true (next_curTimeout lt c w) inbox
      (after_expiry seg size lt c dt w).
Proof. reflexivity. Qed.

Lemma send_seg_reliable_loop_error seg size lt c dt inbox w :
  send_seg_reliable_loop seg size lt c ((dt, RecvError) :: inbox) w
  = Exited (emit (Perror "No ACK recv")
      (set_errno EOTHER (advance dt
         (emit (RecvCall (rcvtimeo w)) (send seg size w))))).
Proof. reflexivity. Qed.

Lemma send_seg_reliable_loop_reply seg size lt c dt d inbox w :
  send_seg_reliable_loop seg size lt c ((dt, RecvDgram d) :: inbox) w
  = Ret (received d) inbox
      (set_estimated_rtt
         (with_sock (set_current_rtt dt)
            (advance dt (emit (RecvCall (rcvtimeo w)) (send seg size w))))).
Proof.
  cbn [send_seg_reliable_loop recv fst snd].
  destruct (Z.ltb_spec (Z.of_nat (length (firstn (Z.to_nat MAX_SEG_SIZE) d))) 0);
    [lia | ].
  unfold received, current_msec. do 3 f_equal.
  cbn [clock advance emit send]. f_equal. lia.
Qed.

Lemma send_seg_reliable_loop_blocked seg size lt c w :
  send_seg_reliable_loop seg size lt c [] w = Blocked (send seg size w).
Proof. reflexivity. Qed.

Lemma send_seg_reliable_loop_expiries seg size dts :
  forall lt c inbox w,
    send_seg_reliable_loop seg size lt c (timeouts dts ++ inbox) w
    = let '(lt', c', w') := after_expiries seg size lt c dts w in
      send_seg_reliable_loop seg size lt' c' inbox w'.
Proof.
  induction dts as [|dt dts IH]; intros lt c inbox w.
  - reflexivity.
  - cbn [timeouts map app after_expiries].
    rewrite send_seg_reliable_loop_expiry. apply IH.
Qed.

Lemma backoff_succ t0 n :
  (1 <= n)%nat -> backoff t0 (S n) = to_uint32 (2 * backoff t0 n).
Proof. destruct n; [lia | reflexivity]. Qed.

Lemma backoff_closed t0 n : backoff t0 n = to_uint32 (2 ^ Z.of_nat n * t0).
Proof.
  induction n as [|[|n] IH].
  - cbn [backoff]. f_equal. lia.
  - cbn [backoff]. f_equal. lia.
  - rewrite backoff_succ, IH by lia. unfold to_uint32.
    rewrite Z.mul_mod_idemp_r by lia. f_equal.
    rewrite (Nat2Z.inj_succ (S n)), Z.pow_succ_r by lia. lia.
Qed.

Lemma backoff_no_wrap t0 n :
  0 <= t0 -> 2 ^ Z.of_nat n * t0 < 2 ^ 32 ->
  backoff t0 n = 2 ^ Z.of_nat n * t0.
Proof.
  intros H0 H. rewrite backoff_closed. unfold to_uint32.
  apply Z.mod_small. split; [ | exact H].
  apply Z.mul_nonneg_nonneg; [apply Z.pow_nonneg; lia | exact H0].
Qed.

Lemma waits_after_expiry seg size lt c dt w :
  waits (trace (after_expiry seg size lt c dt w))
  = waits (trace w) ++ [rcvtimeo w].
Proof. reflexivity. Qed.

Lemma sock_after_expiry seg size lt c dt w :
  sock (after_expiry seg size lt c dt w) = sock w.
Proof. reflexivity. Qed.

Lemma rcvtimeo_after_expiry seg size lt c dt w :
  rcvtimeo (after_expiry seg size lt c dt w)
  = to_uint32 (next_curTimeout lt c w).
Proof. reflexivity. Qed.

Lemma to_uint32_idem z : to_uint32 (to_uint32 z) = to_uint32 z.
Proof. unfold to_uint32. apply Z.mod_mod. lia. Qed.

Lemma backoff_uint32 t0 n : to_uint32 (backoff t0 n) = backoff t0 n.
Proof. rewrite backoff_closed. apply to_uint32_idem. Qed.

Lemma in_backoff_step seg size t0 n lt c dt w :
  in_backoff t0 n lt c w ->
  in_backoff t0 (S n) true (next_curTimeout lt c w)
    (after_expiry seg size lt c dt w)
  /\ next_curTimeout lt c w = backoff t0 (S n).
Proof.
  intros (Ht & Hr & Hlt & Hc).
  assert (E : next_curTimeout lt c w = backoff t0 (S n)).
  { unfold next_curTimeout. destruct n as [|n].
    - cbn in Hlt. subst lt. rewrite Ht. reflexivity.
    - cbn in Hlt. subst lt. rewrite (Hc eq_refl). reflexivity. }
  split; [ | exact E].
  repeat split.
  - rewrite sock_after_expiry. exact Ht.
  - rewrite rcvtimeo_after_expiry, E. apply backoff_uint32.
  - intros _. exact E.
Qed.

Lemma after_expiries_backoff seg size t0 dts :
  forall n lt c w,
    in_backoff t0 n lt c w ->
    let '(lt', c', w') := after_expiries seg size lt c dts w in
    in_backoff t0 (n + length dts) lt' c' w'
    /\ sock w' = sock w
    /\ waits (trace w')
       = waits (trace w) ++ map (backoff t0) (seq n (length dts)).
Proof.
  induction dts as [|dt dts IH]; intros n lt c w H.
  - cbn [after_expiries length seq map]. rewrite Nat.add_0_r, app_nil_r. auto.
  - cbn [after_expiries length seq map].
    destruct (in_backoff_step seg size t0 n lt c dt w H) as [H1 _].
    specialize (IH (S n) true (next_curTimeout lt c w)
                   (after_expiry seg size lt c dt w) H1).
    destruct (after_expiries seg size true (next_curTimeout lt c w) dts
                (after_expiry seg size lt c dt w)) as [[lt' c'] w'].
    destruct IH as (I1 & I2 & I3).
    replace (n + S (length dts))%nat with (S n + length dts)%nat by lia.
    split; [exact I1 | split].
    + rewrite I2. apply sock_after_expiry.
    + rewrite I3, waits_after_expiry. destruct H as (_ & Hr & _).
      rewrite Hr, <- app_assoc. reflexivity.
Qed.

Lemma in_backoff_entry w :
  in_backoff (rtt_timeout (sock w)) 0 false 0
    (set_timeout_length (rtt_timeout (sock w)) w).
Proof. repeat split. intros H; discriminate H. Qed.

(** A call whose inbox begins with expiries: where it stands after
    them, what a reply then gives, and how the deadlines grow. *)
Lemma send_seg_reliable_expiries seg size dts w :
  let t0 := rtt_timeout (sock w) in
  let k := length dts in
  (exists wk,
      send_seg_reliable seg size (timeouts dts) w = Blocked wk
      /\ sock wk = sock w
      /\ waits (trace wk) = waits (trace w) ++ map (backoff t0) (seq 0 k)
      /\ rcvtimeo wk = backoff t0 k)
  /\ (forall dt d rest, exists w',
      send_seg_reliable seg size (timeouts dts ++ (dt, RecvDgram d) :: rest) w
        = Ret (received d) rest w'
      /\ waits (trace w') = waits (trace w) ++ map (backoff t0) (seq 0 (S k))
      /\ rcvtimeo w' = to_uint32 (rtt_timeout (sock w')))
  /\ backoff t0 0 = to_uint32 t0
  /\ backoff t0 1 = to_uint32 (2 * t0)
  /\ (forall n, (1 <= n)%nat -> backoff t0 (S n) = to_uint32 (2 * backoff t0 n))
  /\ (forall n, 0 <= t0 -> 2 ^ Z.of_nat n * t0 < 2 ^ 32 ->
                backoff t0 n = 2 ^ Z.of_nat n * t0).
Proof.
  intros t0 k.
  pose proof (after_expiries_backoff seg size t0 dts 0 false 0 _
                (in_backoff_entry w)) as H.
  split; [ | split; [ | split; [ | split; [ | split]]]].
  - unfold send_seg_reliable.
    rewrite <- (app_nil_r (timeouts dts)), send_seg_reliable_loop_expiries.
    destruct (after_expiries seg size false 0 dts
                (set_timeout_length (rtt_timeout (sock w)) w))
      as [[lt' c'] wk].
    destruct H as ((_ & Hr & _) & Hs & Hw).
    rewrite send_seg_reliable_loop_blocked.
    exists (send seg size wk). repeat split.
    + exact Hs.
    + exact Hw.
    + exact Hr.
  - intros dt d rest. unfold send_seg_reliable.
    rewrite send_seg_reliable_loop_expiries.
    destruct (after_expiries seg size false 0 dts
                (set_timeout_length (rtt_timeout (sock w)) w))
      as [[lt' c'] wk].
    destruct H as ((_ & Hr & _) & Hs & Hw).
    rewrite send_seg_reliable_loop_reply.
    eexists. split; [reflexivity | split].
    + rewrite set_estimated_rtt_eq.
      cbn [trace waits with_sock advance emit send]. rewrite Hw, Hr.
      fold k. rewrite seq_S, map_app, <- app_assoc. reflexivity.
    + rewrite set_estimated_rtt_eq. reflexivity.
  - reflexivity.
  - cbn [backoff]. f_equal. lia.
  - intros n Hn. apply backoff_succ, Hn.
  - intros n. apply backoff_no_wrap.
Qed.

(** ** Buffers and header fields *)

Lemma nth_zeros n i : nth i (zeros n) 0 = 0.
Proof.
  unfold zeros. generalize (Z.to_nat n) as m. intros m. revert i.
  induction m as [|m IH]; intros [|i]; cbn; auto.
Qed.

Lemma length_zeros n : length (zeros n) = Z.to_nat n.
Proof. apply repeat_length. Qed.

Lemma skipn_zeros n m : (m <= Z.to_nat n)%nat ->
  skipn m (zeros n) = zeros (n - Z.of_nat m).
Proof.
  unfold zeros. intros H.
  replace (Z.to_nat (n - Z.of_nat m)) with (Z.to_nat n - m)%nat by lia.
  generalize dependent (Z.to_nat n). intros k. revert m.
  induction k as [|k IH]; intros [|m] H; cbn; try reflexivity; try lia.
  apply IH. lia.
Qed.

Lemma nth_skipn_zeros n m i : nth i (skipn m (zeros n)) 0 = 0.
Proof.
  destruct (Nat.le_gt_cases m (Z.to_nat n)) as [H|H].
  - rewrite skipn_zeros by exact H. apply nth_zeros.
  - rewrite skipn_all2 by (rewrite length_zeros; lia). destruct i; reflexivity.
Qed.

Lemma received_eq d :
  received d =
  firstn (Z.to_nat MAX_SEG_SIZE) d
  ++ skipn (length (firstn (Z.to_nat MAX_SEG_SIZE) d)) (zeros MAX_SEG_SIZE).
Proof. reflexivity. Qed.

(** Reading the receive buffer inside its bounds reads the datagram,
    with zero where the datagram has ended. *)
Lemma nth_received d i :
  (i < Z.to_nat MAX_SEG_SIZE)%nat -> nth i (received d) 0 = nth i d 0.
Proof.
  intros Hi. rewrite received_eq.
  set (n := Z.to_nat MAX_SEG_SIZE) in *.
  destruct (Nat.lt_ge_cases i (length (firstn n d))) as [H|H].
  - rewrite app_nth1 by exact H. rewrite length_firstn in H.
    revert H. generalize n. clear. revert i.
    induction d as [|x d IH]; intros i n H.
    + cbn in H. lia.
    + destruct n as [|n]; [cbn in H; lia | ].
      destruct i as [|i]; [reflexivity | ].
      cbn [firstn nth]. apply IH. cbn in H. lia.
  - rewrite app_nth2 by exact H. rewrite nth_skipn_zeros.
    rewrite length_firstn in H. symmetry. apply nth_overflow. lia.
Qed.

Lemma hdr_type_received d : hdr_type (received d) = hdr_type d.
Proof. apply nth_received. cbn. lia. Qed.

Lemma ntohl_at_received d off :
  (off + 3 < Z.to_nat MAX_SEG_SIZE)%nat ->
  ntohl_at off (received d) = ntohl_at off d.
Proof.
  intros H. unfold ntohl_at. rewrite !nth_received by lia. reflexivity.
Qed.

Lemma hdr_sequence_number_received d :
  hdr_sequence_number (received d) = hdr_sequence_number d.
Proof. apply ntohl_at_received. cbn. lia. Qed.

Lemma hdr_ack_number_received d :
  hdr_ack_number (received d) = hdr_ack_number d.
Proof. apply ntohl_at_received. cbn. lia. Qed.

Lemma raw_at_received d : raw_at 0 (received d) = raw_at 0 d.
Proof. unfold raw_at. rewrite !nth_received by (cbn; lia). reflexivity. Qed.

Lemma ntohl_raw d : ntohl_at 0 (raw_at 0 d) = hdr_sequence_number d.
Proof. reflexivity. Qed.

(** The acknowledgement built in the twelve-byte [sendSegment]. *)
Lemma ack_built d :
  put_type RDT_ACK
    (store 4 (raw_at 0 d) (store 0 (raw_at 0 d) (zeros sizeof_RDTHeader)))
  = ack_of d.
Proof. reflexivity. Qed.

Lemma ack_of_fields d :
  hdr_type (ack_of d) = RDT_ACK
  /\ hdr_sequence_number (ack_of d) = hdr_sequence_number d
  /\ hdr_ack_number (ack_of d) = hdr_sequence_number d
  /\ length (ack_of d) = Z.to_nat sizeof_RDTHeader.
Proof. repeat split. Qed.

(** [ntohl (htonl x)] on the bytes. *)
Lemma ntohl_htonl x l : ntohl_at 0 (htonl_bytes x ++ l) = to_uint32 x.
Proof.
  unfold ntohl_at, htonl_bytes, to_uint32. cbn [nth app Nat.add].
  set (a := x / 256). set (b := a / 256). set (c := b / 256).
  assert (E8 : x / 2 ^ 8 = a) by reflexivity.
  assert (E16 : x / 2 ^ 16 = b).
  { unfold b, a. rewrite Z.div_div by lia. reflexivity. }
  assert (E24 : x / 2 ^ 24 = c).
  { unfold c, b, a. rewrite !Z.div_div by lia. reflexivity. }
  rewrite E8, E16, E24.
  pose proof (Z.div_mod x 256 ltac:(lia)) as Hx.
  pose proof (Z.div_mod a 256 ltac:(lia)) as Ha.
  pose proof (Z.div_mod b 256 ltac:(lia)) as Hb.
  pose proof (Z.div_mod c 256 ltac:(lia)) as Hc.
  fold a in Hx. fold b in Ha. fold c in Hb.
  pose proof (Z.mod_pos_bound x 256 ltac:(lia)).
  pose proof (Z.mod_pos_bound a 256 ltac:(lia)).
  pose proof (Z.mod_pos_bound b 256 ltac:(lia)).
  pose proof (Z.mod_pos_bound c 256 ltac:(lia)).
  change (2 ^ 24) with 16777216. change (2 ^ 16) with 65536.
  change (2 ^ 8) with 256. change (2 ^ 32) with 4294967296.
  apply (Z.mod_unique x 4294967296 (c / 256)); [left | ]; lia.
Qed.

(** ** One reliable send, inverted *)

Lemma same_ids_refl s : same_ids s s.
Proof. repeat split. Qed.

Lemma same_ids_trans s1 s2 s3 : same_ids s1 s2 -> same_ids s2 s3 -> same_ids s1 s3.
Proof. unfold same_ids. intuition congruence. Qed.

Lemma same_ids_sym s1 s2 : same_ids s1 s2 -> same_ids s2 s1.
Proof. unfold same_ids. intuition congruence. Qed.

Lemma same_ids_sampled r s : same_ids s (sampled r s).
Proof. repeat split. Qed.

Lemma sent_after_expiry seg size lt c dt w :
  sent (trace (after_expiry seg size lt c dt w))
  = sent (trace w) ++ [firstn (Z.to_nat size) seg].
Proof. reflexivity. Qed.

Lemma sent_after_expiries seg size dts :
  forall lt c w,
    let '(_, _, w') := after_expiries seg size lt c dts w in
    sock w' = sock w
    /\ sent (trace w')
       = sent (trace w) ++ repeat (firstn (Z.to_nat size) seg) (length dts).
Proof.
  induction dts as [|dt dts IH]; intros lt c w.
  - cbn. rewrite app_nil_r. auto.
  - cbn [after_expiries length repeat].
    specialize (IH true (next_curTimeout lt c w)
                   (after_expiry seg size lt c dt w)).
    destruct (after_expiries seg size true (next_curTimeout lt c w) dts
                (after_expiry seg size lt c dt w)) as [[lt' c'] w'].
    destruct IH as [I1 I2]. split.
    + rewrite I1. apply sock_after_expiry.
    + rewrite I2, sent_after_expiry, <- app_assoc. reflexivity.
Qed.

(** A call of the loop returns exactly when the inbox holds some
    expiries and then a datagram. *)
Lemma send_seg_reliable_loop_ret seg size :
  forall inbox lt c w r rest w',
    send_seg_reliable_loop seg size lt c inbox w = Ret r rest w' ->
    exists dts dt d,
      inbox = timeouts dts ++ (dt, RecvDgram d) :: rest /\ r = received d.
Proof.
  induction inbox as [|[dt [ | |d]] inbox IH]; intros lt c w r rest w' H.
  - discriminate H.
  - rewrite send_seg_reliable_loop_expiry in H.
    destruct (IH _ _ _ _ _ _ H) as (dts & dt' & d & E & Er).
    exists (dt :: dts), dt', d. split; [ | exact Er].
    cbn [timeouts map app]. f_equal. exact E.
  - rewrite send_seg_reliable_loop_error in H. discriminate H.
  - rewrite send_seg_reliable_loop_reply in H. injection H as Hr Hi Hw.
    exists [], dt, d. subst. auto.
Qed.

(** What a returning call has done: it sent the same datagram once per
    expiry and once more, and took one sample, the wait for the reply. *)
Lemma send_seg_reliable_ret seg size inbox w r rest w' :
  send_seg_reliable seg size inbox w = Ret r rest w' ->
  exists dts dt d,
    inbox = timeouts dts ++ (dt, RecvDgram d) :: rest
    /\ r = received d
    /\ sock w' = sampled dt (sock w)
    /\ rcvtimeo w' = to_uint32 (rtt_timeout (sock w'))
    /\ sent (trace w')
       = sent (trace w)
         ++ repeat (firstn (Z.to_nat size) seg) (S (length dts)).
Proof.
  unfold send_seg_reliable. intros H.
  destruct (send_seg_reliable_loop_ret _ _ _ _ _ _ _ _ _ H)
    as (dts & dt & d & E & Er).
  exists dts, dt, d. split; [exact E | split; [exact Er | ]].
  subst inbox. rewrite send_seg_reliable_loop_expiries in H.
  pose proof (sent_after_expiries seg size dts false 0
                (set_timeout_length (rtt_timeout (sock w)) w)) as Hs.
  destruct (after_expiries seg size false 0 dts
              (set_timeout_length (rtt_timeout (sock w)) w))
    as [[lt' c'] wk].
  destruct Hs as [Hs1 Hs2].
  rewrite send_seg_reliable_loop_reply in H. injection H as _ Hw.
  subst w'. rewrite set_estimated_rtt_eq.
  cbn [sock rcvtimeo trace with_sock advance emit send set_current_rtt
       sequence_number expected_sequence_number estimated_rtt dev_rtt
       current_rtt state sent].
  rewrite Hs1, Hs2. cbn [set_timeout_length sock emit trace sent].
  split; [reflexivity | split; [reflexivity | ]].
  rewrite <- app_assoc. f_equal.
  clear. induction (length dts) as [|n IH]; [reflexivity | ].
  cbn [repeat app]. f_equal. exact IH.
Qed.

(** ** Loops of reliable sends *)

Lemma send_seg_reliable_round seg size :
  round_of (firstn (Z.to_nat size) seg) (send_seg_reliable seg size).
Proof.
  intros inbox w r rest w' H.
  destruct (send_seg_reliable_ret _ _ _ _ _ _ _ H)
    as (dts & dt & d & E & _ & Hs & _ & Ht).
  split; [rewrite Hs; apply same_ids_sampled | split].
  - subst inbox. rewrite length_app. cbn [length]. lia.
  - exists (length dts). exact Ht.
Qed.

(** The fuel of [until_reply] is not felt: any two amounts above the
    length of the inbox give the same run. *)
Lemma until_reply_fuel dgram body done :
  round_of dgram body ->
  forall fuel1 fuel2 inbox w,
    (length inbox < fuel1)%nat -> (length inbox < fuel2)%nat ->
    until_reply fuel1 body done inbox w = until_reply fuel2 body done inbox w.
Proof.
  intros Hb. induction fuel1 as [|fuel1 IH]; intros fuel2 inbox w H1 H2; [lia | ].
  destruct fuel2 as [|fuel2]; [lia | ].
  cbn [until_reply]. destruct (body inbox w) as [r rest w'| | | ] eqn:E;
    cbn [bind]; try reflexivity.
  destruct (done r w'); [reflexivity | ].
  destruct (Hb _ _ _ _ _ E) as (_ & Hl & _).
  apply IH; lia.
Qed.

Lemma until_reply_S fuel body done inbox w :
  until_reply (S fuel) body done inbox w
  = bind (body inbox w) (fun r rest w' =>
      if done r w' then Ret r rest w'
      else until_reply fuel body done rest w').
Proof. reflexivity. Qed.

(** The loop equation: one pass, then the loop again on what is left. *)
Lemma until_reply_unfold dgram body done inbox w :
  round_of dgram body ->
  until_reply (S (length inbox)) body done inbox w
  = bind (body inbox w) (fun r rest w' =>
      if done r w' then Ret r rest w'
      else until_reply (S (length rest)) body done rest w').
Proof.
  intros Hb. rewrite until_reply_S.
  destruct (body inbox w) as [r rest w'| | | ] eqn:E; cbn [bind]; try reflexivity.
  destruct (done r w'); [reflexivity | ].
  destruct (Hb _ _ _ _ _ E) as (_ & Hl & _).
  apply (until_reply_fuel dgram); [exact Hb | lia | lia].
Qed.

(** When the loop returns, the last reply satisfied [done]; all the loop
    sent is copies of the one datagram. *)
Lemma until_reply_ret dgram body done :
  round_of dgram body ->
  forall fuel inbox w r rest w',
    until_reply fuel body done inbox w = Ret r rest w' ->
    same_ids (sock w) (sock w')
    /\ done r w' = true
    /\ (length rest < length inbox)%nat
    /\ exists k, sent (trace w') = sent (trace w) ++ repeat dgram (S k).
Proof.
  intros Hb. induction fuel as [|fuel IH]; intros inbox w r rest w' H.
  - discriminate H.
  - cbn [until_reply] in H.
    destruct (body inbox w) as [r1 rest1 w1| | | ] eqn:E; cbn [bind] in H;
      try discriminate H.
    destruct (Hb _ _ _ _ _ E) as (Hi & Hl & k1 & Hk1).
    destruct (done r1 w1) eqn:D.
    + injection H as -> -> ->. repeat split; try apply Hi; auto.
      exists k1. exact Hk1.
    + destruct (IH _ _ _ _ _ H) as (Hi2 & Hd & Hl2 & k2 & Hk2).
      split; [exact (same_ids_trans _ _ _ Hi Hi2) | ].
      split; [exact Hd | split; [lia | ]].
      exists (S k1 + k2)%nat. rewrite Hk2, Hk1, <- app_assoc. f_equal.
      replace (S (S k1 + k2)) with (S k1 + S k2)%nat by lia.
      rewrite repeat_app. reflexivity.
Qed.

(** ** send_data *)

Lemma header_built seq :
  put_type RDT_DATA
    (put_ack_number 0 (put_sequence_number seq (zeros MAX_SEG_SIZE)))
  = data_header seq ++ zeros MAX_DATA_SIZE.
Proof.
  change (zeros MAX_SEG_SIZE) with (repeat 0 12 ++ zeros MAX_DATA_SIZE).
  generalize (zeros MAX_DATA_SIZE). intros tail. reflexivity.
Qed.

Lemma length_data_header seq : length (data_header seq) = 12%nat.
Proof. reflexivity. Qed.

Lemma data_header_fields seq l :
  hdr_type (data_header seq ++ l) = RDT_DATA
  /\ hdr_sequence_number (data_header seq ++ l) = to_uint32 seq
  /\ hdr_ack_number (data_header seq ++ l) = 0.
Proof.
  split; [reflexivity | split; [ | reflexivity]].
  unfold hdr_sequence_number, data_header. rewrite <- app_assoc.
  apply ntohl_htonl.
Qed.

(** The copy stays inside [sendSegment] and inside the caller's data
    exactly when [0 <= len <= MAX_DATA_SIZE] and [len <= length data];
    then the segment is the header, [len] bytes of data, and zeros. *)
Lemma data_segment_fits seq data len :
  0 <= len <= MAX_DATA_SIZE -> len <= Z.of_nat (length data) ->
  data_segment seq data len
  = Some (data_header seq ++ firstn (Z.to_nat len) data
          ++ zeros (MAX_DATA_SIZE - len)).
Proof.
  intros H1 H2. unfold data_segment. rewrite header_built.
  unfold memcpy. rewrite length_app, length_data_header, length_zeros.
  unfold MAX_DATA_SIZE, MAX_SEG_SIZE, sizeof_RDTHeader in *.
  destruct (Z.leb_spec 0 len); [ | lia].
  destruct (Z.leb_spec (12 + len) (Z.of_nat (12 + Z.to_nat (1400 - 12)))); [ | lia].
  destruct (Z.leb_spec (0 + len) (Z.of_nat (length data))); [ | lia].
  cbn [andb]. f_equal. unfold store.
  change (Z.to_nat 12) with (length (data_header seq)).
  rewrite firstn_app, firstn_all, Nat.sub_diag, firstn_O, app_nil_r.
  change (skipn (Z.to_nat 0) data) with data. do 2 f_equal.
  rewrite skipn_app, length_data_header.
  rewrite (skipn_all2 (data_header seq)) by (rewrite length_data_header; lia).
  cbn [app]. rewrite length_firstn.
  replace (12 + Nat.min (Z.to_nat len) (length data) - 12)%nat
    with (Z.to_nat len) by lia.
  rewrite skipn_zeros by lia. f_equal. lia.
Qed.

Lemma data_segment_overrun seq data len :
  len < 0 \/ MAX_DATA_SIZE < len \/ Z.of_nat (length data) < len ->
  data_segment seq data len = None.
Proof.
  intros H. unfold data_segment. rewrite header_built.
  unfold memcpy. rewrite length_app, length_data_header, length_zeros.
  unfold MAX_DATA_SIZE, MAX_SEG_SIZE, sizeof_RDTHeader in *.
  destruct (Z.leb_spec 0 len); [ | reflexivity].
  destruct (Z.leb_spec (12 + len) (Z.of_nat (12 + Z.to_nat (1400 - 12))));
    [ | reflexivity].
  destruct (Z.leb_spec (0 + len) (Z.of_nat (length data))); [ | reflexivity].
  lia.
Qed.

(** The bytes that go on the wire: the header and [len] bytes of data. *)
Lemma data_segment_datagram seq data len :
  0 <= len <= MAX_DATA_SIZE -> len <= Z.of_nat (length data) ->
  firstn (Z.to_nat (sizeof_RDTHeader + len))
    (data_header seq ++ firstn (Z.to_nat len) data
     ++ zeros (MAX_DATA_SIZE - len))
  = data_datagram seq data len.
Proof.
  intros H1 H2. unfold data_datagram, sizeof_RDTHeader.
  replace (Z.to_nat (12 + len))
    with (length (data_header seq) + Z.to_nat len)%nat
    by (rewrite length_data_header; lia).
  rewrite firstn_app_2. f_equal.
  rewrite firstn_app, firstn_firstn, Nat.min_id, length_firstn.
  replace (Z.to_nat len - Nat.min (Z.to_nat len) (length data))%nat
    with 0%nat by lia.
  rewrite firstn_O, app_nil_r. reflexivity.
Qed.

Lemma send_seg_reliable_answers seg size :
  answers (firstn (Z.to_nat size) seg) (send_seg_reliable seg size).
Proof.
  intros [dts dt d] rest w. unfold exchange_events.
  cbn [expiries delay reply]. rewrite <- app_assoc. cbn [app].
  destruct (send_seg_reliable_expiries seg size dts w) as (_ & H & _).
  destruct (H dt d rest) as (w' & E & _). exists w'. split; [exact E | ].
  destruct (send_seg_reliable_ret _ _ _ _ _ _ _ E)
    as (dts' & dt' & d' & Ei & _ & Hs & _ & Ht).
  assert (dts' = dts /\ dt' = dt) as [-> ->].
  { clear - Ei. revert dts' Ei.
    induction dts as [|a dts IH]; intros [|b dts'] Ei; cbn in Ei.
    - injection Ei as -> _. auto.
    - discriminate Ei.
    - discriminate Ei.
    - injection Ei as -> Ei. destruct (IH _ Ei) as [-> ->]. auto. }
  auto.
Qed.

Lemma same_ids_sampled_all xs : forall s, same_ids s (sampled_all xs s).
Proof.
  induction xs as [|x xs IH]; intros s; [apply same_ids_refl | ].
  cbn [sampled_all fold_left].
  exact (same_ids_trans _ _ _ (same_ids_sampled (delay x) s) (IH _)).
Qed.

(** Replies that do not end the loop are followed by a retransmission;
    the first reply that does is returned.  None of it touches the
    fields [same_ids] names; every reply is sampled by the estimator. *)
Lemma until_reply_exchanges dgram body done :
  round_of dgram body -> answers dgram body ->
  (forall r w1 w2, same_ids (sock w1) (sock w2) -> done r w1 = done r w2) ->
  forall xs x rest w,
    Forall (fun y => done (received (reply y)) w = false) xs ->
    done (received (reply x)) w = true ->
    let inbox := flat_map exchange_events xs ++ exchange_events x ++ rest in
    exists w',
      until_reply (S (length inbox)) body done inbox w
        = Ret (received (reply x)) rest w'
      /\ sock w' = sampled (delay x) (sampled_all xs (sock w))
      /\ sent (trace w')
         = sent (trace w) ++ repeat dgram (transmissions (xs ++ [x])).
Proof.
  intros Hr Ha Hd. induction xs as [|y xs IH]; intros x rest w Hxs Hx inbox.
  - subst inbox. cbn [flat_map app]. rewrite (until_reply_unfold dgram) by exact Hr.
    destruct (Ha x rest w) as (w' & E & Hs & Ht). rewrite E. cbn [bind].
    rewrite (Hd _ w' w), Hx.
    + exists w'. split; [reflexivity | split; [exact Hs | ]].
      rewrite Ht. cbn [transmissions fold_right app]. rewrite Nat.add_0_r.
      reflexivity.
    + rewrite Hs. apply same_ids_sym, same_ids_sampled.
  - subst inbox. cbn [flat_map]. rewrite <- app_assoc.
    rewrite (until_reply_unfold dgram) by exact Hr.
    destruct (Ha y (flat_map exchange_events xs ++ exchange_events x ++ rest) w)
      as (w1 & E & Hs & Ht).
    rewrite E. cbn [bind].
    assert (I1 : same_ids (sock w1) (sock w)).
    { rewrite Hs. apply same_ids_sym, same_ids_sampled. }
    inversion Hxs as [|? ? Hy Hxs']; subst.
    rewrite (Hd _ w1 w I1), Hy.
    destruct (IH x rest w1) as (w' & E' & Hs' & Ht').
    + eapply Forall_impl; [ | exact Hxs']. intros z Hz.
      rewrite (Hd _ w1 w I1). exact Hz.
    + rewrite (Hd _ w1 w I1). exact Hx.
    + exists w'. split; [exact E' | split].
      * rewrite Hs', Hs. reflexivity.
      * rewrite Ht', Ht, <- app_assoc. f_equal.
        cbn [transmissions fold_right app]. rewrite repeat_app. reflexivity.
Qed.

Lemma acknowledges_received seq d :
  (hdr_type (received d) =? RDT_ACK) && (seq =? hdr_ack_number (received d))
  = acknowledges seq d.
Proof.
  unfold acknowledges. rewrite hdr_type_received, hdr_ack_number_received.
  reflexivity.
Qed.

Lemma send_data_established data len inbox w :
  state (sock w) = ESTABLISHED ->
  send_data data len inbox w =
  match data_segment (sequence_number (sock w)) data len with
  | None => Fault w
  | Some sendSegment =>
      bind (until_reply (S (length inbox))
              (send_seg_reliable sendSegment (sizeof_RDTHeader + len))
              (fun recvSegment w =>
                 (hdr_type recvSegment =? RDT_ACK)
                 && (sequence_number (sock w) =? hdr_ack_number recvSegment))
              inbox w)
           (fun _ inbox w => Ret tt inbox (with_sock bump w))
  end.
Proof. intros H. unfold send_data. rewrite H. reflexivity. Qed.

(** A returning [send_data]: the length fitted, the one DATA segment was
    sent one or more times, and the counter moved by one. *)
Lemma send_data_ret data len inbox w rest w' :
  state (sock w) = ESTABLISHED ->
  send_data data len inbox w = Ret tt rest w' ->
  0 <= len <= MAX_DATA_SIZE /\ len <= Z.of_nat (length data)
  /\ sequence_number (sock w') = to_uint32 (sequence_number (sock w) + 1)
  /\ state (sock w') = ESTABLISHED
  /\ (length rest < length inbox)%nat
  /\ exists k,
       sent (trace w')
       = sent (trace w)
         ++ repeat (data_datagram (sequence_number (sock w)) data len) (S k).
Proof.
  intros Hst H. rewrite send_data_established in H by exact Hst.
  assert (Hlen : 0 <= len <= MAX_DATA_SIZE /\ len <= Z.of_nat (length data)).
  { destruct (Z_lt_le_dec len 0) as [A|A];
      [rewrite data_segment_overrun in H by lia; discriminate H | ].
    destruct (Z_lt_le_dec MAX_DATA_SIZE len) as [B|B];
      [rewrite data_segment_overrun in H by lia; discriminate H | ].
    destruct (Z_lt_le_dec (Z.of_nat (length data)) len) as [C|C];
      [rewrite data_segment_overrun in H by lia; discriminate H | ].
    lia. }
  destruct Hlen as [H1 H2]. split; [exact H1 | split; [exact H2 | ]].
  rewrite data_segment_fits in H by assumption.
  match type of H with bind ?u _ = _ => destruct u as [r i1 w1| | | ] eqn:E end;
    cbn [bind] in H; try discriminate H.
  injection H as -> <-.
  apply (until_reply_ret _ _ _ (send_seg_reliable_round _ _)) in E.
  rewrite data_segment_datagram in E by assumption.
  destruct E as ((I1 & I2 & I3) & _ & Hl & k & Hk).
  cbn [with_sock sock trace bump set_sequence_number sequence_number state].
  repeat split; try congruence; try exact Hl.
  exists k. exact Hk.
Qed.

(** A [send_data] whose inbox holds replies that do not acknowledge it
    and then one that does. *)
Lemma send_data_exchanges data len xs x rest w :
  state (sock w) = ESTABLISHED ->
  0 <= len <= MAX_DATA_SIZE -> len <= Z.of_nat (length data) ->
  Forall (fun y => acknowledges (sequence_number (sock w)) (reply y) = false) xs ->
  acknowledges (sequence_number (sock w)) (reply x) = true ->
  exists w',
    send_data data len
      (flat_map exchange_events xs ++ exchange_events x ++ rest) w
    = Ret tt rest w'
    /\ sock w' = bump (sampled (delay x) (sampled_all xs (sock w)))
    /\ sent (trace w')
       = sent (trace w)
         ++ repeat (data_datagram (sequence_number (sock w)) data len)
                   (transmissions (xs ++ [x])).
Proof.
  intros Hst H1 H2 Hxs Hx.
  rewrite send_data_established by exact Hst.
  rewrite data_segment_fits by assumption.
  set (seg := data_header (sequence_number (sock w))
              ++ firstn (Z.to_nat len) data ++ zeros (MAX_DATA_SIZE - len)).
  set (done := fun (recvSegment : list Z) (w : world) =>
                 (hdr_type recvSegment =? RDT_ACK)
                 && (sequence_number (sock w) =? hdr_ack_number recvSegment)).
  assert (Hd : forall r w1 w2, same_ids (sock w1) (sock w2) ->
                               done r w1 = done r w2).
  { intros r w1 w2 (A & _). unfold done. rewrite A. reflexivity. }
  assert (Hxs' : Forall (fun y => done (received (reply y)) w = false) xs).
  { eapply Forall_impl; [ | exact Hxs]. intros y Hy. unfold done.
    rewrite acknowledges_received. exact Hy. }
  assert (Hx' : done (received (reply x)) w = true).
  { unfold done. rewrite acknowledges_received. exact Hx. }
  destruct (until_reply_exchanges _ _ done
              (send_seg_reliable_round seg (sizeof_RDTHeader + len))
              (send_seg_reliable_answers seg (sizeof_RDTHeader + len))
              Hd xs x rest w Hxs' Hx') as (w1 & E & Hs & Ht).
  rewrite E. cbn [bind].
  unfold seg in Ht. rewrite data_segment_datagram in Ht by assumption.
  eexists. split; [reflexivity | split].
  - cbn [with_sock sock]. rewrite Hs. reflexivity.
  - exact Ht.
Qed.

(** C10: [send_data] never looks at [length] before the copy.  On an
    established connection a length that fits is copied whole, right
    after the twelve header bytes of the [MAX_SEG_SIZE] buffer, and the
    header with exactly those bytes is what is transmitted; any other
    length is not refused either: the [memcpy] runs past the end of the
    buffer (or of the caller's data).  Keeping [length <= MAX_DATA_SIZE]
    is left to the caller. *)
Theorem send_data_length_unchecked data len w :
  state (sock w) = ESTABLISHED ->
  let seq := sequence_number (sock w) in
  (0 <= len <= MAX_DATA_SIZE -> len <= Z.of_nat (length data) ->
   data_segment seq data len
   = Some (data_header seq ++ firstn (Z.to_nat len) data
           ++ zeros (MAX_DATA_SIZE - len))
   /\ forall dt a rest,
        acknowledges seq a = true ->
        exists w',
          send_data data len ((dt, RecvDgram a) :: rest) w = Ret tt rest w'
          /\ sent (trace w') = sent (trace w) ++ [data_datagram seq data len])
  /\ (len < 0 \/ MAX_DATA_SIZE < len \/ Z.of_nat (length data) < len ->
      data_segment seq data len = None
      /\ forall inbox, send_data data len inbox w = Fault w).
Proof.
  intros Hst seq. split.
  - intros H1 H2. split; [apply data_segment_fits; assumption | ].
    intros dt a rest Ha.
    destruct (send_data_exchanges data len [] (mkExchange [] dt a) rest w
                Hst H1 H2 (Forall_nil _) Ha) as (w' & E & _ & Ht).
    exists w'. split; [exact E | exact Ht].
  - intros H. split; [apply data_segment_overrun; exact H | ].
    intros inbox. rewrite send_data_established by exact Hst.
    fold seq. rewrite data_segment_overrun by exact H. reflexivity.
Qed.

Lemma send_data_length_unchecked_witness :
  let w := with_sock (set_state ESTABLISHED) new_world in
  data_segment 0 [104; 105] 2
  = Some (data_header 0 ++ [104; 105] ++ zeros (MAX_DATA_SIZE - 2))
  /\ send_data (repeat 7 1389) 1389 [] w = Fault w.
Proof.
  intros w.
  destruct (send_data_length_unchecked [104; 105] 2 w eq_refl) as [A _].
  destruct (send_data_length_unchecked (repeat 7 1389) 1389 w eq_refl)
    as [_ B].
  split.
  - apply A; cbn; lia.
  - apply B. right. left. reflexivity.
Defined.

(** ** receive_data *)

Lemma receive_data_established buffer inbox w :
  state (sock w) = ESTABLISHED ->
  receive_data buffer inbox w
  = receive_data_loop buffer inbox (set_timeout_length 0 w).
Proof. intros H. unfold receive_data. rewrite H. reflexivity. Qed.

Lemma receive_data_loop_blocked buffer w :
  receive_data_loop buffer [] w = Blocked w.
Proof. reflexivity. Qed.

Lemma receive_data_loop_failed buffer dt r inbox w :
  r = RecvTimeout \/ r = RecvError ->
  exists w',
    receive_data_loop buffer ((dt, r) :: inbox) w = Exited w'
    /\ sock w' = sock w.
Proof.
  intros [-> | ->]; eexists; (split; [reflexivity | reflexivity]).
Qed.

(** One pass of the loop on a datagram, by its type tag. *)
Lemma receive_data_loop_dgram buffer dt d inbox w :
  receive_data_loop buffer ((dt, RecvDgram d) :: inbox) w =
  let w1 := logged d (after_recv dt w) in
  if hdr_type d =? RDT_ACK then receive_data_loop buffer inbox w1
  else if hdr_type d =? RDT_CLOSE then
    bind (send_timeout close_ack inbox w1) (fun _ inbox w =>
      Ret (0, buffer) inbox (with_sock (set_state FIN) w))
  else
    let w2 := send (ack_of d) sizeof_RDTHeader w1 in
    if hdr_sequence_number d =? sequence_number (sock w) then
      deliver buffer d inbox (with_sock bump w2)
    else receive_data_loop buffer inbox w2.
Proof.
  cbn [receive_data_loop recv fst snd].
  destruct (Z.ltb_spec (Z.of_nat (length (firstn (Z.to_nat MAX_SEG_SIZE) d))) 0);
    [lia | ].
  fold (received d).
  rewrite hdr_type_received, hdr_sequence_number_received,
    hdr_ack_number_received, raw_at_received, ack_built, ntohl_raw.
  reflexivity.
Qed.

Lemma length_received d : length (received d) = Z.to_nat MAX_SEG_SIZE.
Proof.
  rewrite received_eq, length_app, length_skipn, length_zeros, length_firstn.
  lia.
Qed.

(** The copy into the caller's buffer when the datagram holds a whole
    header: the payload lands at the start of the buffer. *)
Lemma deliver_payload buffer d inbox w :
  sizeof_RDTHeader <= Z.of_nat (length d) ->
  (length (payload d) <= length buffer)%nat ->
  deliver buffer d inbox w
  = Ret (Z.of_nat (length (payload d)),
         payload d ++ skipn (length (payload d)) buffer) inbox w.
Proof.
  intros H1 H2. unfold deliver, memcpy.
  set (f := firstn (Z.to_nat MAX_SEG_SIZE) d).
  assert (Hf : (12 <= length f <= 1400)%nat).
  { unfold f. rewrite length_firstn. unfold sizeof_RDTHeader in H1.
    change (Z.to_nat MAX_SEG_SIZE) with 1400%nat. lia. }
  assert (Hp : length (payload d) = (length f - 12)%nat).
  { unfold payload. fold f. rewrite length_skipn. reflexivity. }
  rewrite length_received. unfold sizeof_RDTHeader, MAX_SEG_SIZE.
  destruct (Z.leb_spec 0 (Z.of_nat (length f) - 12)); [ | lia].
  destruct (Z.leb_spec (0 + (Z.of_nat (length f) - 12))
              (Z.of_nat (length buffer))); [ | lia].
  destruct (Z.leb_spec (12 + (Z.of_nat (length f) - 12))
              (Z.of_nat (Z.to_nat 1400))); [ | lia].
  cbn [andb]. unfold store. cbn [Z.to_nat firstn app].
  assert (Hc : firstn (Z.to_nat (Z.of_nat (length f) - 12))
                 (skipn (Pos.to_nat 12) (received d)) = payload d).
  { rewrite received_eq. fold f. rewrite skipn_app.
    replace (Pos.to_nat 12 - length f)%nat with 0%nat by lia.
    cbn [skipn]. rewrite firstn_app, length_skipn.
    replace (Z.to_nat (Z.of_nat (length f) - 12) - (length f - Pos.to_nat 12))%nat
      with 0%nat by lia.
    rewrite firstn_O, app_nil_r. rewrite firstn_all2
      by (rewrite length_skipn; lia).
    reflexivity. }
  rewrite Hc. cbn [Nat.add]. do 3 f_equal. lia.
Qed.

(** A datagram too short to hold a header makes the size negative. *)
Lemma deliver_short buffer d inbox w :
  Z.of_nat (length d) < sizeof_RDTHeader ->
  deliver buffer d inbox w = Fault w.
Proof.
  intros H. unfold deliver, memcpy.
  assert (Hf : (length (firstn (Z.to_nat MAX_SEG_SIZE) d) < 12)%nat).
  { rewrite length_firstn. unfold sizeof_RDTHeader in H. lia. }
  unfold sizeof_RDTHeader.
  destruct (Z.leb_spec 0
              (Z.of_nat (length (firstn (Z.to_nat MAX_SEG_SIZE) d)) - 12));
    [lia | reflexivity].
Qed.

(** DATA segments with another sequence number in front of any inbox:
    each is answered with its acknowledgement, and the loop is then
    where it was, with the fields and the deadline it had. *)
Lemma receive_data_loop_out_of_order buffer seq js :
  forall inbox w,
    sequence_number (sock w) = seq ->
    Forall (fun p => hdr_type (snd p) = RDT_DATA
                     /\ hdr_sequence_number (snd p) <> seq) js ->
    exists w',
      receive_data_loop buffer (arrivals js ++ inbox) w
      = receive_data_loop buffer inbox w'
      /\ sock w' = sock w
      /\ rcvtimeo w' = rcvtimeo w
      /\ sent (trace w')
         = sent (trace w) ++ map (fun p => ack_of (snd p)) js.
Proof.
  induction js as [|[dt d] js IH]; intros inbox w Hw Hjs.
  - exists w. cbn [map arrivals app]. rewrite app_nil_r. repeat split.
  - pose proof (Forall_inv Hjs) as Hd. pose proof (Forall_inv_tail Hjs) as Hjs'.
    cbn [snd] in Hd. destruct Hd as [Ht Hs].
    change (arrivals ((dt, d) :: js)) with ((dt, RecvDgram d) :: arrivals js).
    cbn [app].
    rewrite receive_data_loop_dgram. cbn zeta. rewrite Ht, Hw.
    change (RDT_DATA =? RDT_ACK) with false.
    change (RDT_DATA =? RDT_CLOSE) with false. cbn iota.
    destruct (Z.eqb_spec (hdr_sequence_number d) seq); [contradiction | ].
    destruct (IH inbox (send (ack_of d) sizeof_RDTHeader
                          (logged d (after_recv dt w))) Hw Hjs')
      as (w' & E & Hk & Hr & Hn).
    exists w'. split; [exact E | ].
    split; [exact Hk | ].
    split; [exact Hr | ].
    rewrite Hn. cbn [map snd].
    change (sent (trace (send (ack_of d) sizeof_RDTHeader
                           (logged d (after_recv dt w)))))
      with (sent (trace w) ++ [ack_of d]).
    rewrite <- app_assoc. reflexivity.
Qed.

(** C3: [receive_data] on an established connection meets DATA
    segments whose sequence numbers differ from the counter, any number
    of them.  When nothing else arrives the call is still waiting in
    [recv], under no deadline, with every field of the connection as it
    was, and what it has sent is one ACK per segment, in order, each
    carrying that segment's sequence number (in both number fields).
    When the matching segment arrives after them, the call returns that
    segment's payload at the start of the caller's buffer, which holds
    nothing of the segments before, and the counter is one higher: it
    moved for the matching segment only. *)
Theorem receive_data_rejects_out_of_order buffer js w :
  state (sock w) = ESTABLISHED ->
  Forall (fun p => hdr_type (snd p) = RDT_DATA
                   /\ hdr_sequence_number (snd p) <> sequence_number (sock w))
         js ->
  (exists w',
      receive_data buffer (arrivals js) w = Blocked w'
      /\ sock w' = sock w
      /\ rcvtimeo w' = 0
      /\ sent (trace w')
         = sent (trace w) ++ map (fun p => ack_of (snd p)) js)
  /\ Forall (fun p =>
               hdr_type (ack_of (snd p)) = RDT_ACK
               /\ hdr_sequence_number (ack_of (snd p))
                  = hdr_sequence_number (snd p)
               /\ hdr_ack_number (ack_of (snd p))
                  = hdr_sequence_number (snd p)) js
  /\ (forall dt d rest,
         hdr_type d = RDT_DATA ->
         hdr_sequence_number d = sequence_number (sock w) ->
         sizeof_RDTHeader <= Z.of_nat (length d) ->
         (length (payload d) <= length buffer)%nat ->
         exists w',
           receive_data buffer (arrivals js ++ (dt, RecvDgram d) :: rest) w
           = Ret (Z.of_nat (length (payload d)),
                  payload d ++ skipn (length (payload d)) buffer) rest w'
           /\ sock w' = bump (sock w)
           /\ sent (trace w')
              = sent (trace w)
                ++ map (fun p => ack_of (snd p)) js ++ [ack_of d]).
Proof.
  intros Hst Hjs.
  split; [ | split].
  - rewrite receive_data_established by exact Hst.
    destruct (receive_data_loop_out_of_order buffer (sequence_number (sock w))
                js [] (set_timeout_length 0 w) eq_refl Hjs)
      as (w' & E & Hk & Hr & Hn).
    exists w'. rewrite app_nil_r in E. rewrite E.
    split; [reflexivity | ].
    split; [exact Hk | ].
    split; [exact Hr | exact Hn].
  - apply Forall_forall. intros p _.
    destruct (ack_of_fields (snd p)) as (A & B & C & _).
    split; [exact A | split; [exact B | exact C]].
  - intros dt d rest Ty Sq Hd Hb.
    rewrite receive_data_established by exact Hst.
    destruct (receive_data_loop_out_of_order buffer (sequence_number (sock w))
                js ((dt, RecvDgram d) :: rest) (set_timeout_length 0 w)
                eq_refl Hjs)
      as (w' & E & Hk & Hr & Hn).
    rewrite E, receive_data_loop_dgram. cbn zeta. rewrite Ty.
    change (RDT_DATA =? RDT_ACK) with false.
    change (RDT_DATA =? RDT_CLOSE) with false. cbn iota.
    rewrite Hk. cbn [set_timeout_length emit sock].
    rewrite Sq, Z.eqb_refl.
    rewrite deliver_payload by assumption.
    eexists. split; [reflexivity | ].
    split.
    + cbn [with_sock sock send logged after_recv advance emit].
      rewrite Hk. reflexivity.
    + change (sent (trace w') ++ [ack_of d]
              = sent (trace w)
                ++ map (fun p => ack_of (snd p)) js ++ [ack_of d]).
      rewrite Hn, <- app_assoc. reflexivity.
Qed.

Lemma receive_data_rejects_out_of_order_witness :
  let w := with_sock (set_state ESTABLISHED) new_world in
  let d5 := data_datagram 5 [104; 105] 2 in
  let d7 := data_datagram 7 [1] 1 in
  let d0 := data_datagram 0 [9; 9; 9] 3 in
  (exists w',
      receive_data (zeros MAX_DATA_SIZE) [(3, RecvDgram d5); (4, RecvDgram d7)] w
      = Blocked w'
      /\ sock w' = sock w
      /\ sent (trace w') = [ack_of d5; ack_of d7])
  /\ (exists w',
      receive_data (zeros MAX_DATA_SIZE)
        [(3, RecvDgram d5); (4, RecvDgram d7); (2, RecvDgram d0)] w
      = Ret (3, [9; 9; 9] ++ zeros (MAX_DATA_SIZE - 3)) [] w'
      /\ sequence_number (sock w') = 1
      /\ sent (trace w') = [ack_of d5; ack_of d7; ack_of d0]).
Proof.
  intros w d5 d7 d0.
  assert (Hst : state (sock w) = ESTABLISHED) by reflexivity.
  assert (Hjs : Forall (fun p => hdr_type (snd p) = RDT_DATA
                   /\ hdr_sequence_number (snd p) <> sequence_number (sock w))
                  [(3, d5); (4, d7)]).
  { repeat constructor; vm_compute; discriminate. }
  pose proof (receive_data_rejects_out_of_order (zeros MAX_DATA_SIZE)
                [(3, d5); (4, d7)] w Hst Hjs) as (H1 & _ & H2).
  split.
  - destruct H1 as (w' & E & Hk & _ & Hn).
    exists w'. split; [exact E | split; [exact Hk | exact Hn]].
  - destruct (H2 2 d0 []) as (w' & E & Hk & Hn).
    + reflexivity.
    + reflexivity.
    + vm_compute. discriminate.
    + vm_compute. lia.
    + exists w'. split; [ | split].
      * refine (eq_trans E _). f_equal.
      * rewrite Hk. reflexivity.
      * exact Hn.
Defined.

(** Any type tag other than [RDT_ACK] and [RDT_CLOSE] takes the branch
    written for DATA: the datagram is acknowledged, and delivered when
    its first four bytes decode to the counter. *)
Lemma receive_data_loop_other_type buffer dt d inbox w :
  hdr_type d <> RDT_ACK -> hdr_type d <> RDT_CLOSE ->
  let w2 := send (ack_of d) sizeof_RDTHeader (logged d (after_recv dt w)) in
  sent (trace w2) = sent (trace w) ++ [ack_of d]
  /\ receive_data_loop buffer ((dt, RecvDgram d) :: inbox) w
     = if hdr_sequence_number d =? sequence_number (sock w)
       then deliver buffer d inbox (with_sock bump w2)
       else receive_data_loop buffer inbox w2.
Proof.
  intros H1 H2 w2. split; [reflexivity | ].
  rewrite receive_data_loop_dgram. cbn zeta.
  destruct (Z.eqb_spec (hdr_type d) RDT_ACK); [contradiction | ].
  destruct (Z.eqb_spec (hdr_type d) RDT_CLOSE); [contradiction | ].
  reflexivity.
Qed.

(** C5 at two inputs the claim covers.  A datagram whose type tag is 7,
    outside the five known values, with sequence number 0 and the two
    payload bytes 104, 105, reaches a fresh established connection: it
    is acknowledged, its payload is handed to the caller, the counter
    moves to 1 and the call returns 2.  An empty datagram, shorter than
    the header, is acknowledged as well, the counter moves, and the size
    0 - 12 reaches [memcpy]. *)
Theorem receive_data_takes_unknown_type :
  let w := with_sock (set_state ESTABLISHED) new_world in
  let d := [0; 0; 0; 0; 0; 0; 0; 0; 7; 0; 0; 0; 104; 105] in
  (exists w',
      receive_data (zeros MAX_DATA_SIZE) [(3, RecvDgram d)] w
      = Ret (2, [104; 105] ++ zeros (MAX_DATA_SIZE - 2)) [] w'
      /\ sent (trace w') = [ack_of d]
      /\ sequence_number (sock w') = 1)
  /\ (exists w',
      receive_data (zeros MAX_DATA_SIZE) [(3, RecvDgram [])] w = Fault w'
      /\ sent (trace w') = [ack_of []]
      /\ sequence_number (sock w') = 1).
Proof.
  split; eexists; (split; [vm_compute; reflexivity | split; reflexivity]).
Qed.

(** ** send_timeout *)

Lemma send_timeout_dgram seg dt d inbox w :
  send_timeout seg ((dt, RecvDgram d) :: inbox) w
  = send_timeout seg inbox
      (after_recv dt (set_timeout_length (rtt_timeout (sock w))
                        (send seg sizeof_RDTHeader w))).
Proof.
  cbn [send_timeout recv fst snd].
  destruct (Z.ltb_spec (Z.of_nat (length (firstn (Z.to_nat MAX_SEG_SIZE) d))) 0);
    [lia | reflexivity].
Qed.

Lemma send_timeout_expiry seg dt inbox w :
  send_timeout seg ((dt, RecvTimeout) :: inbox) w
  = Ret tt inbox
      (set_errno EAGAIN
         (after_recv dt (set_timeout_length (rtt_timeout (sock w))
                           (send seg sizeof_RDTHeader w)))).
Proof. reflexivity. Qed.

Lemma sent_app t1 t0 : sent (t1 ++ t0) = sent t0 ++ sent t1.
Proof.
  induction t1 as [|e t1 IH]; cbn [app sent].
  - rewrite app_nil_r. reflexivity.
  - destruct e; try exact IH. rewrite IH, app_assoc. reflexivity.
Qed.

Lemma control_segment_datagram ty :
  firstn (Z.to_nat sizeof_RDTHeader) (control_segment MAX_SEG_SIZE ty)
  = control_datagram ty.
Proof.
  unfold control_segment.
  change (zeros MAX_SEG_SIZE) with (repeat 0 12 ++ zeros MAX_DATA_SIZE).
  generalize (zeros MAX_DATA_SIZE). intros tail. reflexivity.
Qed.

Lemma arrivals_cons dt d ds :
  arrivals ((dt, d) :: ds) = (dt, RecvDgram d) :: arrivals ds.
Proof. reflexivity. Qed.

(** [send_timeout] returns at the first expiry; every datagram before
    it makes it send again.  The connection's fields stay as they were. *)
Lemma send_timeout_silence seg ds :
  forall dt rest w, exists t,
    send_timeout seg (arrivals ds ++ (dt, RecvTimeout) :: rest) w
    = Ret tt rest (mkWorld (sock w) (to_uint32 (rtt_timeout (sock w)))
                     EAGAIN (clock w + fold_right Z.add dt (map fst ds))
                     (t ++ trace w))
    /\ sent t = repeat (firstn (Z.to_nat sizeof_RDTHeader) seg) (S (length ds)).
Proof.
  induction ds as [|[dt0 d] ds IH]; intros dt rest w.
  - cbn [arrivals map app]. rewrite send_timeout_expiry.
    eexists [_; _; _]. split; reflexivity.
  - rewrite arrivals_cons. cbn [app map fst]. rewrite send_timeout_dgram.
    destruct (IH dt rest
                (after_recv dt0 (set_timeout_length (rtt_timeout (sock w))
                                   (send seg sizeof_RDTHeader w))))
      as (t & E & Ht).
    exists (t ++ [RecvCall (to_uint32 (rtt_timeout (sock w)));
                  SetTimeout (to_uint32 (rtt_timeout (sock w)));
                  Sent (firstn (Z.to_nat sizeof_RDTHeader) seg)]).
    split.
    + rewrite E. cbn [fold_right]. f_equal.
      cbn [after_recv advance emit set_timeout_length send sock clock trace
           rcvtimeo].
      rewrite <- app_assoc. f_equal. lia.
    + rewrite sent_app, Ht. reflexivity.
Qed.

Lemma send_timeout_ret seg :
  forall inbox w rest w',
    send_timeout seg inbox w = Ret tt rest w' ->
    sock w' = sock w /\ (length rest < length inbox)%nat.
Proof.
  induction inbox as [|[dt [ | |d]] inbox IH]; intros w rest w' H.
  - discriminate H.
  - rewrite send_timeout_expiry in H. injection H as <- <-.
    split; [reflexivity | cbn; lia].
  - discriminate H.
  - rewrite send_timeout_dgram in H. destruct (IH _ _ _ H) as [A B].
    split; [exact A | cbn; lia].
Qed.

(** ** connect_to_remote *)

Lemma exchange_events_app dts dt d rest :
  exchange_events (mkExchange dts dt d) ++ rest
  = timeouts dts ++ (dt, RecvDgram d) :: rest.
Proof.
  unfold exchange_events. cbn [expiries delay reply].
  rewrite <- app_assoc. reflexivity.
Qed.

(** C6: when the reply to the SYN is not a SYNACK, [connect_to_remote]
    prints "Not a SYNACK" and carries on as for a SYNACK: it sends the
    bare ACK (again after every datagram that arrives before the
    silence it waits for) and returns with the connection ESTABLISHED. *)
Theorem connect_to_remote_without_synack dts dt d ds dt' rest w :
  state (sock w) = INIT ->
  hdr_type d <> RDT_SYNACK ->
  exists w' t1 t0,
    connect_to_remote
      (timeouts dts ++ (dt, RecvDgram d)
         :: arrivals ds ++ (dt', RecvTimeout) :: rest) w
    = Ret tt rest w'
    /\ sock w' = set_state ESTABLISHED (sampled dt (sock w))
    /\ state (sock w') = ESTABLISHED
    /\ trace w' = Cerr "INFO: Connection ESTABLISHED"
                  :: t1 ++ Perror "Not a SYNACK" :: t0
    /\ sent t0 = sent (trace w)
                 ++ repeat (control_datagram RDT_SYN) (S (length dts))
    /\ sent t1 = repeat (control_datagram RDT_ACK) (S (length ds)).
Proof.
  intros Hst Hty. unfold connect_to_remote. rewrite Hst. cbn [negb connection_status_eqb].
  rewrite <- exchange_events_app.
  destruct (send_seg_reliable_answers (control_segment MAX_SEG_SIZE RDT_SYN)
              sizeof_RDTHeader (mkExchange dts dt d)
              (arrivals ds ++ (dt', RecvTimeout) :: rest)
              (set_timeout_length (rtt_timeout (sock w)) w))
    as (w1 & E & Hs & Ht).
  rewrite E. cbn [bind reply delay expiries] in *.
  rewrite hdr_type_received.
  destruct (Z.eqb_spec (hdr_type d) RDT_SYNACK); [contradiction | ].
  cbn [negb].
  destruct (send_timeout_silence (control_segment MAX_SEG_SIZE RDT_ACK) ds dt'
              rest (emit (Perror "Not a SYNACK") w1)) as (t & E2 & Ht2).
  rewrite E2. cbn [bind].
  eexists. exists t, (trace w1).
  split; [reflexivity | ].
  cbn [with_sock emit sock trace set_state state].
  rewrite Hs. split; [reflexivity | split; [reflexivity | ]].
  split; [reflexivity | split].
  - rewrite Ht, control_segment_datagram. reflexivity.
  - rewrite Ht2, control_segment_datagram. reflexivity.
Qed.

Lemma connect_to_remote_without_synack_witness :
  exists w',
    connect_to_remote
      [(20, RecvDgram (control_datagram RDT_DATA)); (185, RecvTimeout)]
      new_world
    = Ret tt [] w'
    /\ state (sock w') = ESTABLISHED
    /\ In (Perror "Not a SYNACK") (trace w').
Proof.
  destruct (connect_to_remote_without_synack [] 20
              (control_datagram RDT_DATA) [] 185 [] new_world eq_refl)
    as (w' & t1 & t0 & E & _ & Hst & Ht & _).
  - vm_compute. discriminate.
  - exists w'. split; [exact E | split; [exact Hst | ]].
    rewrite Ht. right. apply in_or_app. right. left. reflexivity.
Defined.

(** ** Calls in the wrong state *)

(** C8: [connect_to_remote] and [accept_connection] on a connection
    that is not in INIT, and [send_data] and [receive_data] on one that
    is not ESTABLISHED, print a diagnostic and do nothing else: the
    first, third and fourth return at once ([receive_data] with 0), the
    second ends the process.  No field of the connection changes,
    nothing is sent, nothing is read, the deadline is not touched. *)
Theorem wrong_state_refused inbox w data len buffer :
  (state (sock w) <> INIT ->
   connect_to_remote inbox w
   = Ret tt inbox (emit (Cerr "Cannot call connect_to_remote on used socket") w)
   /\ accept_connection inbox w
      = Exited (emit (Cerr "Cannot call accept on used socket") w))
  /\ (state (sock w) <> ESTABLISHED ->
      send_data data len inbox w
      = Ret tt inbox
          (emit (Cerr "INFO: Cannot send: Connection not established.") w)
      /\ receive_data buffer inbox w
         = Ret (0, buffer) inbox
             (emit (Cerr "INFO: Cannot receive: Connection not established.") w))
  /\ (forall msg,
        sock (emit (Cerr msg) w) = sock w
        /\ sent (trace (emit (Cerr msg) w)) = sent (trace w)
        /\ waits (trace (emit (Cerr msg) w)) = waits (trace w)
        /\ rcvtimeo (emit (Cerr msg) w) = rcvtimeo w).
Proof.
  split; [ | split].
  - intros H. unfold connect_to_remote, accept_connection.
    destruct (state (sock w)); try contradiction; split; reflexivity.
  - intros H. unfold send_data, receive_data.
    destruct (state (sock w)); try contradiction; split; reflexivity.
  - intros msg. repeat split.
Qed.

Lemma wrong_state_refused_witness :
  let w := with_sock (set_state ESTABLISHED) new_world in
  let w' := with_sock (set_state FIN) new_world in
  accept_connection [(1, RecvDgram (control_datagram RDT_SYN))] w
  = Exited (emit (Cerr "Cannot call accept on used socket") w)
  /\ send_data [104] 1 [(1, RecvDgram (control_datagram RDT_ACK))] w'
     = Ret tt [(1, RecvDgram (control_datagram RDT_ACK))]
         (emit (Cerr "INFO: Cannot send: Connection not established.") w').
Proof.
  intros w w'. split.
  - destruct (wrong_state_refused
                [(1, RecvDgram (control_datagram RDT_SYN))] w [] 0 [])
      as (H & _). apply H. discriminate.
  - destruct (wrong_state_refused
                [(1, RecvDgram (control_datagram RDT_ACK))] w' [104] 1 [])
      as (_ & H & _). apply H. discriminate.
Defined.

(** ** The final wait of send_close *)

Lemma send_close_wait_expiry seg dt inbox w :
  send_close_wait seg ((dt, RecvTimeout) :: inbox) w
  = Ret tt inbox
      (set_errno EAGAIN
         (after_recv dt (set_timeout_length WAIT_TIME
                           (send seg sizeof_RDTHeader w)))).
Proof. reflexivity. Qed.

Lemma send_close_wait_error seg dt inbox w :
  send_close_wait seg ((dt, RecvError) :: inbox) w
  = Exited (emit (Perror "send_close recv error")
      (set_errno EOTHER
         (after_recv dt (set_timeout_length WAIT_TIME
                           (send seg sizeof_RDTHeader w))))).
Proof. reflexivity. Qed.

(** Any datagram with at least one byte, CLOSE or not, makes the loop
    send the ACK again and wait again. *)
Lemma send_close_wait_dgram seg dt d inbox w :
  d <> [] ->
  send_close_wait seg ((dt, RecvDgram d) :: inbox) w
  = send_close_wait seg inbox
      (after_recv dt (set_timeout_length WAIT_TIME
                        (send seg sizeof_RDTHeader w))).
Proof.
  intros Hd. cbn [send_close_wait recv fst snd].
  destruct (Z.ltb_spec 0 (Z.of_nat (length (firstn (Z.to_nat MAX_SEG_SIZE) d)))) as [H|H].
  - destruct (_ =? _); reflexivity.
  - destruct d as [|x d]; [contradiction | ].
    rewrite length_firstn in H. cbn [length] in H.
    change (Z.to_nat MAX_SEG_SIZE) with 1400%nat in H. lia.
Qed.

(** An empty datagram makes [recv] return 0, which the loop takes for
    a failure: it consults [errno], which that call has not set. *)
Lemma send_close_wait_empty seg dt inbox w :
  send_close_wait seg ((dt, RecvDgram []) :: inbox) w
  = let w' := after_recv dt (set_timeout_length WAIT_TIME
                               (send seg sizeof_RDTHeader w)) in
    if errno_eqb (errno w) EAGAIN then Ret tt inbox w'
    else Exited (emit (Perror "send_close recv error") w').
Proof. reflexivity. Qed.

(** While datagrams keep arriving the ACK is sent again, every wait is
    entered under [WAIT_TIME], and the first expiry ends the loop. *)
Lemma send_close_wait_silence seg ds :
  Forall (fun p => snd p <> []) ds ->
  forall dt rest w, exists w',
    send_close_wait seg (arrivals ds ++ (dt, RecvTimeout) :: rest) w
    = Ret tt rest w'
    /\ sock w' = sock w
    /\ sent (trace w')
       = sent (trace w)
         ++ repeat (firstn (Z.to_nat sizeof_RDTHeader) seg) (S (length ds))
    /\ waits (trace w')
       = waits (trace w) ++ repeat WAIT_TIME (S (length ds)).
Proof.
  induction ds as [|[dt0 d] ds IH]; intros Hds dt rest w.
  - cbn [arrivals map app]. rewrite send_close_wait_expiry.
    eexists. repeat split.
  - inversion Hds as [|? ? Hd Hds']; subst. cbn [snd] in Hd.
    rewrite arrivals_cons. cbn [app].
    rewrite send_close_wait_dgram by exact Hd.
    destruct (IH Hds' dt rest
                (after_recv dt0 (set_timeout_length WAIT_TIME
                                   (send seg sizeof_RDTHeader w))))
      as (w' & E & Hs & Ht & Hw).
    exists w'. split; [exact E | split; [exact Hs | split]].
    + rewrite Ht. cbn [after_recv advance emit set_timeout_length send trace
                       sent length].
      rewrite <- app_assoc. reflexivity.
    + rewrite Hw. cbn [after_recv advance emit set_timeout_length send trace
                       waits rcvtimeo length].
      rewrite <- app_assoc. reflexivity.
Qed.

(** C7 at a failing input.  An established connection closes; the
    peer's ACK arrives, the peer's CLOSE arrives after one expiry of the
    intermediate wait, and then, 10 ms into the final wait, an empty
    datagram arrives.  [recv] returns 0, [errno] still holds the EAGAIN
    of the earlier expiry, and the connection is CLOSED although the one
    final wait, entered under 4000 ms, never expired. *)
Theorem close_connection_ends_wait_on_empty_datagram :
  let w := with_sock (set_state ESTABLISHED) new_world in
  exists w',
    close_connection
      [ (20, RecvDgram (control_datagram RDT_ACK));
        (185, RecvTimeout);
        (30, RecvDgram (control_datagram RDT_CLOSE));
        (10, RecvDgram []) ] w
    = Ret tt [] w'
    /\ state (sock w') = CLOSED
    /\ waits (trace w') = [140; 185; 185; WAIT_TIME]
    /\ clock w' = 20 + 185 + 30 + 10.
Proof.
  eexists. split; [vm_compute; reflexivity | repeat split].
Qed.

(** ** The sequence counter *)

(** A returning pass of the receive loop ended in one of two ways: the
    peer's CLOSE (state FIN, 0 returned, buffer and counter as they
    were) or an accepted segment (counter moved by one). *)
Lemma receive_data_loop_ret buffer :
  forall inbox w n b rest w',
    receive_data_loop buffer inbox w = Ret (n, b) rest w' ->
    (length rest < length inbox)%nat
    /\ ((sock w' = set_state FIN (sock w) /\ n = 0 /\ b = buffer)
        \/ sock w' = bump (sock w)).
Proof.
  induction inbox as [|[dt [ | |d]] inbox IH]; intros w n b rest w' H.
  - discriminate H.
  - discriminate H.
  - discriminate H.
  - rewrite receive_data_loop_dgram in H. cbn zeta in H.
    destruct (hdr_type d =? RDT_ACK).
    { destruct (IH _ _ _ _ _ H) as [A B]. split; [cbn; lia | exact B]. }
    destruct (hdr_type d =? RDT_CLOSE).
    { destruct (send_timeout close_ack inbox (logged d (after_recv dt w)))
        as [[] i1 w1| | | ] eqn:E; cbn [bind] in H; try discriminate H.
      injection H as <- <- <- <-.
      destruct (send_timeout_ret _ _ _ _ _ E) as [A B].
      split; [cbn; lia | left]. cbn [with_sock sock]. rewrite A.
      repeat split. }
    destruct (hdr_sequence_number d =? sequence_number (sock w)).
    { unfold deliver in H. destruct (memcpy _ _ _ _ _); [ | discriminate H].
      injection H as <- <- <- <-. split; [cbn; lia | right; reflexivity]. }
    destruct (IH _ _ _ _ _ H) as [A B]. split; [cbn; lia | exact B].
Qed.

Lemma last_sent_repeat t0 t dg k :
  sent t = sent t0 ++ repeat dg (S k) -> last_sent t = dg.
Proof.
  unfold last_sent. intros ->.
  replace (S k) with (k + 1)%nat by lia.
  rewrite repeat_app, app_assoc. cbn [repeat]. apply last_last.
Qed.

Lemma to_uint32_succ c : to_uint32 (to_uint32 c + 1) = to_uint32 (c + 1).
Proof. unfold to_uint32. rewrite Z.add_mod_idemp_l by lia. reflexivity. Qed.

(** Every acknowledged send of a session carried the counter the
    session started with plus the number of acknowledged sends and
    accepted segments before it, modulo [2^32]. *)
Lemma run_calls_sequence calls :
  forall inbox w ps rest w',
    run_calls calls inbox w = Ret ps rest w' ->
    forall l1 s l2,
      ps = l1 ++ Acked s :: l2 ->
      s = to_uint32 (sequence_number (sock w) + increments l1).
Proof.
  induction calls as [|[data len|buffer] calls IH];
    intros inbox w ps rest w' H l1 s l2 Hps.
  - injection H as <- _ _. destruct l1; discriminate Hps.
  - cbn [run_calls] in H.
    destruct (send_data data len inbox w) as [[] i1 w1| | | ] eqn:E;
      cbn [bind] in H; try discriminate H.
    destruct (run_calls calls i1 w1) as [ps1 i2 w2| | | ] eqn:E1;
      cbn [bind] in H; try discriminate H.
    injection H as <- _ _.
    destruct (state (sock w)) eqn:Hst; cbn [connection_status_eqb] in Hps;
      try (unfold send_data in E; rewrite Hst in E;
           cbn [negb connection_status_eqb] in E; injection E as <- <-;
           destruct l1 as [|p l1]; [discriminate Hps | ];
           injection Hps as <- Hps;
           exact (IH _ _ _ _ _ E1 _ _ _ Hps)).
    destruct (send_data_ret _ _ _ _ _ _ Hst E)
      as (H1 & H2 & Hseq & _ & _ & k & Hk).
    destruct l1 as [|p l1]; injection Hps as Hp Hps.
    + subst s. rewrite (last_sent_repeat _ _ _ _ Hk).
      unfold data_datagram. destruct (data_header_fields
        (sequence_number (sock w)) (firstn (Z.to_nat len) data)) as (_ & A & _).
      rewrite A. cbn [increments]. f_equal; lia.
    + subst p. rewrite (IH _ _ _ _ _ E1 _ _ _ Hps), Hseq.
      cbn [increments]. rewrite Z.add_assoc.
      unfold to_uint32. rewrite Z.add_mod_idemp_l by lia.
      f_equal; lia.
  - cbn [run_calls] in H.
    destruct (receive_data buffer inbox w) as [[n b] i1 w1| | | ] eqn:E;
      cbn [bind] in H; try discriminate H.
    destruct (run_calls calls i1 w1) as [ps1 i2 w2| | | ] eqn:E1;
      cbn [bind] in H; try discriminate H.
    injection H as <- _ _.
    destruct l1 as [|p l1];
      [destruct (connection_status_eqb _ _);
       [destruct (connection_status_eqb _ _) | ]; discriminate Hps | ].
    injection Hps as Hp Hps.
    specialize (IH _ _ _ _ _ E1 _ _ _ Hps).
    destruct (state (sock w)) eqn:Hst; cbn [connection_status_eqb] in Hp;
      try (unfold receive_data in E; rewrite Hst in E;
           cbn [negb connection_status_eqb] in E; injection E as _ _ _ <-;
           subst p; exact IH).
    rewrite receive_data_established in E by exact Hst.
    destruct (receive_data_loop_ret _ _ _ _ _ _ _ E) as (_ & [(A & _) | A]).
    + rewrite A in Hp, IH. cbn [set_state state sequence_number
                                connection_status_eqb] in Hp, IH.
      subst p. exact IH.
    + rewrite A in Hp, IH.
      cbn [bump set_sequence_number state sequence_number sock
           set_timeout_length emit] in Hp, IH.
      rewrite Hst in Hp. cbn [connection_status_eqb] in Hp. subst p.
      rewrite IH. cbn [increments]. rewrite Z.add_assoc.
      unfold to_uint32. rewrite Z.add_mod_idemp_l by lia. f_equal; lia.
Qed.

Lemma acked_nth ps :
  forall n s,
    nth_error (acked ps) n = Some s ->
    exists l1 l2, ps = l1 ++ Acked s :: l2 /\ length (acked l1) = n.
Proof.
  induction ps as [|p ps IH]; intros n s H.
  - destruct n; discriminate H.
  - destruct p as [s0|m ty| | ]; cbn [acked] in H;
      try (destruct (IH _ _ H) as (l1 & l2 & -> & Hl);
           eexists (_ :: l1), l2; split; [reflexivity | exact Hl]).
    destruct n as [|n]; cbn [nth_error] in H.
    + injection H as ->. exists [], ps. split; reflexivity.
    + destruct (IH _ _ H) as (l1 & l2 & -> & Hl).
      exists (Acked s0 :: l1), l2. split; [reflexivity | ].
      cbn [acked length]. f_equal. exact Hl.
Qed.

(** A session of sends only accepts nothing. *)
Lemma run_calls_sends_only calls :
  Forall is_send calls ->
  forall inbox w ps rest w',
    run_calls calls inbox w = Ret ps rest w' ->
    forall l1 l2, ps = l1 ++ l2 -> increments l1 = Z.of_nat (length (acked l1)).
Proof.
  induction calls as [|[data len|buffer] calls IH];
    intros Hc inbox w ps rest w' H l1 l2 Hps.
  - injection H as <- _ _. destruct l1; [reflexivity | discriminate Hps].
  - pose proof (Forall_inv_tail Hc) as Hc'. cbn [run_calls] in H.
    destruct (send_data data len inbox w) as [[] i1 w1| | | ];
      cbn [bind] in H; try discriminate H.
    destruct (run_calls calls i1 w1) as [ps1 i2 w2| | | ] eqn:E1;
      cbn [bind] in H; try discriminate H.
    injection H as <- _ _.
    destruct l1 as [|p l1]; [reflexivity | ].
    injection Hps as Hp Hps. subst p.
    specialize (IH Hc' _ _ _ _ _ E1 _ _ Hps).
    destruct (connection_status_eqb _ _); cbn [increments acked length];
      rewrite IH; lia.
  - destruct (Forall_inv Hc).
Qed.

(** A pass of the receive loop that returns without the peer's CLOSE
    has read, after datagrams it discarded, one whose sequence number
    is the counter and whose type is neither ACK nor CLOSE; that
    datagram's type is the last one logged. *)
Lemma receive_data_loop_accepts buffer :
  forall inbox w n b rest w',
    receive_data_loop buffer inbox w = Ret (n, b) rest w' ->
    state (sock w') <> FIN ->
    exists js dt d,
      inbox = arrivals js ++ (dt, RecvDgram d) :: rest
      /\ Forall (fun p => discarded (sequence_number (sock w)) (snd p)) js
      /\ hdr_type d <> RDT_ACK /\ hdr_type d <> RDT_CLOSE
      /\ hdr_sequence_number d = sequence_number (sock w)
      /\ last_logged_type (trace w') = hdr_type d
      /\ sock w' = bump (sock w).
Proof.
  induction inbox as [|[dt [ | |d]] inbox IH]; intros w n b rest w' H Hf.
  - discriminate H.
  - discriminate H.
  - discriminate H.
  - rewrite receive_data_loop_dgram in H. cbn zeta in H.
    destruct (Z.eqb_spec (hdr_type d) RDT_ACK) as [Ta | Ta].
    { destruct (IH _ _ _ _ _ H Hf) as (js & dt' & d' & E & Hjs & R).
      exists ((dt, d) :: js), dt', d'. rewrite arrivals_cons. cbn [app].
      split; [rewrite E; reflexivity | ].
      split; [ | exact R].
      constructor; [left; exact Ta | exact Hjs]. }
    destruct (Z.eqb_spec (hdr_type d) RDT_CLOSE) as [Tc | Tc].
    { destruct (send_timeout close_ack inbox (logged d (after_recv dt w)))
        as [[] i1 w1| | | ] eqn:E; cbn [bind] in H; try discriminate H.
      injection H as <- <- <- <-. exfalso. apply Hf. reflexivity. }
    destruct (Z.eqb_spec (hdr_sequence_number d) (sequence_number (sock w)))
      as [Sq | Sq].
    { unfold deliver in H. destruct (memcpy _ _ _ _ _); [ | discriminate H].
      injection H as <- <- <- <-.
      exists [], dt, d. repeat split; try assumption. constructor. }
    destruct (IH _ _ _ _ _ H Hf) as (js & dt' & d' & E & Hjs & R).
    exists ((dt, d) :: js), dt', d'. rewrite arrivals_cons. cbn [app].
    split; [rewrite E; reflexivity | ].
    split; [ | exact R].
    constructor; [right; repeat split; assumption | exact Hjs].
Qed.

(** While every segment accepted was a DATA segment, the counter moved
    once per acknowledged send and once per DATA segment accepted. *)
Lemma increments_data_only ps :
  Forall data_only ps ->
  increments ps = Z.of_nat (length (acked ps)) + data_accepted ps.
Proof.
  induction ps as [|p ps IH]; intros H.
  - reflexivity.
  - pose proof (Forall_inv H) as Hp. specialize (IH (Forall_inv_tail H)).
    destruct p as [s|n ty| | ]; cbn [increments acked data_accepted length].
    + rewrite IH. lia.
    + cbn [data_only] in Hp. rewrite Hp, IH. change (RDT_DATA =? RDT_DATA) with true.
      lia.
    + exact IH.
    + exact IH.
Qed.

(** C4 (as amended): the counter is 0 in a new object.  A [send_data]
    that returns on an established connection sent its segment with the
    counter and left the counter one higher.  A [receive_data] that
    returns on an established connection either saw the peer's CLOSE
    (state FIN, counter as it was) or accepted a segment carrying the
    counter, the last one read and logged, and when that segment is a
    DATA segment the counter is one higher.  All of it modulo [2^32].
    The one counter serves both directions: as long as the segments
    accepted before were DATA segments, an acknowledged send carries
    the counter the session began with plus the number of sends
    acknowledged and of DATA segments accepted before it; on a
    connection that starts at 0 and only sends, the Nth acknowledged
    send carries [N-1] modulo [2^32]. *)
Theorem sequence_number_counts :
  sequence_number new_socket = 0
  /\ (forall data len inbox w rest w',
        state (sock w) = ESTABLISHED ->
        send_data data len inbox w = Ret tt rest w' ->
        hdr_sequence_number (last_sent (trace w'))
          = to_uint32 (sequence_number (sock w))
        /\ sequence_number (sock w') = to_uint32 (sequence_number (sock w) + 1))
  /\ (forall buffer inbox w r rest w',
        state (sock w) = ESTABLISHED ->
        receive_data buffer inbox w = Ret r rest w' ->
        (state (sock w') = FIN
         /\ sequence_number (sock w') = sequence_number (sock w))
        \/ (state (sock w') = ESTABLISHED
            /\ exists js dt d,
                 inbox = arrivals js ++ (dt, RecvDgram d) :: rest
                 /\ hdr_sequence_number d = sequence_number (sock w)
                 /\ last_logged_type (trace w') = hdr_type d
                 /\ (hdr_type d = RDT_DATA ->
                     sequence_number (sock w')
                     = to_uint32 (sequence_number (sock w) + 1))))
  /\ (forall calls inbox w ps rest w',
        run_calls calls inbox w = Ret ps rest w' ->
        forall l1 s l2,
          ps = l1 ++ Acked s :: l2 ->
          Forall data_only l1 ->
          s = to_uint32 (sequence_number (sock w)
                         + Z.of_nat (length (acked l1)) + data_accepted l1))
  /\ (forall calls inbox w ps rest w',
        Forall is_send calls ->
        sequence_number (sock w) = 0 ->
        run_calls calls inbox w = Ret ps rest w' ->
        forall N s,
          (1 <= N)%nat ->
          nth_error (acked ps) (N - 1) = Some s ->
          s = to_uint32 (Z.of_nat N - 1)).
Proof.
  split; [reflexivity | split; [ | split; [ | split]]].
  - intros data len inbox w rest w' Hst E.
    destruct (send_data_ret _ _ _ _ _ _ Hst E)
      as (_ & _ & Hseq & _ & _ & k & Hk).
    split; [ | exact Hseq].
    rewrite (last_sent_repeat _ _ _ _ Hk). unfold data_datagram.
    apply data_header_fields.
  - intros buffer inbox w [n b] rest w' Hst E.
    rewrite receive_data_established in E by exact Hst.
    destruct (receive_data_loop_ret _ _ _ _ _ _ _ E) as (_ & [(A & _) | A]).
    + left. rewrite A. split; reflexivity.
    + right.
      assert (Hst' : state (sock w') = ESTABLISHED).
      { rewrite A.
        cbn [bump set_timeout_length emit sock state set_sequence_number].
        exact Hst. }
      split; [exact Hst' | ].
      destruct (receive_data_loop_accepts _ _ _ _ _ _ _ E)
        as (js & dt & d & Ei & _ & _ & _ & Sq & Ty & _).
      { rewrite Hst'. discriminate. }
      exists js, dt, d. split; [exact Ei | ].
      split; [exact Sq | ].
      split; [exact Ty | ].
      intros _. rewrite A. reflexivity.
  - intros calls inbox w ps rest w' E l1 s l2 Hps Hd.
    rewrite (run_calls_sequence _ _ _ _ _ _ E _ _ _ Hps).
    rewrite (increments_data_only _ Hd). f_equal. lia.
  - intros calls inbox w ps rest w' Hc H0 E N s HN Hn.
    destruct (acked_nth _ _ _ Hn) as (l1 & l2 & Hps & Hl).
    rewrite (run_calls_sequence _ _ _ _ _ _ E _ _ _ Hps), H0.
    rewrite (run_calls_sends_only _ Hc _ _ _ _ _ E _ _ Hps), Hl.
    f_equal. lia.
Qed.

Lemma sequence_number_counts_witness :
  let w := with_sock (set_state ESTABLISHED) new_world in
  let calls := [CallReceive (zeros MAX_DATA_SIZE); CallSend [104; 105] 2] in
  let inbox := [ (5, RecvDgram (data_datagram 0 [7] 1));
                 (20, RecvDgram (ack_of (data_header 1))) ] in
  (exists w',
      send_data [104; 105] 2 [(20, RecvDgram (control_datagram RDT_ACK))] w
      = Ret tt [] w'
      /\ hdr_sequence_number (last_sent (trace w')) = 0
      /\ sequence_number (sock w') = 1)
  /\ (exists w',
      run_calls calls inbox w = Ret [Accepted 1 RDT_DATA; Acked 1] [] w'
      /\ 1 = to_uint32 (sequence_number (sock w)
                        + Z.of_nat (length (acked [Accepted 1 RDT_DATA]))
                        + data_accepted [Accepted 1 RDT_DATA])).
Proof.
  intros w calls inbox.
  destruct sequence_number_counts as (_ & H & _ & H' & _).
  split.
  - eexists. split; [vm_compute; reflexivity | ].
    apply (H [104; 105] 2 [(20, RecvDgram (control_datagram RDT_ACK))] w []).
    + reflexivity.
    + vm_compute. reflexivity.
  - assert (X : exists w', run_calls calls inbox w
                           = Ret [Accepted 1 RDT_DATA; Acked 1] [] w').
    { eexists. vm_compute. reflexivity. }
    destruct X as (w' & E). exists w'. split; [exact E | ].
    apply (H' calls inbox w _ [] w' E [Accepted 1 RDT_DATA] 1 [] eq_refl).
    repeat constructor.
Defined.

(** C4 (as stated) fails once the connection has received: after a
    handshake, an accepted DATA segment moves the counter to 1, so the
    first acknowledged send carries 1, not 0. *)
Lemma first_send_after_receive_carries_1 :
  exists w1 w2,
    connect_to_remote
      [(20, RecvDgram (control_datagram RDT_SYNACK)); (185, RecvTimeout)]
      new_world
    = Ret tt [] w1
    /\ run_calls
         [CallReceive (zeros MAX_DATA_SIZE); CallSend [104; 105] 2]
         [ (5, RecvDgram (data_datagram 0 [7] 1));
           (20, RecvDgram (ack_of (data_header 1))) ] w1
       = Ret [Accepted 1 RDT_DATA; Acked 1] [] w2
    /\ nth_error (acked [Accepted 1 RDT_DATA; Acked 1]) (1 - 1) = Some 1
    /\ 1 <> 1 - 1.
Proof.
  eexists. eexists.
  split; [vm_compute; reflexivity | ].
  split; [vm_compute; reflexivity | ].
  split; [reflexivity | discriminate].
Qed.

(** ** Recoverable errors and the connection's fields *)

Lemma sock_set_estimated_rtt w :
  sock (set_estimated_rtt w) = sampled (current_rtt (sock w)) (sock w).
Proof. rewrite set_estimated_rtt_eq. reflexivity. Qed.

(** The reliable send reads the world only through the connection's
    fields: the deadline in force, the clock, [errno] and the backoff
    state do not change what it returns or what it leaves in them. *)
Lemma send_seg_reliable_loop_sim seg size :
  forall inbox lt1 c1 lt2 c2 w1 w2,
    sock w1 = sock w2 ->
    same_result eq (send_seg_reliable_loop seg size lt1 c1 inbox w1)
                   (send_seg_reliable_loop seg size lt2 c2 inbox w2).
Proof.
  induction inbox as [|[dt [ | |d]] inbox IH]; intros lt1 c1 lt2 c2 w1 w2 H.
  - exact H.
  - rewrite !send_seg_reliable_loop_expiry. apply IH.
    rewrite !sock_after_expiry. exact H.
  - rewrite !send_seg_reliable_loop_error. exact H.
  - rewrite !send_seg_reliable_loop_reply.
    split; [reflexivity | split; [reflexivity | ]].
    rewrite !sock_set_estimated_rtt.
    cbn [with_sock sock advance emit send set_current_rtt current_rtt].
    rewrite H. reflexivity.
Qed.

Lemma send_seg_reliable_sim seg size inbox w1 w2 :
  sock w1 = sock w2 ->
  same_result eq (send_seg_reliable seg size inbox w1)
                 (send_seg_reliable seg size inbox w2).
Proof.
  intros H. unfold send_seg_reliable. apply send_seg_reliable_loop_sim.
  exact H.
Qed.

(** Deadline expiries before whatever comes next leave no mark on the
    connection. *)
Lemma send_seg_reliable_expiries_transparent seg size dts inbox w :
  same_result eq (send_seg_reliable seg size (timeouts dts ++ inbox) w)
                 (send_seg_reliable seg size inbox w).
Proof.
  unfold send_seg_reliable. rewrite send_seg_reliable_loop_expiries.
  pose proof (sent_after_expiries seg size dts false 0
                (set_timeout_length (rtt_timeout (sock w)) w)) as Hs.
  destruct (after_expiries seg size false 0 dts
              (set_timeout_length (rtt_timeout (sock w)) w))
    as [[lt' c'] wk].
  destruct Hs as [Hs _]. apply send_seg_reliable_loop_sim. exact Hs.
Qed.

Lemma send_timeout_sim seg :
  forall inbox w1 w2,
    sock w1 = sock w2 ->
    same_result eq (send_timeout seg inbox w1) (send_timeout seg inbox w2).
Proof.
  induction inbox as [|[dt [ | |d]] inbox IH]; intros w1 w2 H.
  - exact H.
  - rewrite !send_timeout_expiry. repeat split. exact H.
  - exact H.
  - rewrite !send_timeout_dgram. apply IH. exact H.
Qed.

Lemma receive_data_loop_sim buffer :
  forall inbox w1 w2,
    sock w1 = sock w2 ->
    same_result eq (receive_data_loop buffer inbox w1)
                   (receive_data_loop buffer inbox w2).
Proof.
  induction inbox as [|[dt [ | |d]] inbox IH]; intros w1 w2 H.
  - exact H.
  - exact H.
  - exact H.
  - rewrite !receive_data_loop_dgram. cbn zeta.
    destruct (hdr_type d =? RDT_ACK); [apply IH; exact H | ].
    destruct (hdr_type d =? RDT_CLOSE).
    { pose proof (send_timeout_sim close_ack inbox
                    (logged d (after_recv dt w1)) (logged d (after_recv dt w2)) H)
        as S.
      destruct (send_timeout close_ack inbox (logged d (after_recv dt w1)))
        as [[] i1 v1| | | ];
      destruct (send_timeout close_ack inbox (logged d (after_recv dt w2)))
        as [[] i2 v2| | | ]; cbn [same_result bind] in *; try contradiction;
        try exact S.
      destruct S as (_ & -> & S). cbn [with_sock sock]. rewrite S. auto. }
    rewrite H.
    destruct (hdr_sequence_number d =? sequence_number (sock w2)).
    + unfold deliver. destruct (memcpy _ _ _ _ _); cbn [same_result];
        cbn [with_sock sock send logged after_recv advance emit]; rewrite H; auto.
    + apply IH. exact H.
Qed.

(** What [receive_data] discards it forgets: stray ACKs and segments
    with another sequence number before any inbox change nothing. *)
Lemma receive_data_loop_discards buffer js :
  forall inbox w,
    Forall (fun p => discarded (sequence_number (sock w)) (snd p)) js ->
    exists w',
      receive_data_loop buffer (arrivals js ++ inbox) w
      = receive_data_loop buffer inbox w'
      /\ sock w' = sock w.
Proof.
  induction js as [|[dt d] js IH]; intros inbox w Hjs.
  - exists w. split; reflexivity.
  - pose proof (Forall_inv Hjs) as Hd. pose proof (Forall_inv_tail Hjs) as Hjs'.
    cbn [snd] in Hd. rewrite arrivals_cons. cbn [app].
    rewrite receive_data_loop_dgram. cbn zeta.
    destruct Hd as [Hd | (H1 & H2 & H3)].
    + rewrite Hd. change (RDT_ACK =? RDT_ACK) with true. cbn iota.
      destruct (IH inbox (logged d (after_recv dt w)) Hjs') as (w' & E & Hs).
      exists w'. split; [exact E | exact Hs].
    + destruct (Z.eqb_spec (hdr_type d) RDT_ACK); [contradiction | ].
      destruct (Z.eqb_spec (hdr_type d) RDT_CLOSE); [contradiction | ].
      destruct (Z.eqb_spec (hdr_sequence_number d) (sequence_number (sock w)));
        [contradiction | ].
      destruct (IH inbox (send (ack_of d) sizeof_RDTHeader
                            (logged d (after_recv dt w))) Hjs')
        as (w' & E & Hs).
      exists w'. split; [exact E | exact Hs].
Qed.

Lemma synack_round_of seg :
  round_of (firstn (Z.to_nat sizeof_RDTHeader) seg) (synack_round seg).
Proof.
  intros inbox w r rest w' H.
  exact (send_seg_reliable_round seg sizeof_RDTHeader inbox
           (set_timeout_length (rtt_timeout (sock w)) w) r rest w' H).
Qed.

(** Handshake and teardown, whenever they return and whatever expiries
    and unusable replies they met on the way: the state is the one the
    operation is for, and the sequence numbers are untouched. *)
Lemma accept_connection_ret inbox w rest w' :
  state (sock w) = INIT ->
  accept_connection inbox w = Ret tt rest w' ->
  state (sock w') = ESTABLISHED
  /\ sequence_number (sock w') = sequence_number (sock w)
  /\ expected_sequence_number (sock w') = expected_sequence_number (sock w).
Proof.
  intros Hst H. unfold accept_connection in H. rewrite Hst in H.
  cbn [negb connection_status_eqb] in H.
  destruct inbox as [|[dt [ | |d]] inbox]; try discriminate H.
  cbn [recv fst snd] in H.
  destruct (Z.ltb_spec (Z.of_nat (length (firstn (Z.to_nat MAX_SEG_SIZE) d))) 0);
    [lia | ].
  destruct (negb _); [discriminate H | ].
  fold (synack_round (control_segment MAX_SEG_SIZE RDT_SYNACK)) in H.
  match type of H with bind ?u _ = _ => destruct u as [r i1 w1| | | ] eqn:E end;
    cbn [bind] in H; try discriminate H.
  injection H as _ <-.
  apply (until_reply_ret _ _ _ (synack_round_of _)) in E.
  destruct E as ((A & B & C) & _).
  cbn [with_sock emit sock set_state state sequence_number
       expected_sequence_number advance] in *.
  repeat split; congruence.
Qed.

Lemma connect_to_remote_ret inbox w rest w' :
  state (sock w) = INIT ->
  connect_to_remote inbox w = Ret tt rest w' ->
  exists dt, sock w' = set_state ESTABLISHED (sampled dt (sock w)).
Proof.
  intros Hst H. unfold connect_to_remote in H. rewrite Hst in H.
  cbn [negb connection_status_eqb] in H.
  match type of H with bind ?u _ = _ => destruct u as [r i1 w1| | | ] eqn:E end;
    cbn [bind] in H; try discriminate H.
  match type of H with bind ?u _ = _ => destruct u as [[] i2 w2| | | ] eqn:E2 end;
    cbn [bind] in H; try discriminate H.
  injection H as _ <-.
  destruct (send_seg_reliable_ret _ _ _ _ _ _ _ E)
    as (dts & dt & d & _ & _ & Hs & _).
  destruct (send_timeout_ret _ _ _ _ _ E2) as [Hs2 _].
  exists dt. cbn [with_sock emit sock]. rewrite Hs2.
  destruct (negb _); cbn [emit sock]; rewrite Hs; reflexivity.
Qed.

Lemma send_close_await_ret :
  forall inbox w rest w',
    send_close_await inbox w = Ret tt rest w' -> sock w' = sock w.
Proof.
  induction inbox as [|[dt [ | |d]] inbox IH]; intros w rest w' H.
  - discriminate H.
  - exact (IH _ _ _ H).
  - discriminate H.
  - cbn [send_close_await recv fst snd] in H.
    destruct (Z.ltb_spec (Z.of_nat (length (firstn (Z.to_nat MAX_SEG_SIZE) d))) 0);
      [lia | ].
    cbn [andb] in H. destruct (_ =? _).
    + injection H as _ <-. reflexivity.
    + exact (IH _ _ _ H).
Qed.

Lemma send_close_wait_ret seg :
  forall inbox w rest w',
    send_close_wait seg inbox w = Ret tt rest w' -> sock w' = sock w.
Proof.
  induction inbox as [|[dt [ | |d]] inbox IH]; intros w rest w' H.
  - discriminate H.
  - rewrite send_close_wait_expiry in H. injection H as _ <-. reflexivity.
  - discriminate H.
  - destruct d as [|x d].
    + rewrite send_close_wait_empty in H. cbn zeta in H.
      destruct (errno_eqb _ _); [ | discriminate H].
      injection H as _ <-. reflexivity.
    + rewrite send_close_wait_dgram in H by discriminate.
      exact (IH _ _ _ H).
Qed.

Lemma close_connection_ret inbox w rest w' :
  close_connection inbox w = Ret tt rest w' ->
  state (sock w') = CLOSED
  /\ sequence_number (sock w') = sequence_number (sock w)
  /\ expected_sequence_number (sock w') = expected_sequence_number (sock w).
Proof.
  intros H. unfold close_connection in H.
  match type of H with bind ?u _ = _ => destruct u as [[] i1 w1| | | ] eqn:E end;
    cbn [bind] in H; try discriminate H.
  injection H as _ <-.
  cbn [with_sock emit sock set_state state sequence_number
       expected_sequence_number].
  assert (I : same_ids (sock w) (sock w1)).
  { destruct (negb _).
    - unfold send_close in E.
      match type of E with bind ?u _ = _ =>
        destruct u as [r i2 w2| | | ] eqn:E2 end;
        cbn [bind] in E; try discriminate E.
      match type of E with bind ?u _ = _ =>
        destruct u as [[] i3 w3| | | ] eqn:E3 end;
        cbn [bind] in E; try discriminate E.
      apply (until_reply_ret _ _ _ (send_seg_reliable_round _ _)) in E2.
      destruct E2 as (I & _).
      rewrite (send_close_wait_ret _ _ _ _ _ E),
        (send_close_await_ret _ _ _ _ E3).
      exact I.
    - unfold recv_close in E.
      match type of E with bind ?u _ = _ =>
        destruct u as [r i2 w2| | | ] eqn:E2 end;
        cbn [bind] in E; try discriminate E.
      injection E as _ <-.
      apply (until_reply_ret _ _ _ (send_seg_reliable_round _ _)) in E2.
      destruct E2 as (I & _). exact I. }
  destruct I as (A & B & C). repeat split; congruence.
Qed.

Lemma same_ids_bump s1 s2 : same_ids s1 s2 -> same_ids (bump s1) (bump s2).
Proof.
  intros (A & B & C). unfold bump, set_sequence_number, same_ids.
  cbn [sequence_number expected_sequence_number state]. rewrite A. auto.
Qed.

Lemma same_ids_sampled_both r s1 s2 :
  same_ids s1 s2 -> same_ids (sampled r s1) (sampled r s2).
Proof. intros H. exact H. Qed.

(** C9 (as amended): recovering from these protocol-recoverable errors
    never changes [state] or [sequence_number]: deadline expiries inside
    a reliable send; replies to [send_data] that do not acknowledge it
    (another type, or another ack number); in [receive_data], stray ACKs
    and segments whose sequence number is not the counter; and whatever
    handshake and teardown pass over before they return.  Deadline
    expiries and the datagrams [receive_data] discards change no field
    at all; but every reply the reliable send receives is sampled by
    the estimator, also one the caller then discards for its type or
    its ack number, so after such replies the RTT statistics are those
    of all the samples and not those of the uninterrupted exchange.  A
    datagram that reaches [receive_data] with the counter's sequence
    number is not among the errors covered here, whatever its type. *)
Theorem recoverable_errors_keep_state :
  (* deadline expiries inside a reliable send *)
  (forall seg size dts inbox w,
      same_result eq (send_seg_reliable seg size (timeouts dts ++ inbox) w)
                     (send_seg_reliable seg size inbox w))
  (* send_data: expiries, and replies that do not acknowledge *)
  /\ (forall data len xs x rest w,
        state (sock w) = ESTABLISHED ->
        0 <= len <= MAX_DATA_SIZE -> len <= Z.of_nat (length data) ->
        Forall (fun y =>
                  acknowledges (sequence_number (sock w)) (reply y) = false) xs ->
        acknowledges (sequence_number (sock w)) (reply x) = true ->
        exists w1 w2,
          send_data data len
            (flat_map exchange_events xs ++ exchange_events x ++ rest) w
          = Ret tt rest w1
          /\ send_data data len ((delay x, RecvDgram (reply x)) :: rest) w
             = Ret tt rest w2
          /\ same_ids (sock w1) (sock w2)
          /\ sock w2 = bump (sampled (delay x) (sock w))
          /\ sock w1 = bump (sampled (delay x) (sampled_all xs (sock w))))
  (* receive_data: stray ACKs and segments out of order *)
  /\ (forall buffer js inbox w,
        state (sock w) = ESTABLISHED ->
        Forall (fun p => discarded (sequence_number (sock w)) (snd p)) js ->
        same_result eq (receive_data buffer (arrivals js ++ inbox) w)
                       (receive_data buffer inbox w))
  (* handshake and teardown, whatever they met before returning *)
  /\ (forall inbox w rest w',
        state (sock w) = INIT ->
        accept_connection inbox w = Ret tt rest w' ->
        state (sock w') = ESTABLISHED
        /\ sequence_number (sock w') = sequence_number (sock w))
  /\ (forall inbox w rest w',
        state (sock w) = INIT ->
        connect_to_remote inbox w = Ret tt rest w' ->
        state (sock w') = ESTABLISHED
        /\ sequence_number (sock w') = sequence_number (sock w))
  /\ (forall inbox w rest w',
        close_connection inbox w = Ret tt rest w' ->
        state (sock w') = CLOSED
        /\ sequence_number (sock w') = sequence_number (sock w)).
Proof.
  split; [exact send_seg_reliable_expiries_transparent | ].
  split; [ | split; [ | split; [ | split]]].
  - intros data len xs x rest w Hst H1 H2 Hxs Hx.
    destruct (send_data_exchanges data len xs x rest w Hst H1 H2 Hxs Hx)
      as (w1 & E1 & S1 & _).
    destruct (send_data_exchanges data len []
                (mkExchange [] (delay x) (reply x)) rest w Hst H1 H2
                (Forall_nil _) Hx) as (w2 & E2 & S2 & _).
    exists w1, w2. split; [exact E1 | split; [exact E2 | ]].
    cbn [sampled_all fold_left delay reply] in S2.
    split; [ | split; [exact S2 | exact S1]].
    rewrite S1, S2. apply same_ids_bump, same_ids_sampled_both.
    apply same_ids_sym, same_ids_sampled_all.
  - intros buffer js inbox w Hst Hjs.
    rewrite !receive_data_established by exact Hst.
    destruct (receive_data_loop_discards buffer js inbox
                (set_timeout_length 0 w) Hjs) as (w' & E & Hs).
    rewrite E. apply receive_data_loop_sim. exact Hs.
  - intros inbox w rest w' Hst H.
    destruct (accept_connection_ret _ _ _ _ Hst H) as (A & B & _). auto.
  - intros inbox w rest w' Hst H.
    destruct (connect_to_remote_ret _ _ _ _ Hst H) as (dt & ->).
    split; reflexivity.
  - intros inbox w rest w' H.
    destruct (close_connection_ret _ _ _ _ H) as (A & B & _). auto.
Qed.

Lemma recoverable_errors_keep_state_witness :
  let w := with_sock (set_state ESTABLISHED) new_world in
  exists w1 w2,
    send_data [104; 105] 2
      [ (140, RecvTimeout);
        (20, RecvDgram (control_datagram RDT_SYNACK));
        (20, RecvDgram (control_datagram RDT_ACK)) ] w
    = Ret tt [] w1
    /\ send_data [104; 105] 2
         [ (20, RecvDgram (control_datagram RDT_ACK)) ] w
       = Ret tt [] w2
    /\ same_ids (sock w1) (sock w2).
Proof.
  intros w.
  destruct recoverable_errors_keep_state as (_ & H & _).
  destruct (H [104; 105] 2
              [mkExchange [140] 20 (control_datagram RDT_SYNACK)]
              (mkExchange [] 20 (control_datagram RDT_ACK)) [] w)
    as (w1 & w2 & E1 & E2 & I & _).
  - reflexivity.
  - cbn; lia.
  - cbn; lia.
  - repeat constructor.
  - reflexivity.
  - exists w1, w2. split; [exact E1 | split; [exact E2 | exact I]].
Defined.

(** C9 (as stated) fails for the RTT statistics: one stray SYNACK
    before the acknowledgement of a [send_data] is sampled like any
    reply, and the estimate ends at 79 ms instead of 89 ms. *)
Lemma stray_reply_moves_rtt :
  let w := with_sock (set_state ESTABLISHED) new_world in
  exists w1 w2,
    send_data [104; 105] 2
      [ (20, RecvDgram (control_datagram RDT_ACK)) ] w
    = Ret tt [] w1
    /\ send_data [104; 105] 2
         [ (20, RecvDgram (control_datagram RDT_SYNACK));
           (20, RecvDgram (control_datagram RDT_ACK)) ] w
       = Ret tt [] w2
    /\ (estimated_rtt (sock w1), dev_rtt (sock w1)) = (89, 24)
    /\ (estimated_rtt (sock w2), dev_rtt (sock w2)) = (79, 32)
    /\ sock w2 <> sock w1.
Proof.
  eexists. eexists.
  split; [vm_compute; reflexivity | ].
  split; [vm_compute; reflexivity | ].
  split; [reflexivity | split; [reflexivity | ]].
  vm_compute. discriminate.
Qed.

(** * Further properties of the code *)

(** ** The header in a buffer *)

Lemma header_written s a t buf :
  (12 <= length buf)%nat ->
  put_type t (put_ack_number a (put_sequence_number s buf))
  = htonl_bytes s ++ htonl_bytes a ++ [t] ++ skipn 9 buf.
Proof.
  intros H.
  do 12 (destruct buf as [|? buf]; [cbn [length] in H; lia | ]).
  reflexivity.
Qed.

(** X1: writing the three header fields into a buffer that can hold a
    header and reading them back gives the two numbers modulo [2^32]
    and the type tag as written; the buffer keeps its length and every
    byte from offset 9 on (the padding and the payload) is untouched. *)
Theorem header_fields_round_trip s a t buf :
  (12 <= length buf)%nat ->
  let b := put_type t (put_ack_number a (put_sequence_number s buf)) in
  hdr_sequence_number b = to_uint32 s
  /\ hdr_ack_number b = to_uint32 a
  /\ hdr_type b = t
  /\ length b = length buf
  /\ skipn 9 b = skipn 9 buf.
Proof.
  intros H b. unfold b. rewrite header_written by exact H.
  split; [apply ntohl_htonl | ].
  split.
  { unfold hdr_ack_number.
    change (ntohl_at 4 (htonl_bytes s ++ htonl_bytes a ++ [t] ++ skipn 9 buf))
      with (ntohl_at 0 (htonl_bytes a ++ [t] ++ skipn 9 buf)).
    apply ntohl_htonl. }
  split; [reflexivity | ].
  split.
  - rewrite !length_app, length_skipn. cbn [length htonl_bytes]. lia.
  - reflexivity.
Qed.

Lemma header_fields_round_trip_witness :
  hdr_sequence_number
    (put_type RDT_DATA
       (put_ack_number 0 (put_sequence_number 70000 (zeros MAX_SEG_SIZE))))
  = 70000.
Proof.
  destruct (header_fields_round_trip 70000 0 RDT_DATA (zeros MAX_SEG_SIZE))
    as (H & _).
  - rewrite length_zeros. cbn. lia.
  - rewrite H. reflexivity.
Defined.

(** ** A DATA segment from one end to the other *)

Lemma length_data_datagram seq data len :
  0 <= len -> len <= Z.of_nat (length data) ->
  Z.of_nat (length (data_datagram seq data len)) = sizeof_RDTHeader + len.
Proof.
  intros H1 H2. unfold data_datagram, sizeof_RDTHeader.
  rewrite length_app, length_data_header, length_firstn. lia.
Qed.

Lemma payload_data_datagram seq data len :
  0 <= len <= MAX_DATA_SIZE -> len <= Z.of_nat (length data) ->
  payload (data_datagram seq data len) = firstn (Z.to_nat len) data.
Proof.
  intros H1 H2. unfold payload.
  rewrite firstn_all2.
  - unfold data_datagram.
    change (Z.to_nat sizeof_RDTHeader) with (length (data_header seq)).
    rewrite skipn_app, skipn_all, Nat.sub_diag. reflexivity.
  - pose proof (length_data_datagram seq data len ltac:(lia) H2) as L.
    unfold MAX_DATA_SIZE, MAX_SEG_SIZE, sizeof_RDTHeader in *. lia.
Qed.

Lemma data_datagram_fields seq data len :
  hdr_type (data_datagram seq data len) = RDT_DATA
  /\ hdr_sequence_number (data_datagram seq data len) = to_uint32 seq.
Proof.
  unfold data_datagram.
  destruct (data_header_fields seq (firstn (Z.to_nat len) data)) as (A & B & _).
  auto.
Qed.

Lemma to_uint32_small z : 0 <= z < 2 ^ 32 -> to_uint32 z = z.
Proof. intros H. apply Z.mod_small. exact H. Qed.

(** X2: what [send_data] puts on the wire, [receive_data] on a peer
    whose counter agrees hands to its caller unchanged: the peer returns
    [len] and the first [len] bytes of its buffer are the sender's;
    the one ACK the peer sends is the one that lets the sender's
    [send_data] return; and both counters end one higher. *)
Theorem data_round_trip data len buffer dtB restB wB dtA restA wA :
  state (sock wA) = ESTABLISHED ->
  state (sock wB) = ESTABLISHED ->
  0 <= sequence_number (sock wA) < 2 ^ 32 ->
  sequence_number (sock wB) = sequence_number (sock wA) ->
  0 <= len <= MAX_DATA_SIZE ->
  len <= Z.of_nat (length data) ->
  len <= Z.of_nat (length buffer) ->
  let seq := sequence_number (sock wA) in
  let d := data_datagram seq data len in
  exists wB' wA',
    receive_data buffer ((dtB, RecvDgram d) :: restB) wB
    = Ret (len, firstn (Z.to_nat len) data ++ skipn (Z.to_nat len) buffer)
          restB wB'
    /\ sent (trace wB') = sent (trace wB) ++ [ack_of d]
    /\ send_data data len ((dtA, RecvDgram (ack_of d)) :: restA) wA
       = Ret tt restA wA'
    /\ sent (trace wA') = sent (trace wA) ++ [d]
    /\ sequence_number (sock wB') = to_uint32 (seq + 1)
    /\ sequence_number (sock wA') = to_uint32 (seq + 1).
Proof.
  intros HA HB Hseq Heq H1 H2 H3 seq d.
  destruct (data_datagram_fields seq data len) as [Ty Sq].
  fold d in Ty, Sq. rewrite to_uint32_small in Sq by exact Hseq.
  assert (Hp : payload d = firstn (Z.to_nat len) data)
    by (apply payload_data_datagram; assumption).
  assert (Hl : length (payload d) = Z.to_nat len)
    by (rewrite Hp, length_firstn; lia).
  (* the receiver *)
  rewrite receive_data_established by exact HB.
  destruct (receive_data_loop_other_type buffer dtB d restB
              (set_timeout_length 0 wB)) as [S1 E1].
  { rewrite Ty. discriminate. }
  { rewrite Ty. discriminate. }
  cbn zeta in E1. cbn [set_timeout_length emit sock] in E1.
  rewrite Sq, Heq, Z.eqb_refl in E1.
  rewrite deliver_payload in E1.
  2:{ pose proof (length_data_datagram seq data len ltac:(lia) H2) as L.
      fold d in L. lia. }
  2:{ lia. }
  rewrite Hl, Hp in E1.
  rewrite Z2Nat.id in E1 by lia.
  (* the sender *)
  assert (Ak : acknowledges (sequence_number (sock wA)) (ack_of d) = true).
  { unfold acknowledges. destruct (ack_of_fields d) as (T & _ & A & _).
    rewrite T, A, Sq. fold seq. apply Z.eqb_refl. }
  destruct (send_data_exchanges data len [] (mkExchange [] dtA (ack_of d))
              restA wA HA H1 H2 (Forall_nil _) Ak) as (wA' & E2 & S2 & T2).
  eexists. exists wA'.
  split; [exact E1 | ].
  split; [reflexivity | ].
  split; [exact E2 | ].
  split; [exact T2 | ].
  split.
  - cbn [with_sock sock bump set_sequence_number sequence_number send logged
         after_recv advance emit set_timeout_length].
    fold seq in Heq. rewrite Heq. reflexivity.
  - rewrite S2. reflexivity.
Qed.

Lemma data_round_trip_witness :
  let w := with_sock (set_state ESTABLISHED) new_world in
  exists wB',
    receive_data (zeros MAX_DATA_SIZE)
      [(3, RecvDgram (data_datagram 0 [104; 105] 2))] w
    = Ret (2, [104; 105] ++ skipn 2 (zeros MAX_DATA_SIZE)) [] wB'.
Proof.
  intros w.
  destruct (data_round_trip [104; 105] 2 (zeros MAX_DATA_SIZE) 3 [] w 7 [] w)
    as (wB' & _ & E & _); try reflexivity; try (cbn; lia).
  - rewrite length_zeros. cbn. lia.
  - exists wB'. exact E.
Defined.

(** ** receive_data: delivery, close, stray acknowledgements *)

Lemma payload_cut d :
  payload d
  = firstn (Z.to_nat MAX_DATA_SIZE) (skipn (Z.to_nat sizeof_RDTHeader) d).
Proof. unfold payload. apply skipn_firstn_comm. Qed.

Lemma length_payload d :
  Z.of_nat (length (payload d))
  = Z.max 0 (Z.min (Z.of_nat (length d)) MAX_SEG_SIZE - sizeof_RDTHeader).
Proof.
  unfold payload. rewrite length_skipn, length_firstn.
  unfold MAX_SEG_SIZE, sizeof_RDTHeader. lia.
Qed.

(** X3: an in-order DATA segment that holds at least a header is
    always delivered into a caller's buffer of [MAX_DATA_SIZE] bytes:
    [recv] cuts the datagram at [MAX_SEG_SIZE], so the payload handed
    over is at most [MAX_DATA_SIZE] bytes (the bytes after the header,
    cut to that length), the copy never leaves the buffer, the bytes of
    the buffer after the payload are untouched, the value returned is
    the payload's length, and the deadline is left at 0. *)
Theorem receive_data_delivers buffer dt d inbox w :
  state (sock w) = ESTABLISHED ->
  hdr_type d = RDT_DATA ->
  hdr_sequence_number d = sequence_number (sock w) ->
  sizeof_RDTHeader <= Z.of_nat (length d) ->
  Z.of_nat (length buffer) = MAX_DATA_SIZE ->
  exists w',
    receive_data buffer ((dt, RecvDgram d) :: inbox) w
    = Ret (Z.of_nat (length (payload d)),
           payload d ++ skipn (length (payload d)) buffer) inbox w'
    /\ payload d
       = firstn (Z.to_nat MAX_DATA_SIZE) (skipn (Z.to_nat sizeof_RDTHeader) d)
    /\ Z.of_nat (length (payload d))
       = Z.min (Z.of_nat (length d)) MAX_SEG_SIZE - sizeof_RDTHeader
    /\ length (payload d ++ skipn (length (payload d)) buffer) = length buffer
    /\ sock w' = bump (sock w)
    /\ sent (trace w') = sent (trace w) ++ [ack_of d]
    /\ rcvtimeo w' = 0.
Proof.
  intros Hst Ty Sq Hd Hb.
  pose proof (length_payload d) as Lp.
  assert (Lp' : Z.of_nat (length (payload d))
                = Z.min (Z.of_nat (length d)) MAX_SEG_SIZE - sizeof_RDTHeader).
  { rewrite Lp. unfold MAX_SEG_SIZE, sizeof_RDTHeader in *. lia. }
  rewrite receive_data_established by exact Hst.
  destruct (receive_data_loop_other_type buffer dt d inbox
              (set_timeout_length 0 w)) as [S1 E1].
  { rewrite Ty. discriminate. }
  { rewrite Ty. discriminate. }
  cbn zeta in E1. cbn [set_timeout_length emit sock] in E1.
  rewrite Sq, Z.eqb_refl in E1.
  rewrite deliver_payload in E1.
  2:{ exact Hd. }
  2:{ unfold MAX_DATA_SIZE, MAX_SEG_SIZE, sizeof_RDTHeader in *. lia. }
  eexists. split; [exact E1 | ].
  split; [apply payload_cut | ].
  split; [exact Lp' | ].
  split.
  { rewrite length_app, length_skipn.
    unfold MAX_DATA_SIZE, MAX_SEG_SIZE, sizeof_RDTHeader in *. lia. }
  repeat split.
Qed.

Lemma receive_data_delivers_witness :
  let w := with_sock (set_state ESTABLISHED) new_world in
  exists w',
    receive_data (zeros MAX_DATA_SIZE)
      [(3, RecvDgram (data_datagram 0 (repeat 9 1500) 1388 ++ [1; 2; 3]))] w
    = Ret (1388, repeat 9 1388) [] w'.
Proof.
  intros w.
  destruct (receive_data_delivers (zeros MAX_DATA_SIZE) 3
              (data_datagram 0 (repeat 9 1500) 1388 ++ [1; 2; 3]) [] w)
    as (w' & E & _); try (vm_compute; reflexivity).
  - vm_compute. discriminate.
  - exists w'. rewrite E. vm_compute. reflexivity.
Defined.

Lemma close_ack_datagram :
  firstn (Z.to_nat sizeof_RDTHeader) close_ack = control_datagram RDT_ACK.
Proof. reflexivity. Qed.

(** [receive_data] from a CLOSE to the silence after its ACK. *)
Lemma receive_data_close_run buffer dt d ds dt' rest w :
  state (sock w) = ESTABLISHED ->
  hdr_type d = RDT_CLOSE ->
  exists w',
    receive_data buffer
      ((dt, RecvDgram d) :: arrivals ds ++ (dt', RecvTimeout) :: rest) w
    = Ret (0, buffer) rest w'
    /\ sock w' = set_state FIN (sock w)
    /\ sent (trace w')
       = sent (trace w) ++ repeat (control_datagram RDT_ACK) (S (length ds)).
Proof.
  intros Hst Ty. rewrite receive_data_established by exact Hst.
  rewrite receive_data_loop_dgram. cbn zeta. rewrite Ty.
  change (RDT_CLOSE =? RDT_ACK) with false.
  change (RDT_CLOSE =? RDT_CLOSE) with true. cbn iota.
  destruct (send_timeout_silence close_ack ds dt' rest
              (logged d (after_recv dt (set_timeout_length 0 w))))
    as (t & E & Ht).
  rewrite E. cbn [bind]. eexists. split; [reflexivity | ].
  split; [reflexivity | ].
  cbn [with_sock trace]. rewrite sent_app, Ht, close_ack_datagram.
  reflexivity.
Qed.

(** X4: when the datagram is a CLOSE, [receive_data] answers with a
    bare ACK through [send_timeout] (once, and once more for every
    datagram that arrives before the silence), sets the state to FIN
    and returns 0; the caller's buffer, the counter and the RTT
    statistics are as they were. *)
Theorem receive_data_close buffer dt d ds dt' rest w :
  state (sock w) = ESTABLISHED ->
  hdr_type d = RDT_CLOSE ->
  exists w',
    receive_data buffer
      ((dt, RecvDgram d) :: arrivals ds ++ (dt', RecvTimeout) :: rest) w
    = Ret (0, buffer) rest w'
    /\ sock w' = set_state FIN (sock w)
    /\ sent (trace w')
       = sent (trace w) ++ repeat (control_datagram RDT_ACK) (S (length ds)).
Proof. exact (receive_data_close_run buffer dt d ds dt' rest w). Qed.

Lemma receive_data_close_witness :
  let w := with_sock (set_state ESTABLISHED) new_world in
  exists w',
    receive_data [1; 2; 3]
      [(3, RecvDgram (control_datagram RDT_CLOSE)); (140, RecvTimeout)] w
    = Ret (0, [1; 2; 3]) [] w'
    /\ state (sock w') = FIN.
Proof.
  intros w.
  destruct (receive_data_close [1; 2; 3] 3 (control_datagram RDT_CLOSE)
              [] 140 [] w eq_refl eq_refl) as (w' & E & S & _).
  exists w'. split; [exact E | rewrite S; reflexivity].
Defined.

(** X5: datagrams of type ACK that reach [receive_data] are dropped
    without a reply: nothing is sent for them, no field changes, and
    each of them is waited for under the deadline 0 (no deadline) that
    [receive_data] sets on entry. *)
Theorem receive_data_drops_acks buffer js inbox w :
  state (sock w) = ESTABLISHED ->
  Forall (fun p => hdr_type (snd p) = RDT_ACK) js ->
  exists w',
    receive_data buffer (arrivals js ++ inbox) w
    = receive_data_loop buffer inbox w'
    /\ sock w' = sock w
    /\ rcvtimeo w' = 0
    /\ sent (trace w') = sent (trace w)
    /\ waits (trace w') = waits (trace w) ++ repeat 0 (length js).
Proof.
  intros Hst Hjs. rewrite receive_data_established by exact Hst.
  assert (G : forall w0, rcvtimeo w0 = 0 -> exists w',
    receive_data_loop buffer (arrivals js ++ inbox) w0
    = receive_data_loop buffer inbox w'
    /\ sock w' = sock w0 /\ rcvtimeo w' = 0
    /\ sent (trace w') = sent (trace w0)
    /\ waits (trace w') = waits (trace w0) ++ repeat 0 (length js)).
  { clear Hst w. induction js as [|[dt d] js IH]; intros w0 H0.
    - exists w0. cbn [arrivals map app length repeat]. rewrite app_nil_r. auto.
    - pose proof (Forall_inv Hjs) as Hd. cbn [snd] in Hd.
      rewrite arrivals_cons. cbn [app]. rewrite receive_data_loop_dgram.
      cbn zeta. rewrite Hd. change (RDT_ACK =? RDT_ACK) with true. cbn iota.
      destruct (IH (Forall_inv_tail Hjs) (logged d (after_recv dt w0)) H0)
        as (w' & E & A & B & C & D).
      exists w'. split; [exact E | split; [exact A | split; [exact B | ]]].
      split; [exact C | ].
      rewrite D. cbn [logged after_recv advance emit trace waits length repeat].
      rewrite H0, <- app_assoc. reflexivity. }
  destruct (G (set_timeout_length 0 w) eq_refl) as (w' & E & A & B & C & D).
  exists w'. repeat split; assumption.
Qed.

Lemma receive_data_drops_acks_witness :
  let w := with_sock (set_state ESTABLISHED) new_world in
  exists w',
    receive_data [] [(3, RecvDgram (control_datagram RDT_ACK))] w = Blocked w'
    /\ sent (trace w') = [].
Proof.
  intros w.
  destruct (receive_data_drops_acks [] [(3, control_datagram RDT_ACK)] [] w
              eq_refl) as (w' & E & _ & _ & S & _).
  - repeat constructor.
  - exists w'. split; [exact E | exact S].
Defined.

(** ** More on the reliable send *)

Lemma clock_after_expiries seg size dts :
  forall lt c w,
    let '(_, _, w') := after_expiries seg size lt c dts w in
    clock w' = clock w + fold_right Z.add 0 dts.
Proof.
  induction dts as [|dt dts IH]; intros lt c w.
  - cbn. lia.
  - cbn [after_expiries fold_right].
    specialize (IH true (next_curTimeout lt c w)
                   (after_expiry seg size lt c dt w)).
    destruct (after_expiries seg size true (next_curTimeout lt c w) dts
                (after_expiry seg size lt c dt w)) as [[lt' c'] w'].
    rewrite IH. cbn [after_expiry set_timeout_length emit set_errno advance
                     send clock]. lia.
Qed.

(** X6: one call of [send_seg_reliable] takes exactly one RTT sample,
    and the sample is the wait for the reply after the last
    transmission only: however many deadlines expired and however long
    they took, [current_rtt] is the last wait and the estimator is fed
    that value once, while the clock has advanced by all the waits.
    Any datagram counts as the reply, an empty one included. *)
Theorem send_seg_reliable_sample seg size dts dt d rest w :
  exists w',
    send_seg_reliable seg size (timeouts dts ++ (dt, RecvDgram d) :: rest) w
    = Ret (received d) rest w'
    /\ current_rtt (sock w') = dt
    /\ sock w' = sampled dt (sock w)
    /\ clock w' = clock w + fold_right Z.add 0 dts + dt
    /\ sent (trace w')
       = sent (trace w) ++ repeat (firstn (Z.to_nat size) seg) (S (length dts)).
Proof.
  destruct (send_seg_reliable_answers seg size (mkExchange dts dt d) rest w)
    as (w' & E & Hs & Ht).
  rewrite exchange_events_app in E. cbn [reply delay expiries] in *.
  exists w'. split; [exact E | ].
  split; [rewrite Hs; reflexivity | ].
  split; [exact Hs | ].
  split; [ | exact Ht].
  unfold send_seg_reliable in E.
  rewrite send_seg_reliable_loop_expiries in E.
  pose proof (clock_after_expiries seg size dts false 0
                (set_timeout_length (rtt_timeout (sock w)) w)) as Hc.
  destruct (after_expiries seg size false 0 dts
              (set_timeout_length (rtt_timeout (sock w)) w))
    as [[lt' c'] wk].
  rewrite send_seg_reliable_loop_reply in E. injection E as <-.
  rewrite set_estimated_rtt_eq.
  cbn [clock with_sock advance emit send]. rewrite Hc. reflexivity.
Qed.

(** X7: a [recv] failure that is not a deadline expiry ends the
    process from inside [send_seg_reliable], after however many
    expiries: "No ACK recv" is the last thing printed, the segment has
    been transmitted once per expiry and once more, and no field of the
    connection has changed (no sample was taken). *)
Theorem send_seg_reliable_fatal seg size dts dt rest w :
  exists w',
    send_seg_reliable seg size (timeouts dts ++ (dt, RecvError) :: rest) w
    = Exited w'
    /\ sock w' = sock w
    /\ hd_error (trace w') = Some (Perror "No ACK recv")
    /\ sent (trace w')
       = sent (trace w) ++ repeat (firstn (Z.to_nat size) seg) (S (length dts)).
Proof.
  unfold send_seg_reliable. rewrite send_seg_reliable_loop_expiries.
  pose proof (sent_after_expiries seg size dts false 0
                (set_timeout_length (rtt_timeout (sock w)) w)) as Hs.
  destruct (after_expiries seg size false 0 dts
              (set_timeout_length (rtt_timeout (sock w)) w))
    as [[lt' c'] wk].
  destruct Hs as [Hs Ht].
  rewrite send_seg_reliable_loop_error. eexists.
  split; [reflexivity | ].
  split; [exact Hs | ].
  split; [reflexivity | ].
  cbn [trace emit set_errno advance send sent]. rewrite Ht.
  cbn [set_timeout_length emit trace sent].
  rewrite <- app_assoc. f_equal.
  clear. induction (length dts) as [|n IH]; [reflexivity | ].
  cbn [repeat app]. f_equal. exact IH.
Qed.

(** ** The estimator's range *)

Lemma take_sample_sock r w : sock (take_sample r w) = sampled r (sock w).
Proof. unfold take_sample. rewrite set_estimated_rtt_eq. reflexivity. Qed.

Lemma take_sample_rcvtimeo r w :
  rcvtimeo (take_sample r w) = to_uint32 (rtt_timeout (sock (take_sample r w))).
Proof. unfold take_sample. rewrite !set_estimated_rtt_eq. reflexivity. Qed.

Lemma next_estimated_rtt_range est r :
  0 <= est -> 0 <= r ->
  0 <= next_estimated_rtt est r
  /\ Z.min est r - 1 <= next_estimated_rtt est r <= Z.max est r.
Proof.
  intros He Hr. unfold next_estimated_rtt.
  rewrite (Z.quot_div_nonneg (7 * est) 8) by lia.
  assert (0 <= 7 * est / 8) by (apply Z.div_pos; lia).
  rewrite Z.quot_div_nonneg by lia.
  pose proof (Z.div_mod (7 * est) 8 ltac:(lia)) as H1.
  pose proof (Z.mod_pos_bound (7 * est) 8 ltac:(lia)) as H2.
  pose proof (Z.div_mod (8 * (7 * est / 8) + r) 8 ltac:(lia)) as H3.
  pose proof (Z.mod_pos_bound (8 * (7 * est / 8) + r) 8 ltac:(lia)) as H4.
  lia.
Qed.

Lemma next_dev_rtt_range dev r est' :
  0 <= dev ->
  0 <= next_dev_rtt dev r est'
  /\ next_dev_rtt dev r est' = 3 * dev / 4 + Z.abs (r - est') / 4.
Proof.
  intros Hd. unfold next_dev_rtt.
  rewrite (Z.quot_div_nonneg (3 * dev) 4) by lia.
  assert (0 <= 3 * dev / 4) by (apply Z.div_pos; lia).
  rewrite Z.quot_div_nonneg by lia.
  assert (0 <= Z.abs (r - est') / 4) by (apply Z.div_pos; lia).
  replace (4 * (3 * dev / 4) + Z.abs (r - est'))
    with (Z.abs (r - est') + (3 * dev / 4) * 4) by lia.
  rewrite Z.div_add by lia. lia.
Qed.

(** X9: with a non-negative estimate, deviation and sample the
    estimator stays in range: the new estimate is non-negative, at most
    the larger of the old estimate and the sample, and at least the
    smaller of the two minus one millisecond; the new deviation is
    non-negative; so the deadline [estimated_rtt + 4*dev_rtt] it sets is
    never negative. *)
Theorem estimator_stays_in_range r w :
  0 <= estimated_rtt (sock w) -> 0 <= dev_rtt (sock w) -> 0 <= r ->
  let w' := take_sample r w in
  0 <= estimated_rtt (sock w')
  /\ Z.min (estimated_rtt (sock w)) r - 1 <= estimated_rtt (sock w')
     <= Z.max (estimated_rtt (sock w)) r
  /\ 0 <= dev_rtt (sock w')
  /\ 0 <= rtt_timeout (sock w')
  /\ current_rtt (sock w') = r.
Proof.
  intros He Hd Hr w'. unfold w'. rewrite take_sample_sock.
  unfold sampled, rtt_timeout.
  cbn [estimated_rtt dev_rtt current_rtt].
  destruct (next_estimated_rtt_range _ _ He Hr) as (A & B).
  destruct (next_dev_rtt_range (dev_rtt (sock w)) r
              (next_estimated_rtt (estimated_rtt (sock w)) r) Hd) as (C & _).
  repeat split; lia.
Qed.

Lemma estimator_stays_in_range_witness :
  estimated_rtt (sock (take_sample 20 new_world)) <= 100.
Proof.
  pose proof (estimator_stays_in_range 20 new_world) as H.
  cbn zeta in H.
  destruct H as (_ & (_ & H) & _); [cbn; lia | cbn; lia | lia | exact H].
Defined.

Lemma zero_sample_descends est dev :
  0 <= est -> 0 <= dev ->
  let est' := next_estimated_rtt est 0 in
  let dev' := next_dev_rtt dev 0 est' in
  0 <= est' /\ 0 <= dev'
  /\ (0 < 2 * est + dev -> 2 * est' + dev' < 2 * est + dev)
  /\ (2 * est + dev = 0 -> est' = 0 /\ dev' = 0).
Proof.
  intros He Hd est' dev'.
  destruct (next_estimated_rtt_range est 0 He ltac:(lia)) as (A & B).
  destruct (next_dev_rtt_range dev 0 est' Hd) as (C & D).
  fold est' in A, B. fold dev' in C, D.
  assert (E : 8 * est' <= 7 * est).
  { unfold est', next_estimated_rtt.
    rewrite (Z.quot_div_nonneg (7 * est) 8) by lia.
    assert (0 <= 7 * est / 8) by (apply Z.div_pos; lia).
    rewrite Z.quot_div_nonneg by lia.
    replace (8 * (7 * est / 8) + 0) with ((7 * est / 8) * 8) by lia.
    rewrite Z.div_mul by lia.
    pose proof (Z.mul_div_le (7 * est) 8 ltac:(lia)). lia. }
  replace (Z.abs (0 - est')) with est' in D by lia.
  pose proof (Z.mul_div_le (3 * dev) 4 ltac:(lia)).
  pose proof (Z.mul_div_le est' 4 ltac:(lia)).
  repeat split; lia.
Qed.

(** X10: replies that arrive within the same millisecond, so that the
    sample is 0, wear the estimate down to nothing: from any
    non-negative estimate and deviation, after [2*estimated_rtt +
    dev_rtt] such samples (or more) both are 0 and the deadline the
    estimator sets is 0, the value that makes [recv] wait for ever. *)
Theorem zero_samples_remove_the_deadline n w :
  0 <= estimated_rtt (sock w) -> 0 <= dev_rtt (sock w) ->
  (1 <= n)%nat ->
  2 * estimated_rtt (sock w) + dev_rtt (sock w) <= Z.of_nat n ->
  let w' := Nat.iter n (take_sample 0) w in
  estimated_rtt (sock w') = 0 /\ dev_rtt (sock w') = 0 /\ rcvtimeo w' = 0.
Proof.
  intros He Hd Hn Hb w'.
  assert (G : forall k w0,
    0 <= estimated_rtt (sock w0) -> 0 <= dev_rtt (sock w0) ->
    let wk := Nat.iter k (take_sample 0) w0 in
    0 <= estimated_rtt (sock wk) /\ 0 <= dev_rtt (sock wk)
    /\ 2 * estimated_rtt (sock wk) + dev_rtt (sock wk)
       <= Z.max 0 (2 * estimated_rtt (sock w0) + dev_rtt (sock w0) - Z.of_nat k)).
  { induction k as [|k IH]; intros w0 H0 H1; cbn zeta.
    - change (Nat.iter 0 (take_sample 0) w0) with w0. lia.
    - specialize (IH w0 H0 H1). cbn zeta in IH.
      change (Nat.iter (S k) (take_sample 0) w0)
        with (take_sample 0 (Nat.iter k (take_sample 0) w0)).
      set (wk := Nat.iter k (take_sample 0) w0) in *.
      destruct IH as (I1 & I2 & I3).
      rewrite take_sample_sock. unfold sampled.
      cbn [estimated_rtt dev_rtt].
      destruct (zero_sample_descends _ _ I1 I2) as (A & B & C & D).
      cbn zeta in A, B, C, D. lia. }
  destruct (G n w He Hd) as (A & B & C). fold w' in A, B, C.
  assert (E1 : estimated_rtt (sock w') = 0) by lia.
  assert (E2 : dev_rtt (sock w') = 0) by lia.
  split; [exact E1 | split; [exact E2 | ]].
  destruct n as [|n]; [lia | ].
  change w' with (take_sample 0 (Nat.iter n (take_sample 0) w)) at 1.
  rewrite take_sample_rcvtimeo.
  change (take_sample 0 (Nat.iter n (take_sample 0) w)) with w'.
  unfold rtt_timeout. rewrite E1, E2. reflexivity.
Qed.

Lemma zero_samples_remove_the_deadline_witness :
  rcvtimeo (Nat.iter 210 (take_sample 0) new_world) = 0.
Proof.
  pose proof (zero_samples_remove_the_deadline 210 new_world) as H.
  cbn zeta in H.
  destruct H as (_ & _ & H); [cbn; lia | cbn; lia | lia | cbn; lia | exact H].
Defined.

(** ** send_data and send_timeout on the wire *)

(** X11: when the caller keeps [len] within [MAX_DATA_SIZE] and within
    its data, and [send_data] returns on an established connection,
    everything it transmitted is one and the same datagram, sent one or
    more times: the twelve header bytes (type DATA, the counter as
    sequence number, ack number 0) followed by exactly [len] bytes of
    the caller's data; and at least one entry of the inbox was used up.
    [send_data] itself does not check [len]. *)
Theorem send_data_retransmits_same data len inbox w rest w' :
  state (sock w) = ESTABLISHED ->
  0 <= len <= MAX_DATA_SIZE ->
  len <= Z.of_nat (length data) ->
  send_data data len inbox w = Ret tt rest w' ->
  let dg := data_datagram (sequence_number (sock w)) data len in
  (exists k, sent (trace w') = sent (trace w) ++ repeat dg (S k))
  /\ dg = data_header (sequence_number (sock w)) ++ firstn (Z.to_nat len) data
  /\ Z.of_nat (length dg) = sizeof_RDTHeader + len
  /\ hdr_type dg = RDT_DATA
  /\ hdr_sequence_number dg = to_uint32 (sequence_number (sock w))
  /\ hdr_ack_number dg = 0
  /\ (length rest < length inbox)%nat.
Proof.
  intros Hst H1 H2 E dg.
  destruct (send_data_ret _ _ _ _ _ _ Hst E) as (_ & _ & _ & _ & Hl & Hk).
  pose proof (length_data_datagram (sequence_number (sock w)) data len
                ltac:(lia) H2) as L.
  fold dg in L.
  destruct (data_header_fields (sequence_number (sock w))
              (firstn (Z.to_nat len) data)) as (A & B & C).
  split; [exact Hk | ].
  split; [reflexivity | ].
  split; [exact L | ].
  split; [exact A | split; [exact B | split; [exact C | exact Hl]]].
Qed.

Lemma send_data_retransmits_same_witness :
  let w := with_sock (set_state ESTABLISHED) new_world in
  exists w' k,
    send_data [104; 105] 2
      [(140, RecvTimeout); (20, RecvDgram (control_datagram RDT_ACK))] w
    = Ret tt [] w'
    /\ sent (trace w') = repeat (data_datagram 0 [104; 105] 2) (S k).
Proof.
  intros w.
  assert (E : exists w', send_data [104; 105] 2
      [(140, RecvTimeout); (20, RecvDgram (control_datagram RDT_ACK))] w
    = Ret tt [] w') by (eexists; vm_compute; reflexivity).
  destruct E as (w' & E).
  assert (H1 : 0 <= 2 <= MAX_DATA_SIZE) by (unfold MAX_DATA_SIZE; cbn; lia).
  assert (H2 : 2 <= Z.of_nat (length [104; 105])) by (cbn; lia).
  destruct (send_data_retransmits_same [104; 105] 2 _ w [] w' eq_refl H1 H2 E)
    as ((k & H) & _).
  exists w', k. split; [exact E | exact H].
Defined.

Lemma send_timeout_error seg dt inbox w :
  send_timeout seg ((dt, RecvError) :: inbox) w
  = Exited (emit (Perror "send_timeout recieve error")
      (set_errno EOTHER
         (after_recv dt (set_timeout_length (rtt_timeout (sock w))
                           (send seg sizeof_RDTHeader w))))).
Proof. reflexivity. Qed.

(** X12: [send_timeout] takes silence for success.  It sends the
    header, sets the RTT-derived deadline and waits; every datagram
    that arrives, whatever it holds, makes it send the same header
    again; the first expiry makes it return, and a failure of [recv]
    that is not an expiry ends the process.  Either way the header has
    gone out once per datagram received and once more, every wait was
    under the RTT-derived deadline, and no field has changed. *)
Theorem send_timeout_until_silence seg ds dt rest w :
  let hdr := firstn (Z.to_nat sizeof_RDTHeader) seg in
  let deadline := to_uint32 (rtt_timeout (sock w)) in
  (exists w',
      send_timeout seg (arrivals ds ++ (dt, RecvTimeout) :: rest) w
      = Ret tt rest w'
      /\ sock w' = sock w
      /\ sent (trace w') = sent (trace w) ++ repeat hdr (S (length ds))
      /\ waits (trace w')
         = waits (trace w) ++ repeat deadline (S (length ds)))
  /\ (exists w',
      send_timeout seg (arrivals ds ++ (dt, RecvError) :: rest) w = Exited w'
      /\ sock w' = sock w
      /\ sent (trace w') = sent (trace w) ++ repeat hdr (S (length ds))).
Proof.
  intros hdr deadline. unfold hdr, deadline. clear hdr deadline.
  revert w. induction ds as [|[dt0 d] ds IH]; intros w.
  - cbn [arrivals map app length]. split.
    + rewrite send_timeout_expiry. eexists. repeat split.
    + rewrite send_timeout_error. eexists. repeat split.
  - rewrite arrivals_cons. cbn [app]. rewrite !send_timeout_dgram.
    destruct (IH (after_recv dt0 (set_timeout_length (rtt_timeout (sock w))
                                    (send seg sizeof_RDTHeader w))))
      as ((w1 & E1 & S1 & T1 & W1) & (w2 & E2 & S2 & T2)).
    cbn [after_recv advance emit set_timeout_length send sock trace sent waits
         rcvtimeo] in *.
    split.
    + exists w1. split; [exact E1 | split; [exact S1 | split]].
      * rewrite T1, <- app_assoc. reflexivity.
      * rewrite W1, <- app_assoc. reflexivity.
    + exists w2. split; [exact E2 | split; [exact S2 | ]].
      rewrite T2, <- app_assoc. reflexivity.
Qed.

(** X13: in the final wait of [send_close] every datagram of at least
    one byte, a CLOSE or anything else, makes the loop send the ACK
    again and wait again; every wait is entered under [WAIT_TIME]; the
    first expiry ends the loop with all fields as they were, and a
    failure of [recv] that is not an expiry ends the process. *)
Theorem send_close_wait_until_silence seg ds dt rest w :
  Forall (fun p => snd p <> []) ds ->
  let hdr := firstn (Z.to_nat sizeof_RDTHeader) seg in
  (exists w',
      send_close_wait seg (arrivals ds ++ (dt, RecvTimeout) :: rest) w
      = Ret tt rest w'
      /\ sock w' = sock w
      /\ sent (trace w') = sent (trace w) ++ repeat hdr (S (length ds))
      /\ waits (trace w')
         = waits (trace w) ++ repeat WAIT_TIME (S (length ds)))
  /\ (exists w',
      send_close_wait seg (arrivals ds ++ (dt, RecvError) :: rest) w
      = Exited w'
      /\ sock w' = sock w).
Proof.
  intros Hds hdr. split.
  - exact (send_close_wait_silence seg ds Hds dt rest w).
  - clear hdr. revert w. induction ds as [|[dt0 d] ds IH]; intros w.
    + cbn [arrivals map app]. rewrite send_close_wait_error.
      eexists. split; reflexivity.
    + pose proof (Forall_inv Hds) as Hd. cbn [snd] in Hd.
      rewrite arrivals_cons. cbn [app].
      rewrite send_close_wait_dgram by exact Hd.
      destruct (IH (Forall_inv_tail Hds)
                  (after_recv dt0 (set_timeout_length WAIT_TIME
                                     (send seg sizeof_RDTHeader w))))
        as (w' & E & S).
      exists w'. split; [exact E | exact S].
Qed.

Lemma send_close_wait_until_silence_witness :
  exists w',
    send_close_wait (control_segment MAX_SEG_SIZE RDT_ACK)
      [(5, RecvDgram (control_datagram RDT_CLOSE)); (4000, RecvTimeout)]
      new_world
    = Ret tt [] w'
    /\ waits (trace w') = [WAIT_TIME; WAIT_TIME].
Proof.
  destruct (send_close_wait_until_silence
              (control_segment MAX_SEG_SIZE RDT_ACK)
              [(5, control_datagram RDT_CLOSE)] 4000 [] new_world)
    as ((w' & E & _ & _ & W) & _).
  - repeat constructor. discriminate.
  - exists w'. split; [exact E | exact W].
Defined.

(** ** accept_connection *)

Lemma synack_round_answers seg :
  answers (firstn (Z.to_nat sizeof_RDTHeader) seg) (synack_round seg).
Proof.
  intros x rest w. unfold synack_round.
  destruct (send_seg_reliable_answers seg sizeof_RDTHeader x rest
              (set_timeout_length (rtt_timeout (sock w)) w))
    as (w' & E & Hs & Ht).
  exists w'. split; [exact E | split; [exact Hs | exact Ht]].
Qed.

Lemma accept_connection_first dt d inbox w :
  state (sock w) = INIT ->
  accept_connection ((dt, RecvDgram d) :: inbox) w =
  let w1 := emit (CerrType RDT_SYN)
              (emit (CerrType (hdr_type d)) (after_recv dt w)) in
  if negb (hdr_type d =? RDT_SYN) then
    Exited (emit (Cerr "ERROR: Didn't get the expected RDT_SYN type.") w1)
  else
    bind (until_reply (S (length inbox))
            (synack_round (control_segment MAX_SEG_SIZE RDT_SYNACK))
            (fun recvSegment _ =>
               (hdr_type recvSegment =? RDT_ACK)
               || (hdr_type recvSegment =? RDT_DATA))
            inbox w1)
         (fun _ inbox w =>
            Ret tt inbox (emit (Cerr "INFO: Connection ESTABLISHED")
                            (with_sock (set_state ESTABLISHED) w))).
Proof.
  intros Hst. unfold accept_connection. rewrite Hst.
  cbn [negb connection_status_eqb recv fst snd].
  destruct (Z.ltb_spec (Z.of_nat (length (firstn (Z.to_nat MAX_SEG_SIZE) d))) 0);
    [lia | ].
  fold (received d). rewrite hdr_type_received. reflexivity.
Qed.

(** X14: [accept_connection] on a new connection gives up, ending the
    process, when the first [recv] fails (an expiry included) or when
    the first datagram is not a SYN: nothing has been sent, every field
    is as the constructor left it, and what else is in the inbox is
    never read. *)
Theorem accept_connection_needs_syn dt r inbox w :
  state (sock w) = INIT ->
  match r with RecvDgram d => hdr_type d <> RDT_SYN | _ => True end ->
  exists w',
    accept_connection ((dt, r) :: inbox) w = Exited w'
    /\ sock w' = sock w
    /\ sent (trace w') = sent (trace w).
Proof.
  intros Hst Hr. destruct r as [ | |d].
  - unfold accept_connection. rewrite Hst. eexists. repeat split.
  - unfold accept_connection. rewrite Hst. eexists. repeat split.
  - rewrite accept_connection_first by exact Hst. cbn zeta.
    destruct (Z.eqb_spec (hdr_type d) RDT_SYN); [contradiction | ].
    eexists. repeat split.
Qed.

Lemma accept_connection_needs_syn_witness :
  exists w',
    accept_connection [(7, RecvDgram (control_datagram RDT_DATA))] new_world
    = Exited w'
    /\ sent (trace w') = [].
Proof.
  destruct (accept_connection_needs_syn 7
              (RecvDgram (control_datagram RDT_DATA)) [] new_world eq_refl)
    as (w' & E & _ & S).
  - vm_compute. discriminate.
  - exists w'. split; [exact E | exact S].
Defined.

(** A passive open from the SYN to the reply that ends it. *)
Lemma accept_connection_run dt0 syn xs x rest w :
  state (sock w) = INIT ->
  hdr_type syn = RDT_SYN ->
  Forall (fun y => ends_handshake (reply y) = false) xs ->
  ends_handshake (reply x) = true ->
  exists w',
    accept_connection
      ((dt0, RecvDgram syn)
         :: flat_map exchange_events xs ++ exchange_events x ++ rest) w
    = Ret tt rest w'
    /\ sock w'
       = set_state ESTABLISHED (sampled (delay x) (sampled_all xs (sock w)))
    /\ sequence_number (sock w') = sequence_number (sock w)
    /\ sent (trace w')
       = sent (trace w)
         ++ repeat (control_datagram RDT_SYNACK) (transmissions (xs ++ [x])).
Proof.
  intros Hst Hsyn Hxs Hx.
  rewrite accept_connection_first by exact Hst. cbn zeta.
  rewrite Hsyn. change (negb (RDT_SYN =? RDT_SYN)) with false. cbn iota.
  set (w1 := emit (CerrType RDT_SYN)
               (emit (CerrType RDT_SYN) (after_recv dt0 w))).
  set (done := fun (recvSegment : list Z) (_ : world) =>
                 (hdr_type recvSegment =? RDT_ACK)
                 || (hdr_type recvSegment =? RDT_DATA)).
  assert (Hd : forall r v1 v2, same_ids (sock v1) (sock v2) ->
                               done r v1 = done r v2) by reflexivity.
  assert (Hxs' : Forall (fun y => done (received (reply y)) w1 = false) xs).
  { eapply Forall_impl; [ | exact Hxs]. intros y Hy. unfold done.
    rewrite hdr_type_received. exact Hy. }
  assert (Hx' : done (received (reply x)) w1 = true).
  { unfold done. rewrite hdr_type_received. exact Hx. }
  destruct (until_reply_exchanges _ _ done
              (synack_round_of (control_segment MAX_SEG_SIZE RDT_SYNACK))
              (synack_round_answers (control_segment MAX_SEG_SIZE RDT_SYNACK))
              Hd xs x rest w1 Hxs' Hx') as (w' & E & Hs & Ht).
  match goal with
  | |- context [bind ?u _] =>
      replace u with (Ret (received (reply x)) rest w')
        by (symmetry; exact E)
  end.
  cbn [bind]. eexists. split; [reflexivity | ].
  cbn [with_sock emit sock trace sent]. rewrite Hs, Ht.
  rewrite control_segment_datagram.
  split; [reflexivity | split; [ | reflexivity]].
  cbn [set_state sequence_number sampled].
  destruct (same_ids_sampled_all xs (sock w1)) as (A & _).
  symmetry. exact A.
Qed.

(** X15: after a SYN, [accept_connection] sends the SYNACK through the
    reliable send until a reply of type ACK or DATA comes, resending
    it after every expiry and after every reply of another type; it
    then returns with the connection ESTABLISHED.  All it ever sends is
    that SYNACK: a DATA segment that ends the handshake is neither
    acknowledged nor delivered and the counter stays where it was.
    Every reply, usable or not, has been sampled by the estimator. *)
Theorem accept_connection_handshake dt0 syn xs x rest w :
  state (sock w) = INIT ->
  hdr_type syn = RDT_SYN ->
  Forall (fun y => ends_handshake (reply y) = false) xs ->
  ends_handshake (reply x) = true ->
  exists w',
    accept_connection
      ((dt0, RecvDgram syn)
         :: flat_map exchange_events xs ++ exchange_events x ++ rest) w
    = Ret tt rest w'
    /\ sock w'
       = set_state ESTABLISHED (sampled (delay x) (sampled_all xs (sock w)))
    /\ sequence_number (sock w') = sequence_number (sock w)
    /\ sent (trace w')
       = sent (trace w)
         ++ repeat (control_datagram RDT_SYNACK) (transmissions (xs ++ [x])).
Proof. exact (accept_connection_run dt0 syn xs x rest w). Qed.

Lemma accept_connection_handshake_witness :
  exists w',
    accept_connection
      [ (7, RecvDgram (control_datagram RDT_SYN));
        (140, RecvTimeout);
        (20, RecvDgram (data_datagram 0 [104; 105] 2)) ] new_world
    = Ret tt [] w'
    /\ state (sock w') = ESTABLISHED
    /\ sequence_number (sock w') = 0
    /\ sent (trace w') = repeat (control_datagram RDT_SYNACK) 2.
Proof.
  destruct (accept_connection_handshake 7 (control_datagram RDT_SYN) []
              (mkExchange [140] 20 (data_datagram 0 [104; 105] 2)) []
              new_world eq_refl eq_refl (Forall_nil _) eq_refl)
    as (w' & E & S & Q & T).
  exists w'. split; [exact E | ].
  split; [rewrite S; reflexivity | split; [exact Q | exact T]].
Defined.

(** ** close_connection *)

Lemma close_segment_datagram :
  firstn (Z.to_nat sizeof_RDTHeader) close_segment = control_datagram RDT_CLOSE.
Proof.
  unfold close_segment.
  change (zeros MAX_SEG_SIZE) with (repeat 0 12 ++ zeros MAX_DATA_SIZE).
  generalize (zeros MAX_DATA_SIZE). intros tail. reflexivity.
Qed.

Lemma final_ack_datagram :
  firstn (Z.to_nat sizeof_RDTHeader) (put_type RDT_ACK close_segment)
  = control_datagram RDT_ACK.
Proof.
  unfold close_segment.
  change (zeros MAX_SEG_SIZE) with (repeat 0 12 ++ zeros MAX_DATA_SIZE).
  generalize (zeros MAX_DATA_SIZE). intros tail. reflexivity.
Qed.

(** The second loop of [send_close] sends nothing and changes no field
    while it passes over expiries and other datagrams. *)
Lemma send_close_await_close evs :
  Forall passed_over evs ->
  forall dt c rest w,
    hdr_type c = RDT_CLOSE ->
    exists w',
      send_close_await (evs ++ (dt, RecvDgram c) :: rest) w = Ret tt rest w'
      /\ sock w' = sock w
      /\ sent (trace w') = sent (trace w).
Proof.
  induction evs as [|[dt0 r] evs IH]; intros Hev dt c rest w Hc.
  - cbn [app send_close_await recv fst snd].
    destruct (Z.ltb_spec (Z.of_nat (length (firstn (Z.to_nat MAX_SEG_SIZE) c))) 0);
      [lia | ].
    cbn [andb]. fold (received c). rewrite hdr_type_received, Hc.
    change (RDT_CLOSE =? RDT_CLOSE) with true. cbn iota.
    eexists. repeat split.
  - pose proof (Forall_inv Hev) as H0. unfold passed_over in H0. cbn [snd] in H0.
    pose proof (Forall_inv_tail Hev) as Hev'.
    destruct r as [ | |d]; [ | contradiction | ].
    + cbn [app].
      change (send_close_await ((dt0, RecvTimeout) :: evs ++ (dt, RecvDgram c) :: rest) w)
        with (send_close_await (evs ++ (dt, RecvDgram c) :: rest)
                (set_errno EAGAIN (after_recv dt0 w))).
      destruct (IH Hev' dt c rest (set_errno EAGAIN (after_recv dt0 w)) Hc)
        as (w' & E & S & T).
      exists w'. split; [exact E | split; [exact S | exact T]].
    + cbn [app send_close_await recv fst snd].
      destruct (Z.ltb_spec (Z.of_nat (length (firstn (Z.to_nat MAX_SEG_SIZE) d))) 0);
        [lia | ].
      cbn [andb]. fold (received d). rewrite hdr_type_received.
      destruct (Z.eqb_spec (hdr_type d) RDT_CLOSE); [contradiction | ].
      destruct (IH Hev' dt c rest (after_recv dt0 w) Hc) as (w' & E & S & T).
      exists w'. split; [exact E | split; [exact S | exact T]].
Qed.

(** The responder's teardown up to the ACK it waits for. *)
Lemma close_connection_responder_run xs x rest w :
  state (sock w) = FIN ->
  Forall (fun y => hdr_type (reply y) <> RDT_ACK) xs ->
  hdr_type (reply x) = RDT_ACK ->
  exists w' t,
    close_connection (flat_map exchange_events xs ++ exchange_events x ++ rest) w
    = Ret tt rest w'
    /\ sock w' = set_state CLOSED (sampled (delay x) (sampled_all xs (sock w)))
    /\ sequence_number (sock w') = sequence_number (sock w)
    /\ trace w' = Cerr "Connection Closed as Expected" :: CloseFd :: t
    /\ sent t = sent (trace w)
                ++ repeat (control_datagram RDT_CLOSE) (transmissions (xs ++ [x])).
Proof.
  intros Hst Hxs Hx. unfold close_connection, recv_close. rewrite Hst.
  cbn [negb connection_status_eqb].
  set (w0 := set_timeout_length (rtt_timeout (sock w)) w).
  set (done := fun (recvSegment : list Z) (_ : world) =>
                 hdr_type recvSegment =? RDT_ACK).
  assert (Hd : forall r v1 v2, same_ids (sock v1) (sock v2) ->
                               done r v1 = done r v2) by reflexivity.
  assert (Hxs' : Forall (fun y => done (received (reply y)) w0 = false) xs).
  { eapply Forall_impl; [ | exact Hxs]. intros y Hy. unfold done.
    rewrite hdr_type_received. apply Z.eqb_neq. exact Hy. }
  assert (Hx' : done (received (reply x)) w0 = true).
  { unfold done. rewrite hdr_type_received, Hx. reflexivity. }
  destruct (until_reply_exchanges _ _ done
              (send_seg_reliable_round close_segment sizeof_RDTHeader)
              (send_seg_reliable_answers close_segment sizeof_RDTHeader)
              Hd xs x rest w0 Hxs' Hx') as (w' & E & Hs & Ht).
  match goal with
  | |- context [bind (bind ?u _) _] =>
      replace u with (Ret (received (reply x)) rest w')
        by (symmetry; exact E)
  end.
  cbn [bind]. eexists. exists (trace w'). split; [reflexivity | ].
  cbn [with_sock emit sock trace]. rewrite Hs, Ht, close_segment_datagram.
  split; [reflexivity | split; [ | split; reflexivity]].
  cbn [set_state sequence_number sampled].
  destruct (same_ids_sampled_all xs (sock w0)) as (A & _).
  symmetry. exact A.
Qed.

(** X16: closing as the responder (state FIN).  [close_connection]
    sends its CLOSE through the reliable send until a reply of type ACK
    comes, resending after every expiry and after every other reply;
    then the state is CLOSED and the descriptor is closed.  All it sent
    is that CLOSE, and the sequence number is untouched. *)
Theorem close_connection_responder xs x rest w :
  state (sock w) = FIN ->
  Forall (fun y => hdr_type (reply y) <> RDT_ACK) xs ->
  hdr_type (reply x) = RDT_ACK ->
  exists w' t,
    close_connection (flat_map exchange_events xs ++ exchange_events x ++ rest) w
    = Ret tt rest w'
    /\ sock w' = set_state CLOSED (sampled (delay x) (sampled_all xs (sock w)))
    /\ sequence_number (sock w') = sequence_number (sock w)
    /\ trace w' = Cerr "Connection Closed as Expected" :: CloseFd :: t
    /\ sent t = sent (trace w)
                ++ repeat (control_datagram RDT_CLOSE) (transmissions (xs ++ [x])).
Proof. exact (close_connection_responder_run xs x rest w). Qed.

Lemma close_connection_responder_witness :
  let w := with_sock (set_state FIN) new_world in
  exists w',
    close_connection
      [(140, RecvTimeout); (20, RecvDgram (control_datagram RDT_ACK))] w
    = Ret tt [] w'
    /\ state (sock w') = CLOSED.
Proof.
  intros w.
  destruct (close_connection_responder []
              (mkExchange [140] 20 (control_datagram RDT_ACK)) [] w
              eq_refl (Forall_nil _) eq_refl) as (w' & t & E & S & _).
  exists w'. split; [exact E | rewrite S; reflexivity].
Defined.

(** The initiator's teardown up to the expiry of its final wait. *)
Lemma close_connection_initiator_run xs x evs dtc c ds dt' rest w :
  state (sock w) <> FIN ->
  Forall (fun y => ends_close (reply y) = false) xs ->
  ends_close (reply x) = true ->
  Forall passed_over evs ->
  hdr_type c = RDT_CLOSE ->
  Forall (fun p => snd p <> []) ds ->
  exists w' t,
    close_connection
      (flat_map exchange_events xs ++ exchange_events x
       ++ evs ++ (dtc, RecvDgram c)
       :: arrivals ds ++ (dt', RecvTimeout) :: rest) w
    = Ret tt rest w'
    /\ sock w' = set_state CLOSED (sampled (delay x) (sampled_all xs (sock w)))
    /\ sequence_number (sock w') = sequence_number (sock w)
    /\ trace w' = Cerr "Connection Closed as Expected" :: CloseFd :: t
    /\ sent t = sent (trace w)
                ++ repeat (control_datagram RDT_CLOSE) (transmissions (xs ++ [x]))
                ++ repeat (control_datagram RDT_ACK) (S (length ds))
    /\ exists n, waits t = n ++ repeat WAIT_TIME (S (length ds)).
Proof.
  intros Hst Hxs Hx Hev Hc Hds. unfold close_connection, send_close.
  destruct (state (sock w)) eqn:Est; try contradiction;
    cbn [negb connection_status_eqb].
  all: fold close_segment.
  all: set (done := fun (recvSegment : list Z) (_ : world) =>
                 (hdr_type recvSegment =? RDT_ACK)
                 || (hdr_type recvSegment =? RDT_CLOSE)).
  all: assert (Hd : forall r v1 v2, same_ids (sock v1) (sock v2) ->
                               done r v1 = done r v2) by reflexivity.
  all: assert (Hxs' : Forall (fun y => done (received (reply y)) w = false) xs)
    by (eapply Forall_impl; [ | exact Hxs]; intros y Hy; unfold done;
        rewrite hdr_type_received; exact Hy).
  all: assert (Hx' : done (received (reply x)) w = true)
    by (unfold done; rewrite hdr_type_received; exact Hx).
  all: destruct (until_reply_exchanges _ _ done
              (send_seg_reliable_round close_segment sizeof_RDTHeader)
              (send_seg_reliable_answers close_segment sizeof_RDTHeader)
              Hd xs x
              (evs ++ (dtc, RecvDgram c)
               :: arrivals ds ++ (dt', RecvTimeout) :: rest)
              w Hxs' Hx') as (w1 & E1 & S1 & T1).
  all: destruct (send_close_await_close evs Hev dtc c
              (arrivals ds ++ (dt', RecvTimeout) :: rest) w1 Hc)
    as (w2 & E2 & S2 & T2).
  all: destruct (send_close_wait_silence (put_type RDT_ACK close_segment)
              ds Hds dt' rest w2) as (w3 & E3 & S3 & T3 & W3).
  all: match goal with
  | |- context [bind (bind ?u _) _] =>
      replace u with (Ret (received (reply x))
                        (evs ++ (dtc, RecvDgram c)
                         :: arrivals ds ++ (dt', RecvTimeout) :: rest) w1)
        by (symmetry; exact E1)
  end.
  all: cbn [bind]; rewrite E2; cbn [bind]; rewrite E3; cbn [bind].
  all: eexists; exists (trace w3); split; [reflexivity | ].
  all: cbn [with_sock emit sock trace].
  all: rewrite S3, S2, S1, T3, T2, T1, W3,
         close_segment_datagram, final_ack_datagram.
  all: split; [reflexivity | split; [ | split; [reflexivity | split]]].
  all: try (rewrite <- app_assoc; reflexivity).
  all: try (eexists; reflexivity).
  all: cbn [set_state sequence_number sampled];
    destruct (same_ids_sampled_all xs (sock w)) as (A & _);
    symmetry; exact A.
Qed.

(** X17: closing as the initiator (any state but FIN; the state is
    not looked at otherwise).  [close_connection] sends its CLOSE until
    a reply of type ACK or CLOSE comes; it then waits, sending nothing,
    until a CLOSE arrives, passing over expiries and other datagrams;
    it answers with the bare ACK, again after every datagram of at
    least one byte that follows, and stops at the first expiry of the
    final wait.  Then the state is CLOSED and the descriptor is closed;
    the sequence number is untouched. *)
Theorem close_connection_initiator xs x evs dtc c ds dt' rest w :
  state (sock w) <> FIN ->
  Forall (fun y => ends_close (reply y) = false) xs ->
  ends_close (reply x) = true ->
  Forall passed_over evs ->
  hdr_type c = RDT_CLOSE ->
  Forall (fun p => snd p <> []) ds ->
  exists w' t,
    close_connection
      (flat_map exchange_events xs ++ exchange_events x
       ++ evs ++ (dtc, RecvDgram c)
       :: arrivals ds ++ (dt', RecvTimeout) :: rest) w
    = Ret tt rest w'
    /\ sock w' = set_state CLOSED (sampled (delay x) (sampled_all xs (sock w)))
    /\ sequence_number (sock w') = sequence_number (sock w)
    /\ trace w' = Cerr "Connection Closed as Expected" :: CloseFd :: t
    /\ sent t = sent (trace w)
                ++ repeat (control_datagram RDT_CLOSE) (transmissions (xs ++ [x]))
                ++ repeat (control_datagram RDT_ACK) (S (length ds))
    /\ exists n, waits t = n ++ repeat WAIT_TIME (S (length ds)).
Proof. exact (close_connection_initiator_run xs x evs dtc c ds dt' rest w). Qed.

Lemma close_connection_initiator_witness :
  let w := with_sock (set_state ESTABLISHED) new_world in
  exists w',
    close_connection
      [ (20, RecvDgram (control_datagram RDT_ACK));
        (185, RecvTimeout);
        (30, RecvDgram (control_datagram RDT_CLOSE));
        (4000, RecvTimeout) ] w
    = Ret tt [] w'
    /\ state (sock w') = CLOSED.
Proof.
  intros w.
  destruct (close_connection_initiator []
              (mkExchange [] 20 (control_datagram RDT_ACK))
              [(185, RecvTimeout)] 30 (control_datagram RDT_CLOSE) [] 4000 [] w)
    as (w' & t & E & S & _).
  - discriminate.
  - constructor.
  - reflexivity.
  - repeat constructor.
  - reflexivity.
  - constructor.
  - exists w'. split; [exact E | rewrite S; reflexivity].
Defined.

(** ** The handshake and the teardown, end to end *)

Lemma perrors_app t1 t0 : perrors (t1 ++ t0) = perrors t0 ++ perrors t1.
Proof.
  induction t1 as [|e t1 IH]; cbn [app perrors].
  - rewrite app_nil_r. reflexivity.
  - destruct e; try exact IH. rewrite IH, app_assoc. reflexivity.
Qed.

Lemma perrors_after_expiries seg size dts :
  forall lt c w,
    let '(_, _, w') := after_expiries seg size lt c dts w in
    perrors (trace w') = perrors (trace w).
Proof.
  induction dts as [|dt dts IH]; intros lt c w.
  - reflexivity.
  - cbn [after_expiries].
    specialize (IH true (next_curTimeout lt c w)
                   (after_expiry seg size lt c dt w)).
    destruct (after_expiries seg size true (next_curTimeout lt c w) dts
                (after_expiry seg size lt c dt w)) as [[lt' c'] w'].
    rewrite IH. reflexivity.
Qed.

Lemma send_seg_reliable_quiet seg size dts dt d rest w w' r :
  send_seg_reliable seg size (timeouts dts ++ (dt, RecvDgram d) :: rest) w
  = Ret r rest w' ->
  perrors (trace w') = perrors (trace w).
Proof.
  unfold send_seg_reliable. rewrite send_seg_reliable_loop_expiries.
  pose proof (perrors_after_expiries seg size dts false 0
                (set_timeout_length (rtt_timeout (sock w)) w)) as Hp.
  destruct (after_expiries seg size false 0 dts
              (set_timeout_length (rtt_timeout (sock w)) w))
    as [[lt' c'] wk].
  rewrite send_seg_reliable_loop_reply. intros H. injection H as _ <-.
  rewrite set_estimated_rtt_eq.
  cbn [trace perrors with_sock advance emit send]. rewrite Hp. reflexivity.
Qed.

Lemma send_timeout_quiet seg ds :
  forall dt rest w w',
    send_timeout seg (arrivals ds ++ (dt, RecvTimeout) :: rest) w
    = Ret tt rest w' ->
    perrors (trace w') = perrors (trace w).
Proof.
  induction ds as [|[dt0 d] ds IH]; intros dt rest w w' H.
  - cbn [arrivals map app] in H. rewrite send_timeout_expiry in H.
    injection H as <-. reflexivity.
  - rewrite arrivals_cons in H. cbn [app] in H.
    rewrite send_timeout_dgram in H. rewrite (IH _ _ _ _ H). reflexivity.
Qed.

(** An active open from the SYN to the silence after the ACK. *)
Lemma connect_to_remote_run dts dt d ds dt' rest w :
  state (sock w) = INIT ->
  exists w',
    connect_to_remote
      (timeouts dts ++ (dt, RecvDgram d)
         :: arrivals ds ++ (dt', RecvTimeout) :: rest) w
    = Ret tt rest w'
    /\ sock w' = set_state ESTABLISHED (sampled dt (sock w))
    /\ sent (trace w')
       = sent (trace w)
         ++ repeat (control_datagram RDT_SYN) (S (length dts))
         ++ repeat (control_datagram RDT_ACK) (S (length ds))
    /\ perrors (trace w')
       = perrors (trace w)
         ++ (if hdr_type d =? RDT_SYNACK then [] else ["Not a SYNACK"%string]).
Proof.
  intros Hst. unfold connect_to_remote. rewrite Hst.
  cbn [negb connection_status_eqb].
  rewrite <- exchange_events_app.
  destruct (send_seg_reliable_answers (control_segment MAX_SEG_SIZE RDT_SYN)
              sizeof_RDTHeader (mkExchange dts dt d)
              (arrivals ds ++ (dt', RecvTimeout) :: rest)
              (set_timeout_length (rtt_timeout (sock w)) w))
    as (w1 & E & Hs & Ht).
  pose proof E as Q. rewrite exchange_events_app in Q.
  apply send_seg_reliable_quiet in Q.
  rewrite E. cbn [bind reply delay expiries] in *.
  rewrite hdr_type_received.
  set (w1' := if negb (hdr_type d =? RDT_SYNACK)
              then emit (Perror "Not a SYNACK") w1 else w1).
  assert (A1 : sock w1' = sock w1) by (unfold w1'; destruct (negb _); reflexivity).
  assert (A2 : sent (trace w1') = sent (trace w1))
    by (unfold w1'; destruct (negb _); reflexivity).
  assert (A3 : perrors (trace w1')
               = perrors (trace w1)
                 ++ (if hdr_type d =? RDT_SYNACK then []
                     else ["Not a SYNACK"%string])).
  { unfold w1'. destruct (hdr_type d =? RDT_SYNACK); cbn [negb].
    - rewrite app_nil_r. reflexivity.
    - reflexivity. }
  destruct (send_timeout_silence (control_segment MAX_SEG_SIZE RDT_ACK) ds dt'
              rest w1') as (t & E2 & Ht2).
  pose proof (send_timeout_quiet _ _ _ _ _ _ E2) as Q2.
  rewrite E2. cbn [bind]. eexists. split; [reflexivity | ].
  cbn [with_sock emit sock trace sent perrors] in *.
  split; [rewrite A1, Hs; reflexivity | split].
  - rewrite sent_app, Ht2, A2, Ht, !control_segment_datagram, <- app_assoc.
    reflexivity.
  - rewrite Q2, A3, Q. reflexivity.
Qed.

(** X18: every run of [connect_to_remote] that gets a reply and then
    silence.  It sends the SYN once per expiry and once more, takes
    whatever datagram comes as the reply, sends the bare ACK once, and
    once more per datagram that arrives before the silence, and
    returns ESTABLISHED with the sequence number untouched and the
    reply sampled by the estimator.  It calls [perror] exactly when the
    reply is not a SYNACK; with a SYNACK nothing is reported. *)
Theorem connect_to_remote_handshake dts dt d ds dt' rest w :
  state (sock w) = INIT ->
  exists w',
    connect_to_remote
      (timeouts dts ++ (dt, RecvDgram d)
         :: arrivals ds ++ (dt', RecvTimeout) :: rest) w
    = Ret tt rest w'
    /\ sock w' = set_state ESTABLISHED (sampled dt (sock w))
    /\ sent (trace w')
       = sent (trace w)
         ++ repeat (control_datagram RDT_SYN) (S (length dts))
         ++ repeat (control_datagram RDT_ACK) (S (length ds))
    /\ perrors (trace w')
       = perrors (trace w)
         ++ (if hdr_type d =? RDT_SYNACK then [] else ["Not a SYNACK"%string]).
Proof. exact (connect_to_remote_run dts dt d ds dt' rest w). Qed.

Lemma connect_to_remote_handshake_witness :
  exists w',
    connect_to_remote
      [(20, RecvDgram (control_datagram RDT_SYNACK)); (185, RecvTimeout)]
      new_world
    = Ret tt [] w'
    /\ perrors (trace w') = [].
Proof.
  destruct (connect_to_remote_handshake [] 20 (control_datagram RDT_SYNACK)
              [] 185 [] new_world eq_refl) as (w' & E & _ & _ & P).
  exists w'. split; [exact E | exact P].
Defined.

(** X19: the two halves of the handshake fit.  What
    [connect_to_remote] sends (the SYN, again after each expiry, then
    the bare ACK) is what [accept_connection] needs to read (a SYN,
    then an ACK), and the SYNACK that [accept_connection] sends is a
    reply for which [connect_to_remote] reports nothing.  Both ends
    return ESTABLISHED with their sequence numbers untouched, whatever
    the delays and however many deadlines expired on either side. *)
Theorem handshake_fits wA wB dtsA dtA dtA' dtB dtsB dtB' :
  state (sock wA) = INIT ->
  state (sock wB) = INIT ->
  exists wA' wB',
    connect_to_remote
      (timeouts dtsA
       ++ [(dtA, RecvDgram (control_datagram RDT_SYNACK)); (dtA', RecvTimeout)])
      wA
    = Ret tt [] wA'
    /\ accept_connection
         ((dtB, RecvDgram (control_datagram RDT_SYN))
          :: timeouts dtsB ++ [(dtB', RecvDgram (control_datagram RDT_ACK))])
         wB
       = Ret tt [] wB'
    /\ sent (trace wA')
       = sent (trace wA)
         ++ repeat (control_datagram RDT_SYN) (S (length dtsA))
         ++ [control_datagram RDT_ACK]
    /\ sent (trace wB')
       = sent (trace wB)
         ++ repeat (control_datagram RDT_SYNACK) (S (length dtsB))
    /\ perrors (trace wA') = perrors (trace wA)
    /\ state (sock wA') = ESTABLISHED
    /\ state (sock wB') = ESTABLISHED
    /\ sequence_number (sock wA') = sequence_number (sock wA)
    /\ sequence_number (sock wB') = sequence_number (sock wB).
Proof.
  intros HA HB.
  destruct (connect_to_remote_run dtsA dtA (control_datagram RDT_SYNACK) []
              dtA' [] wA HA) as (wA' & EA & SA & TA & PA).
  destruct (accept_connection_run dtB (control_datagram RDT_SYN) []
              (mkExchange dtsB dtB' (control_datagram RDT_ACK)) [] wB HB
              eq_refl (Forall_nil _) eq_refl) as (wB' & EB & SB & QB & TB).
  exists wA', wB'.
  split; [exact EA | ].
  split.
  { rewrite <- EB. cbn [flat_map app]. rewrite exchange_events_app.
    reflexivity. }
  split; [exact TA | ].
  split.
  { rewrite TB. cbn [transmissions fold_right app expiries].
    rewrite Nat.add_0_r. reflexivity. }
  split; [rewrite PA; apply app_nil_r | ].
  split; [rewrite SA; reflexivity | ].
  split; [rewrite SB; reflexivity | ].
  split; [rewrite SA; reflexivity | exact QB].
Qed.

Lemma handshake_fits_witness :
  exists wA' wB',
    connect_to_remote
      [(20, RecvDgram (control_datagram RDT_SYNACK)); (185, RecvTimeout)]
      new_world
    = Ret tt [] wA'
    /\ accept_connection
         [ (5, RecvDgram (control_datagram RDT_SYN));
           (20, RecvDgram (control_datagram RDT_ACK)) ] new_world
       = Ret tt [] wB'.
Proof.
  destruct (handshake_fits new_world new_world [] 20 185 5 [] 20
              eq_refl eq_refl) as (wA' & wB' & EA & EB & _).
  exists wA', wB'. split; [exact EA | exact EB].
Defined.

(** X20: the two halves of the teardown fit.  The initiator's CLOSE
    makes the peer's [receive_data] answer with an ACK, return 0 and
    enter FIN; the peer's [close_connection] then sends its own CLOSE,
    which is what the initiator is waiting for, and the initiator's ACK
    is what the peer's [close_connection] is waiting for.  The
    initiator sends CLOSE then ACK, the peer ACK then CLOSE, both end
    CLOSED with their sequence numbers untouched. *)
Theorem teardown_fits wA wB buffer dA1 evs dA2 dA3 dB1 dB2 dB3 :
  state (sock wA) = ESTABLISHED ->
  state (sock wB) = ESTABLISHED ->
  Forall (fun ev => snd ev = RecvTimeout) evs ->
  exists wA' wB1 wB',
    close_connection
      ((dA1, RecvDgram (control_datagram RDT_ACK))
       :: evs ++ [(dA2, RecvDgram (control_datagram RDT_CLOSE));
                  (dA3, RecvTimeout)]) wA
    = Ret tt [] wA'
    /\ receive_data buffer
         [(dB1, RecvDgram (control_datagram RDT_CLOSE)); (dB2, RecvTimeout)] wB
       = Ret (0, buffer) [] wB1
    /\ state (sock wB1) = FIN
    /\ close_connection [(dB3, RecvDgram (control_datagram RDT_ACK))] wB1
       = Ret tt [] wB'
    /\ sent (trace wA')
       = sent (trace wA)
         ++ [control_datagram RDT_CLOSE; control_datagram RDT_ACK]
    /\ sent (trace wB')
       = sent (trace wB)
         ++ [control_datagram RDT_ACK; control_datagram RDT_CLOSE]
    /\ state (sock wA') = CLOSED
    /\ state (sock wB') = CLOSED
    /\ sequence_number (sock wA') = sequence_number (sock wA)
    /\ sequence_number (sock wB') = sequence_number (sock wB).
Proof.
  intros HA HB Hev.
  assert (Hev' : Forall passed_over evs).
  { eapply Forall_impl; [ | exact Hev]. intros ev H. unfold passed_over.
    rewrite H. exact I. }
  destruct (close_connection_initiator_run []
              (mkExchange [] dA1 (control_datagram RDT_ACK)) evs dA2
              (control_datagram RDT_CLOSE) [] dA3 [] wA)
    as (wA' & tA & EA & SA & QA & TrA & TA & _);
    try solve [rewrite HA; discriminate | constructor | reflexivity | exact Hev'].
  destruct (receive_data_close_run buffer dB1 (control_datagram RDT_CLOSE) []
              dB2 [] wB HB eq_refl) as (wB1 & EB1 & SB1 & TB1).
  assert (HB1 : state (sock wB1) = FIN) by (rewrite SB1; reflexivity).
  destruct (close_connection_responder_run []
              (mkExchange [] dB3 (control_datagram RDT_ACK)) [] wB1 HB1
              (Forall_nil _) eq_refl) as (wB' & tB & EB & SB & QB & TrB & TB).
  exists wA', wB1, wB'.
  split; [exact EA | ].
  split; [exact EB1 | ].
  split; [exact HB1 | ].
  split; [exact EB | ].
  split; [rewrite TrA; cbn [sent]; rewrite TA; reflexivity | ].
  split.
  { rewrite TrB. cbn [sent]. rewrite TB, TB1, <- app_assoc. reflexivity. }
  split; [rewrite SA; reflexivity | ].
  split; [rewrite SB; reflexivity | ].
  split; [exact QA | ].
  rewrite QB, SB1. reflexivity.
Qed.

Lemma teardown_fits_witness :
  let w := with_sock (set_state ESTABLISHED) new_world in
  exists wA',
    close_connection
      [ (20, RecvDgram (control_datagram RDT_ACK));
        (185, RecvTimeout);
        (30, RecvDgram (control_datagram RDT_CLOSE));
        (4000, RecvTimeout) ] w
    = Ret tt [] wA'
    /\ state (sock wA') = CLOSED.
Proof.
  intros w.
  destruct (teardown_fits w w [] 20 [(185, RecvTimeout)] 30 4000 1 140 20
              eq_refl eq_refl)
    as (wA' & _ & _ & EA & _ & _ & _ & _ & _ & SA & _).
  - repeat constructor.
  - exists wA'. split; [exact EA | exact SA].
Defined.

(** ** The doubling of the deadline and where it ends *)

Lemma set_estimated_rtt_checked_cases accepts w :
  set_estimated_rtt_checked accepts w = inl (set_estimated_rtt w)
  \/ exists w', set_estimated_rtt_checked accepts w = inr w'
                /\ hd_error (trace w') = Some (Perror "setsockopt").
Proof.
  unfold set_estimated_rtt_checked, set_estimated_rtt,
    set_timeout_length_checked.
  cbv zeta. destruct (accepts _).
  - left. reflexivity.
  - right. eexists. split; reflexivity.
Qed.

(** With the failure branch in, a call either goes as without it or
    ends the process in [set_timeout_length]. *)
Lemma send_seg_reliable_loop_checked_cases accepts seg size :
  forall inbox lt c w,
    send_seg_reliable_loop_checked accepts seg size lt c inbox w
    = send_seg_reliable_loop seg size lt c inbox w
    \/ exists w',
         send_seg_reliable_loop_checked accepts seg size lt c inbox w
         = Exited w'
         /\ hd_error (trace w') = Some (Perror "setsockopt").
Proof.
  induction inbox as [|[dt [ | |d]] inbox IH]; intros lt c w.
  - left. reflexivity.
  - rewrite send_seg_reliable_loop_expiry.
    cbn [send_seg_reliable_loop_checked recv fst snd].
    change (-1 <? 0) with true. cbn [errno set_errno errno_eqb].
    unfold set_timeout_length_checked. cbv zeta.
    match goal with |- context [accepts ?x] => destruct (accepts x) end.
    + match goal with
      | |- context [send_seg_reliable_loop_checked _ _ _ ?a ?b _ ?v] =>
          destruct (IH a b v) as [E | (w' & E & Hp)]
      end.
      * left. rewrite E. unfold after_expiry, next_curTimeout.
        cbn [sock emit set_errno advance send]. destruct lt; reflexivity.
      * right. exists w'. split; [exact E | exact Hp].
    + right. eexists. split; reflexivity.
  - left. reflexivity.
  - rewrite send_seg_reliable_loop_reply.
    cbn [send_seg_reliable_loop_checked recv fst snd].
    destruct (Z.ltb_spec (Z.of_nat (length (firstn (Z.to_nat MAX_SEG_SIZE) d))) 0);
      [lia | ].
    match goal with
    | |- context [set_estimated_rtt_checked accepts ?v] =>
        destruct (set_estimated_rtt_checked_cases accepts v)
          as [E | (w' & E & Hp)]; rewrite E
    end.
    + left. unfold received, current_msec. do 3 f_equal.
      cbn [clock advance emit send]. f_equal. lia.
    + right. exists w'. split; [reflexivity | exact Hp].
Qed.

Lemma send_seg_reliable_checked_cases accepts seg size inbox w :
  send_seg_reliable_checked accepts seg size inbox w
  = send_seg_reliable seg size inbox w
  \/ exists w',
       send_seg_reliable_checked accepts seg size inbox w = Exited w'
       /\ hd_error (trace w') = Some (Perror "setsockopt").
Proof.
  unfold send_seg_reliable_checked, send_seg_reliable,
    set_timeout_length_checked. cbv zeta.
  destruct (accepts _).
  - apply send_seg_reliable_loop_checked_cases.
  - right. eexists. split; reflexivity.
Qed.

(** When [setsockopt] takes every deadline the failure branch is never
    entered. *)
Lemma send_seg_reliable_checked_accepting seg size inbox w :
  send_seg_reliable_checked (fun _ => true) seg size inbox w
  = send_seg_reliable seg size inbox w.
Proof.
  unfold send_seg_reliable_checked, send_seg_reliable,
    set_timeout_length_checked. cbv zeta. cbv beta.
  generalize (set_timeout_length (rtt_timeout (sock w)) w) as v.
  generalize false as lt. generalize 0 as c.
  induction inbox as [|[dt [ | |d]] inbox IH]; intros c lt v.
  - reflexivity.
  - rewrite send_seg_reliable_loop_expiry.
    cbn [send_seg_reliable_loop_checked recv fst snd].
    change (-1 <? 0) with true. cbn [errno set_errno errno_eqb].
    unfold set_timeout_length_checked. cbv zeta. cbv beta. cbv iota.
    rewrite IH. unfold after_expiry, next_curTimeout.
    cbn [sock emit set_errno advance send]. destruct lt; reflexivity.
  - reflexivity.
  - rewrite send_seg_reliable_loop_reply.
    cbn [send_seg_reliable_loop_checked recv fst snd].
    destruct (Z.ltb_spec (Z.of_nat (length (firstn (Z.to_nat MAX_SEG_SIZE) d))) 0);
      [lia | ].
    destruct (set_estimated_rtt_checked_cases (fun _ => true)
                (with_sock
                   (set_current_rtt
                      (current_msec
                         (advance dt
                            (emit (RecvCall (rcvtimeo (send seg size v)))
                               (send seg size v)))
                       - current_msec v))
                   (advance dt
                      (emit (RecvCall (rcvtimeo (send seg size v)))
                         (send seg size v)))))
      as [E | (w' & E & Hp)].
    + rewrite E. unfold received, current_msec. do 3 f_equal.
      cbn [clock advance emit send]. f_equal. lia.
    + exfalso. unfold set_estimated_rtt_checked, set_timeout_length_checked in E.
      cbv zeta in E. cbv beta in E. discriminate E.
Qed.

(** The run without the failure branch: 25 expiries in a row, each
    after the deadline it ran out under, from the constructor's
    estimate (100 + 4*10 = 140 ms). *)
Lemma send_seg_reliable_25_expiries :
  exists wk,
    send_seg_reliable (control_segment MAX_SEG_SIZE RDT_SYN) sizeof_RDTHeader
      (expiries_from 140 25) new_world = Blocked wk
    /\ nth 24 (waits (trace wk)) 0 = 2348810240
    /\ rcvtimeo wk = 402653184.
Proof.
  eexists. split; [vm_compute; reflexivity | ].
  split; vm_compute; reflexivity.
Qed.

(** C2 at a failing input: the peer stays silent and 25 deadlines
    expire in a row, from the constructor's estimate of 140 ms, each
    after the wait it allows.  The 24th retry's deadline is
    140 * 2^24 = 2348810240 ms.  Whatever [setsockopt] makes of the
    deadlines, the 25th retry does not wait under twice that: either
    [set_timeout_length] has ended the process on the way, or
    [curTimeout = 2*curTimeout] has wrapped in [uint32_t] and the 25th
    retry waits under 402653184 ms.  When [setsockopt] refuses what does
    not fit an [int], the process ends in the 24th doubling, with
    2348810240 printed and 1174405120 the last deadline in force. *)
Theorem doubling_ends_by_the_25th_retry :
  (forall accepts,
      (exists w',
          send_seg_reliable_checked accepts
            (control_segment MAX_SEG_SIZE RDT_SYN) sizeof_RDTHeader
            (expiries_from 140 25) new_world = Exited w'
          /\ hd_error (trace w') = Some (Perror "setsockopt"))
      \/ (exists wk,
          send_seg_reliable_checked accepts
            (control_segment MAX_SEG_SIZE RDT_SYN) sizeof_RDTHeader
            (expiries_from 140 25) new_world = Blocked wk
          /\ nth 24 (waits (trace wk)) 0 = 2348810240
          /\ rcvtimeo wk = 402653184
          /\ rcvtimeo wk <> 2 * 2348810240))
  /\ (exists w' t,
        send_seg_reliable_checked (fun ms => ms <? 2 ^ 31)
          (control_segment MAX_SEG_SIZE RDT_SYN) sizeof_RDTHeader
          (expiries_from 140 25) new_world = Exited w'
        /\ trace w' = Perror "setsockopt" :: CerrTimeout 2348810240 :: t
        /\ rcvtimeo w' = 1174405120
        /\ length (waits (trace w')) = 24%nat).
Proof.
  split.
  - intros accepts.
    destruct (send_seg_reliable_checked_cases accepts
                (control_segment MAX_SEG_SIZE RDT_SYN) sizeof_RDTHeader
                (expiries_from 140 25) new_world) as [E | (w' & E & Hp)].
    + right. destruct send_seg_reliable_25_expiries as (wk & E' & A & B).
      exists wk. rewrite E. split; [exact E' | ].
      split; [exact A | split; [exact B | ]].
      rewrite B. discriminate.
    + left. exists w'. split; [exact E | exact Hp].
  - eexists. eexists. split; [vm_compute; reflexivity | ].
    split; [reflexivity | split; vm_compute; reflexivity].
Qed.
